(** * svelte-check-daemon: the output parser, the supervisor, the watchers,
      the socket server and the client query helper.

    The development follows [src/daemon.ts] and [src/client.ts].  A JavaScript
    string is a sequence of UTF-16 code units.  Most of the development keeps
    the code units below 256 and writes a string as a [list ascii]; on ASCII
    data [Buffer.toString()] is the identity, so a chunk of the checker's
    output and the string handed to [handleOutput] are then the same list.
    Where the bytes of a chunk matter, the modules [Utf8] and [Wide] have the
    decoding of a buffer and the output parser on all code units.  The
    platform's clock, file system, path functions, sockets and timers enter
    as parameters or as events. *)

From Stdlib Require Import Ascii String List Bool Arith NArith ZArith Lia.
From Stdlib Require Import Numbers.DecimalString.
From Stdlib Require Numbers.DecimalPos Numbers.DecimalN.
From stdpp Require Import base list gmap strings.
Import ListNotations.

Local Open Scope list_scope.
Local Open Scope char_scope.

(** ** JavaScript strings *)

Module Js.

Abbreviation text := (list ascii).

(** A string literal of the source. *)
Definition lit (s : string) : text := list_ascii_of_string s.

Definition code (c : ascii) : nat := nat_of_ascii c.

Definition eqc (a b : ascii) : bool := Ascii.eqb a b.

(** [\d] of a regular expression without the [u] flag: [0-9]. *)
Definition is_digit (c : ascii) : bool :=
  (48 <=? code c)%nat && (code c <=? 57)%nat.

(** WhiteSpace and LineTerminator code units below 256, as [trim] and
    [trimEnd] see them: TAB, LF, VT, FF, CR, SP and NBSP. *)
Definition is_space (c : ascii) : bool :=
  let n := code c in
  ((9 <=? n)%nat && (n <=? 13)%nat) || (n =? 32)%nat || (n =? 160)%nat.

(** [s.startsWith(p)] *)
Fixpoint startsWith (s p : text) : bool :=
  match p, s with
  | [], _ => true
  | _ :: _, [] => false
  | a :: p', b :: s' => eqc a b && startsWith s' p'
  end.

(** [s.includes(p)]: [p] occurs at some position of [s]. *)
Fixpoint includes (s p : text) : bool :=
  startsWith s p ||
  match s with
  | [] => false
  | _ :: s' => includes s' p
  end.

(** [s.split(sep)] for a one-unit separator: the segments between the
    separators, never an empty array. *)
Fixpoint split (sep : ascii) (s : text) : list text :=
  match s with
  | [] => [[]]
  | c :: s' =>
      if eqc c sep then [] :: split sep s'
      else match split sep s' with
           | l :: ls => (c :: l) :: ls
           | [] => [[c]]
           end
  end.

(** [a.pop()]: the last element ([undefined] on an empty array, here [None])
    and the array that is left. *)
Definition pop {A} (a : list A) : option A * list A :=
  (last a, removelast a).

(** [s.trimEnd()] *)
Fixpoint trimEnd (s : text) : text :=
  match s with
  | [] => []
  | c :: s' =>
      match trimEnd s' with
      | [] => if is_space c then [] else [c]
      | t => c :: t
      end
  end.

(** [s.trimStart()] *)
Fixpoint trimStart (s : text) : text :=
  match s with
  | [] => []
  | c :: s' => if is_space c then trimStart s' else s
  end.

(** [s.trim()] *)
Definition trim (s : text) : text := trimEnd (trimStart s).

(** [parseInt(ds, 10)] on a string of decimal digits.  The source only
    compares the result with 0; the double that [parseInt] returns is
    positive exactly when this integer is. *)
Definition digit_val (c : ascii) : N := N.of_nat (code c - 48).

Definition parseInt (ds : text) : N :=
  fold_left (fun acc c => (10 * acc + digit_val c)%N) ds 0%N.

(** Decimal rendering of a non-negative integer, as [String(n)] and
    [JSON.stringify(n)] give it below 1e21. *)
Definition showN (n : N) : text :=
  lit (NilZero.string_of_uint (N.to_uint n)).

End Js.

(** ** Regular expressions

    A backtracking matcher for the fragment the source uses: literals,
    one-unit classes, greedy bounded-below repetition of a class, greedy
    option, sequence and capture groups. *)

Module Re.
Import Js.

Inductive re :=
| Lit (s : text)                        (* abc *)
| Rep (p : ascii -> bool) (min : nat)   (* [p]{min,}, greedy *)
| Opt (r : re)                          (* r?, greedy *)
| Seq (r1 r2 : re)                      (* r1r2 *)
| Group (r : re).                       (* (r) *)

(** A group under an option that takes no part in the match gets no capture
    here, where JavaScript records [undefined]; the expressions of the source
    have no group under an option. *)

(** The result of a match: the input that is left, and the captures. *)
Definition result := option (text * list text).

(** Greedy repetition: take one more unit when possible and fall back to
    stopping here when the rest of the pattern fails. *)
Fixpoint rep (p : ascii -> bool) (min : nat) (s : text)
    (k : text -> result) : result :=
  let stop := if (min =? 0)%nat then k s else None in
  match s with
  | c :: s' =>
      if p c then
        match rep p (pred min) s' k with
        | Some r => Some r
        | None => stop
        end
      else stop
  | [] => stop
  end.

Fixpoint lit_here (l s : text) : option text :=
  match l, s with
  | [], _ => Some s
  | _ :: _, [] => None
  | a :: l', b :: s' => if eqc a b then lit_here l' s' else None
  end.

(** [matchk r s caps k]: match [r] at the head of [s], then continue with
    [k] on what is left; a failing continuation makes [r] backtrack. *)
Fixpoint matchk (r : re) (s : text) (caps : list text)
    (k : text -> list text -> result) : result :=
  match r with
  | Lit l =>
      match lit_here l s with
      | Some s' => k s' caps
      | None => None
      end
  | Rep p min => rep p min s (fun s' => k s' caps)
  | Opt r1 =>
      match matchk r1 s caps k with
      | Some x => Some x
      | None => k s caps
      end
  | Seq r1 r2 =>
      matchk r1 s caps (fun s' caps' => matchk r2 s' caps' k)
  | Group r1 =>
      matchk r1 s caps
        (fun s' caps' => k s' (caps' ++ [take (length s - length s') s]))
  end.

(** A match anchored at the head of [s]. *)
Definition match_here (r : re) (s : text) : result :=
  matchk r s [] (fun s' caps => Some (s', caps)).

(** [s.match(r)] for a regular expression without the [g] flag: the captures
    of the leftmost match, [None] for [null]. *)
Fixpoint exec (r : re) (s : text) : option (list text) :=
  match match_here r s with
  | Some (_, caps) => Some caps
  | None =>
      match s with
      | [] => None
      | _ :: s' => exec r s'
      end
  end.

(** Number of code units of the match at the head of [s]. *)
Definition match_len (r : re) (s : text) : option nat :=
  match match_here r s with
  | Some (s', _) => Some (length s - length s')
  | None => None
  end.

(** [s.replace(r, '')] for a regular expression with the [g] flag: every
    match, found left to right and never overlapping, is removed.  [skip] is
    the number of units of the current match that are still to be dropped. *)
Fixpoint remove_from (r : re) (skip : nat) (s : text) : text :=
  match s with
  | [] => []
  | c :: s' =>
      match skip with
      | S n => remove_from r n s'
      | O =>
          match match_len r s with
          | Some (S n) => remove_from r n s'
          | _ => c :: remove_from r 0 s'
          end
      end
  end.

Definition remove_all (r : re) (s : text) : text := remove_from r 0 s.

End Re.


(** ** [JSON.stringify] of a flat object *)

Module Json.
Import Js.

Inductive value :=
| JString (s : text)
| JBool (b : bool)
| JNumber (n : N).

(** An object: its own properties in creation order. *)
Definition object := list (text * value).

Definition hex_digit (n : nat) : ascii :=
  nth n (lit "0123456789abcdef") "0".

(** QuoteJSONString, one code unit. *)
Definition escape (c : ascii) : text :=
  let n := code c in
  if (n =? 8)%nat then lit "\b"
  else if (n =? 9)%nat then lit "\t"
  else if (n =? 10)%nat then lit "\n"
  else if (n =? 12)%nat then lit "\f"
  else if (n =? 13)%nat then lit "\r"
  else if (n =? 34)%nat then ["\"; c]
  else if (n =? 92)%nat then ["\"; c]
  else if (n <? 32)%nat then
    lit "\u00" ++ [hex_digit (n / 16); hex_digit (n mod 16)]
  else [c].

Definition quote (s : text) : text :=
  ["034"] ++ flat_map escape s ++ ["034"].

Definition stringify_value (v : value) : text :=
  match v with
  | JString s => quote s
  | JBool true => lit "true"
  | JBool false => lit "false"
  | JNumber n => showN n
  end.

Fixpoint members (o : object) : text :=
  match o with
  | [] => []
  | [(k, v)] => quote k ++ lit ":" ++ stringify_value v
  | (k, v) :: o' => quote k ++ lit ":" ++ stringify_value v ++ lit "," ++ members o'
  end.

Definition stringify (o : object) : text :=
  lit "{" ++ members o ++ lit "}".

End Json.

(** ** The daemon ([src/daemon.ts]) *)

Module Daemon.
Import Js Re.

Definition LF : ascii := "010".

Infix "+>" := Seq (at level 60, right associativity).

(** [interface DaemonState]; [lastUpdate] is a reading of [Date.now()]. *)
Record DaemonState := {
  output : text;
  hasErrors : bool;
  hasWarnings : bool;
  isComplete : bool;
  lastUpdate : N
}.

(** The handle [spawn] returns, identified by what was spawned. *)
Record ChildProcess := {
  command : text;
  args : list text;
  cwd : text
}.

(** The fields of [class SvelteCheckDaemon] that the parser, the supervisor
    and the big-changes watcher use. *)
Record t := {
  lastCompleteState : DaemonState;
  svelteCheckProcess : option ChildProcess;
  currentOutput : text;
  lineBuffer : text;
  workspacePath : text;
  tsconfigPath : option text;
  knownFiles : gset text
}.

Definition set_lastCompleteState (v : DaemonState) (d : t) : t :=
  {| lastCompleteState := v;
     svelteCheckProcess := svelteCheckProcess d;
     currentOutput := currentOutput d;
     lineBuffer := lineBuffer d;
     workspacePath := workspacePath d;
     tsconfigPath := tsconfigPath d;
     knownFiles := knownFiles d |}.

Definition set_svelteCheckProcess (v : option ChildProcess) (d : t) : t :=
  {| lastCompleteState := lastCompleteState d;
     svelteCheckProcess := v;
     currentOutput := currentOutput d;
     lineBuffer := lineBuffer d;
     workspacePath := workspacePath d;
     tsconfigPath := tsconfigPath d;
     knownFiles := knownFiles d |}.

Definition set_currentOutput (v : text) (d : t) : t :=
  {| lastCompleteState := lastCompleteState d;
     svelteCheckProcess := svelteCheckProcess d;
     currentOutput := v;
     lineBuffer := lineBuffer d;
     workspacePath := workspacePath d;
     tsconfigPath := tsconfigPath d;
     knownFiles := knownFiles d |}.

Definition set_lineBuffer (v : text) (d : t) : t :=
  {| lastCompleteState := lastCompleteState d;
     svelteCheckProcess := svelteCheckProcess d;
     currentOutput := currentOutput d;
     lineBuffer := v;
     workspacePath := workspacePath d;
     tsconfigPath := tsconfigPath d;
     knownFiles := knownFiles d |}.

Definition set_knownFiles (v : gset text) (d : t) : t :=
  {| lastCompleteState := lastCompleteState d;
     svelteCheckProcess := svelteCheckProcess d;
     currentOutput := currentOutput d;
     lineBuffer := lineBuffer d;
     workspacePath := workspacePath d;
     tsconfigPath := tsconfigPath d;
     knownFiles := v |}.

(** The value the field initialisers and [restartSvelteCheck] give the
    snapshot. *)
Definition emptyState (now : N) : DaemonState :=
  {| output := []; hasErrors := false; hasWarnings := false;
     isComplete := false; lastUpdate := now |}.

(** The daemon after [new SvelteCheckDaemon(workspacePath, tsconfigPath)]. *)
Definition create (now : N) (workspace : text) (tsconfig : option text) : t :=
  {| lastCompleteState := emptyState now;
     svelteCheckProcess := None;
     currentOutput := [];
     lineBuffer := [];
     workspacePath := workspace;
     tsconfigPath := tsconfig;
     knownFiles := ∅ |}.

(** *** The output parser *)

(** ['Getting Svelte diagnostics...'] *)
Definition startedMarker : text := lit "Getting Svelte diagnostics...".

(** [/svelte-check found (\d+) errors? and (\d+) warnings?/] *)
Definition summaryRe : re :=
  Lit (lit "svelte-check found ") +> Group (Rep is_digit 1) +>
  Lit (lit " error") +> Opt (Lit (lit "s")) +> Lit (lit " and ") +>
  Group (Rep is_digit 1) +> Lit (lit " warning") +> Opt (Lit (lit "s")).

(** [/={36,}\n?/g] *)
Definition separatorRe : re :=
  Rep (eqc "=") 36 +> Opt (Lit [LF]).

(** [/Watching for file changes\.\.\.\n?/g] *)
Definition watchingRe : re :=
  Lit (lit "Watching for file changes...") +> Opt (Lit [LF]).

(** The writes of the parser to the snapshot store, in the order they
    happen: the one of [handleOutput] on a cycle-started marker, and the one
    of [handleLine] on a summary line. *)
Inductive Transition :=
| CycleStarted (s : DaemonState)
| CycleFinalized (s : DaemonState).

(** The three steps that turn [currentOutput] into the committed text. *)
Definition cleanOutput (acc : text) : text :=
  trimEnd (remove_all watchingRe (remove_all separatorRe acc)).

(** [handleLine(line)] *)
Definition handleLine (now : N) (d : t) (line : text) : t * list Transition :=
  let d := set_currentOutput (currentOutput d ++ line ++ [LF]) d in
  match exec summaryRe line with
  | Some [errors; warnings] =>
      let errorCount := parseInt errors in
      let warningCount := parseInt warnings in
      let st := {| output := cleanOutput (currentOutput d);
                   hasErrors := (0 <? errorCount)%N;
                   hasWarnings := (0 <? warningCount)%N;
                   isComplete := true;
                   lastUpdate := now |} in
      (set_currentOutput [] (set_lastCompleteState st d), [CycleFinalized st])
  | _ => (d, [])
  end.

(** [for (const line of lines) this.handleLine(line)] *)
Fixpoint handleLines (now : N) (d : t) (lines : list text)
    : t * list Transition :=
  match lines with
  | [] => (d, [])
  | line :: rest =>
      let (d1, w1) := handleLine now d line in
      let (d2, w2) := handleLines now d1 rest in
      (d2, w1 ++ w2)
  end.

(** The first statement of [handleOutput]: the marker is looked for in the
    chunk as it arrived. *)
Definition noteStarted (now : N) (d : t) (data : text) : t * list Transition :=
  if includes data startedMarker then
    let st := {| output := output (lastCompleteState d);
                 hasErrors := hasErrors (lastCompleteState d);
                 hasWarnings := hasWarnings (lastCompleteState d);
                 isComplete := false;
                 lastUpdate := now |} in
    (set_lastCompleteState st d, [CycleStarted st])
  else (d, []).

(** [handleOutput(data)] *)
Definition handleOutput (now : N) (d : t) (data : text) : t * list Transition :=
  let (d0, w0) := noteStarted now d data in
  let lines := split LF (lineBuffer d0 ++ data) in
  let (tail, lines) := pop lines in
  let d1 := set_lineBuffer (default [] tail) d0 in
  let (d2, w2) := handleLines now d1 lines in
  (d2, w0 ++ w2).

(** The chunks of a stream, each with the clock reading of its arrival, fed
    to the parser in order. *)
Fixpoint feed (d : t) (chunks : list (N * text)) : t * list Transition :=
  match chunks with
  | [] => (d, [])
  | (now, data) :: rest =>
      let (d1, w1) := handleOutput now d data in
      let (d2, w2) := feed d1 rest in
      (d2, w1 ++ w2)
  end.

(** The snapshots committed by a finalize, oldest first. *)
Fixpoint finalized (ws : list Transition) : list DaemonState :=
  match ws with
  | [] => []
  | CycleFinalized s :: ws' => s :: finalized ws'
  | CycleStarted _ :: ws' => finalized ws'
  end.

(** What a reader sees of a snapshot besides its time stamp. *)
Definition view (s : DaemonState) : text * bool * bool * bool :=
  (output s, hasErrors s, hasWarnings s, isComplete s).

(** [getState()] *)
Definition getState (d : t) : DaemonState := lastCompleteState d.

(** *** The process supervisor *)

(** What the daemon does to the world outside its own fields. *)
Inductive Effect :=
| Kill (p : ChildProcess)          (* p.kill() *)
| Spawn (p : ChildProcess)         (* spawn(command, args, { cwd }) *)
| ConsoleLog (msg : text).         (* console.log(msg) *)

(** The argument list [startSvelteCheck] builds; an absent or empty
    [tsconfigPath] is falsy. *)
Definition checkerArgs (d : t) : list text :=
  [lit "--watch"; lit "--preserveWatchOutput"; lit "--output";
   lit "human-verbose"] ++
  match tsconfigPath d with
  | Some (c :: p) => [lit "--tsconfig"; c :: p]
  | _ => []
  end.

(** [startSvelteCheck()] *)
Definition startSvelteCheck (d : t) : t * list Effect :=
  let p := {| command := lit "svelte-check";
              args := checkerArgs d;
              cwd := workspacePath d |} in
  (set_svelteCheckProcess (Some p) d, [Spawn p]).

(** [restartSvelteCheck()] *)
Definition restartSvelteCheck (now : N) (d : t) : t * list Effect :=
  let (d1, e1) :=
    match svelteCheckProcess d with
    | Some p => (set_svelteCheckProcess None d, [Kill p])
    | None => (d, [])
    end in
  let d2 := set_currentOutput [] d1 in
  let d3 := set_lineBuffer [] d2 in
  let d4 := set_lastCompleteState (emptyState now) d3 in
  let (d5, e2) := startSvelteCheck d4 in
  (d5, e1 ++ e2).

(** *** Paths and the big-changes watcher

    [path.join] and [fs.existsSync] belong to the platform; the functions
    below take them as parameters. *)

Section Files.
Variable path_join : list text -> text.
Variable existsSync : text -> bool.

(** [getSocketPath(workspacePath)] *)
Definition getSocketPath (workspace : text) : text :=
  path_join [workspace; lit "node_modules"; lit ".svelte-check-daemon.sock"].

(** [getPidPath(workspacePath)] *)
Definition getPidPath (workspace : text) : text :=
  path_join [workspace; lit "node_modules"; lit ".svelte-check-daemon.pid"].

(** The callback [startBigChangesWatcher] hands to [fs.watch]; [filename]
    is [None] for [null]. *)
Definition onBigChange (absoluteWatchDir : text) (now : N) (d : t)
    (eventType : text) (filename : option text) : t * list Effect :=
  match filename with
  | None => (d, [])
  | Some [] => (d, [])
  | Some name =>
      let fullPath := path_join [absoluteWatchDir; name] in
      if bool_decide (eventType = lit "rename") then
        if existsSync fullPath then
          (set_knownFiles ({[fullPath]} ∪ knownFiles d) d, [])
        else if bool_decide (fullPath ∈ knownFiles d) then
          let d1 := set_knownFiles (knownFiles d ∖ {[fullPath]}) d in
          let (d2, e) := restartSvelteCheck now d1 in
          (d2, ConsoleLog (lit "File deleted: " ++ fullPath ++
                           lit ", restarting svelte-check...") :: e)
        else (d, [])
      else (d, [])
  end.

End Files.

(** *** The socket server *)

(** What the server does on an accepted connection. *)
Inductive SocketAction :=
| SocketWrite (payload : text)     (* socket.write(payload) *)
| SocketEnd.                       (* socket.end() *)

(** The properties of a snapshot, in the order the object literals of
    [handleLine] and [restartSvelteCheck] create them. *)
Definition toObject (s : DaemonState) : Json.object :=
  [(lit "output", Json.JString (output s));
   (lit "hasErrors", Json.JBool (hasErrors s));
   (lit "hasWarnings", Json.JBool (hasWarnings s));
   (lit "isComplete", Json.JBool (isComplete s));
   (lit "lastUpdate", Json.JNumber (lastUpdate s))].

(** The ['data'] handler of [startServer]. *)
Definition onData (d : t) (data : text) : list SocketAction :=
  let request := trim data in
  if bool_decide (request = lit "GET_STATUS") then
    [SocketWrite (Json.stringify (toObject (getState d))); SocketEnd]
  else [].

End Daemon.

(** ** The client query helper ([src/client.ts]) *)

Module Client.
Import Js Daemon.

Inductive SocketState :=
| NoSocket          (* createConnection was not called *)
| SockConnecting
| SockOpen
| SockClosed.

Inductive TimerState :=
| NoTimer           (* setTimeout was not called *)
| TimerPending
| TimerFired.

(** What the helper asks of the platform. *)
Inductive Call :=
| CreateConnection (socketPath : text)
| SetTimeout (ms : N)
| SocketSend (payload : text)
| SocketDestroy.

(** One call of [getStatusFromDaemon]: the socket, the timer, the [data]
    variable, the promise ([settled] is [None] while it is pending) and the
    platform calls made so far. *)
Record Query := {
  socket : SocketState;
  timer : TimerState;
  data : text;
  settled : option (option DaemonState);
  calls : list Call
}.

(** The events the platform delivers to the handlers of one query. *)
Inductive Event :=
| EvConnect
| EvData (chunk : text)
| EvEnd
| EvError
| EvTimer.

Section Query.
Variable path_join : list text -> text.
Variable existsSync : text -> bool.
(** [JSON.parse(data) as DaemonState]; [None] when it throws. *)
Variable JSON_parse : text -> option DaemonState.

(** [resolve(v)]: only the first call settles the promise. *)
Definition resolve (v : option DaemonState) (q : Query) : Query :=
  match settled q with
  | Some _ => q
  | None =>
      {| socket := socket q; timer := timer q; data := data q;
         settled := Some v; calls := calls q |}
  end.

Definition set_socket (s : SocketState) (q : Query) : Query :=
  {| socket := s; timer := timer q; data := data q;
     settled := settled q; calls := calls q |}.

Definition set_timer (s : TimerState) (q : Query) : Query :=
  {| socket := socket q; timer := s; data := data q;
     settled := settled q; calls := calls q |}.

Definition set_data (s : text) (q : Query) : Query :=
  {| socket := socket q; timer := timer q; data := s;
     settled := settled q; calls := calls q |}.

Definition call (c : Call) (q : Query) : Query :=
  {| socket := socket q; timer := timer q; data := data q;
     settled := settled q; calls := calls q ++ [c] |}.

(** [getStatusFromDaemon(workspacePath)] up to its first return to the
    event loop. *)
Definition getStatusFromDaemon (workspace : text) : Query :=
  let socketPath := getSocketPath path_join workspace in
  if negb (existsSync socketPath) then
    {| socket := NoSocket; timer := NoTimer; data := [];
       settled := Some None; calls := [] |}
  else
    {| socket := SockConnecting; timer := TimerPending; data := [];
       settled := None;
       calls := [CreateConnection socketPath; SetTimeout 5000] |}.

(** The handlers, together with what the platform does around them: the
    connect callback runs once on a connecting socket; ['data'] and ['end']
    come from an open socket only, and after ['end'] the socket, which is not
    half-open, is closed; ['error'] closes the socket; a closed socket is
    silent; the timer fires at most once and [destroy] closes the socket. *)
Definition dispatch (q : Query) (ev : Event) : Query :=
  match ev, socket q, timer q with
  | EvConnect, SockConnecting, _ =>
      call (SocketSend (lit "GET_STATUS")) (set_socket SockOpen q)
  | EvData chunk, SockOpen, _ =>
      set_data (data q ++ chunk) q
  | EvEnd, SockOpen, _ =>
      set_socket SockClosed (resolve (JSON_parse (data q)) q)
  | EvError, SockConnecting, _ | EvError, SockOpen, _ =>
      set_socket SockClosed (resolve None q)
  | EvTimer, _, TimerPending =>
      resolve None
        (set_socket SockClosed (call SocketDestroy (set_timer TimerFired q)))
  | _, _, _ => q
  end.

Definition run (q : Query) (evs : list Event) : Query :=
  fold_left dispatch evs q.

(** Once the promise is settled the socket is closed, if there is one. *)
Definition closed_when_settled (q : Query) : Prop :=
  settled q <> None -> socket q = NoSocket \/ socket q = SockClosed.

(** The requirement on a query: once its promise is settled, no connection
    is open and no timer is pending. *)
Definition nothing_dangling (q : Query) : Prop :=
  settled q <> None ->
  (socket q = NoSocket \/ socket q = SockClosed) /\
  (timer q = NoTimer \/ timer q = TimerFired).

End Query.

End Client.

(** ** Definitions used to state the properties *)

Module Spec.
Import Js Re Daemon.

(** The complete lines of a text and the unterminated tail after them. *)
Fixpoint cut (s : text) : list text * text :=
  match s with
  | [] => ([], [])
  | c :: s' =>
      let (ls, r) := cut s' in
      if eqc c LF then ([] :: ls, r)
      else match ls with
           | [] => ([], c :: r)
           | l :: ls' => ((c :: l) :: ls', r)
           end
  end.

(** Two daemons agree on the accumulation state of the parser. *)
Definition sim (d d' : t) : Prop :=
  currentOutput d = currentOutput d' /\ lineBuffer d = lineBuffer d'.

(** The finalized snapshots of a run as a reader sees them. *)
Definition views (ws : list Transition) : list (text * bool * bool * bool) :=
  map view (finalized ws).

(** A write of the cycle-started kind occurs in a run. *)
Definition started (ws : list Transition) : bool :=
  existsb (fun w => match w with CycleStarted _ => true | _ => false end) ws.

(** The text of some lines, each with its line terminator. *)
Definition unlines (ls : list text) : text :=
  flat_map (fun l => l ++ [LF]) ls.

(** The number of capture groups of an expression. *)
Fixpoint groups (r : re) : nat :=
  match r with
  | Lit _ | Rep _ _ => 0
  | Opt r1 => groups r1
  | Seq r1 r2 => groups r1 + groups r2
  | Group r1 => S (groups r1)
  end.

(** No group stands under an option, so every match fills every group. *)
Fixpoint flat (r : re) : bool :=
  match r with
  | Lit _ | Rep _ _ => true
  | Opt r1 => (groups r1 =? 0)%nat && flat r1
  | Seq r1 r2 => flat r1 && flat r2
  | Group r1 => flat r1
  end.

(** A string of decimal digits. *)
Definition digits (ds : text) : Prop := Forall (fun c => is_digit c = true) ds.

(** The summary phrase, with either spelling of each noun. *)
Definition summaryPhrase (e w : text) (errors_s warnings_s : bool) : text :=
  lit "svelte-check found " ++ e ++ lit " error" ++
  (if errors_s then lit "s" else []) ++ lit " and " ++ w ++ lit " warning" ++
  (if warnings_s then lit "s" else []).

(** The value of a decimal numeral read after the digits that gave [acc]. *)
Fixpoint uint_val (d : Decimal.uint) (acc : N) : N :=
  match d with
  | Decimal.Nil => acc
  | Decimal.D0 l => uint_val l (10 * acc + 0)
  | Decimal.D1 l => uint_val l (10 * acc + 1)
  | Decimal.D2 l => uint_val l (10 * acc + 2)
  | Decimal.D3 l => uint_val l (10 * acc + 3)
  | Decimal.D4 l => uint_val l (10 * acc + 4)
  | Decimal.D5 l => uint_val l (10 * acc + 5)
  | Decimal.D6 l => uint_val l (10 * acc + 6)
  | Decimal.D7 l => uint_val l (10 * acc + 7)
  | Decimal.D8 l => uint_val l (10 * acc + 8)
  | Decimal.D9 l => uint_val l (10 * acc + 9)
  end%N.

(** The number of checker processes an effect list starts. *)
Fixpoint spawns (es : list Effect) : nat :=
  match es with
  | [] => 0
  | Spawn _ :: es' => S (spawns es')
  | _ :: es' => spawns es'
  end.

(** C6 as it is worded: the exact token is answered and the connection
    closed, every other payload is left without an answer. *)
Definition only_exact_token_answered : Prop :=
  forall (d : t) (data : text),
    (data = lit "GET_STATUS" ->
     onData d data =
       [SocketWrite (Json.stringify (toObject (getState d))); SocketEnd]) /\
    (data <> lit "GET_STATUS" -> onData d data = []).

(** A stand-in for [path.join] in examples: the segments with a slash
    between them. *)
Fixpoint join_slash (segments : list text) : text :=
  match segments with
  | [] => lit "."
  | [x] => x
  | x :: rest => x ++ lit "/" ++ join_slash rest
  end.

(** The timer event occurs in a trace. *)
Definition timer_fires (evs : list Client.Event) : bool :=
  existsb (fun e => match e with Client.EvTimer => true | _ => false end) evs.

(** *** The cosmetic lines of the checker, as the specification words them *)

(** The footer the checker prints when a cycle is over. *)
Definition footer : text := lit "Watching for file changes...".

(** The shortest separator. *)
Definition rule36 : text := repeat "="%char 36.

(** A separator line: equals signs only, at least 36 of them. *)
Definition isSeparatorLine (l : text) : bool :=
  (36 <=? length l)%nat && forallb (eqc "=") l.

(** A footer line: the footer and nothing else. *)
Definition isFooterLine (l : text) : bool := bool_decide (l = footer).

Definition cosmetic (l : text) : bool := isSeparatorLine l || isFooterLine l.

(** A plain line holds neither a separator nor the footer. *)
Definition plainLine (l : text) : bool :=
  negb (includes l rule36) && negb (includes l footer).

(** The lines of a well-formed report are cosmetic or plain. *)
Definition wellFormedLine (l : text) : bool := cosmetic l || plainLine l.

(** The report without its cosmetic lines. *)
Definition stripCosmetic (ls : list text) : list text :=
  List.filter (fun l => negb (cosmetic l)) ls.

(** The length of the run of units in [p] at the head of a text. *)
Fixpoint runLength (p : ascii -> bool) (s : text) : nat :=
  match s with
  | c :: s' => if p c then S (runLength p s') else 0
  | [] => 0
  end.

(** The flags a line commits: none unless the line holds a summary. *)
Definition lineFlags (l : text) : list (bool * bool) :=
  match exec summaryRe l with
  | Some [e; w] => [((0 <? parseInt e)%N, (0 <? parseInt w)%N)]
  | _ => []
  end.

Definition flags (s : DaemonState) : bool * bool := (hasErrors s, hasWarnings s).

(** A chunk, as [String] syntax, followed by a line feed. *)
Definition line (s : string) : text := lit s ++ [LF].

End Spec.

(** ** The watchers and the process events ([src/daemon.ts]) *)

Module Watchers.
Import Js Re Daemon.

(** *** The exit of the child process *)

(** The ['exit'] handler [startSvelteCheck] registers on the process it
    spawns: it clears the field, whichever process the field holds. *)
Definition onExit (d : t) : t := set_svelteCheckProcess None d.

(** The callback of the watcher on the [HEAD] file. *)
Definition onGitHeadChange (now : N) (d : t) : t * list Effect :=
  let (d1, e) := restartSvelteCheck now d in
  (d1, ConsoleLog (lit "Git HEAD changed, restarting svelte-check...") :: e).

(** *** The scan of the watched directory *)

(** What [readdirSync(dir, { withFileTypes: true })] yields for a tree: an
    entry that is not a directory, or a directory with its own listing,
    [None] when reading it throws. *)
#[local] Unset Elimination Schemes.
Inductive entry :=
| Other (name : text)
| Directory (name : text) (listing : option (list entry)).
#[local] Set Elimination Schemes.

Section Scan.
Variable path_join : list text -> text.

(** One turn of the loop of [scanDirectory(dir)]; the recursive call has
    its own [try], so a directory that cannot be read adds nothing. *)
Fixpoint scanEntry (dir : text) (e : entry) (known : gset text) : gset text :=
  match e with
  | Other name => {[path_join [dir; name]]} ∪ known
  | Directory name None => known
  | Directory name (Some es) =>
      fold_left (fun k e' => scanEntry (path_join [dir; name]) e' k) es known
  end.

(** [scanDirectory(dir)], [listing] being what [readdirSync(dir)] yields. *)
Definition scanDirectory (dir : text) (listing : option (list entry)) (d : t) : t :=
  match listing with
  | None => d
  | Some es =>
      set_knownFiles (fold_left (fun k e => scanEntry dir e k) es (knownFiles d)) d
  end.

(** *** The big-changes watcher *)

Variable path_resolve : text -> text -> text.
Variable existsSync : text -> bool.

(** [startBigChangesWatcher()]: [env] is [SVELTE_CHECK_WATCH_BIG_CHANGES],
    [listing] what the directory holds.  The third component is the
    directory [fs.watch] is put on, [None] when no watcher is made. *)
Definition startBigChangesWatcher (env : option text)
    (listing : option (list entry)) (d : t) : t * list Effect * option text :=
  match env with
  | None => (d, [], None)
  | Some [] => (d, [], None)
  | Some watchDir =>
      let absoluteWatchDir := path_resolve (workspacePath d) watchDir in
      if negb (existsSync absoluteWatchDir) then
        (d, [ConsoleLog (lit "SVELTE_CHECK_WATCH_BIG_CHANGES: directory " ++
                         absoluteWatchDir ++ lit " does not exist, skipping")],
         None)
      else (scanDirectory absoluteWatchDir listing d, [], Some absoluteWatchDir)
  end.

End Scan.

(** An event of [fs.watch] with the clock and the file system of the moment
    it is handled. *)
Record FsEvent := {
  at_time : N;
  present : text -> bool;
  eventType : text;
  filename : option text
}.

(** The events of the big-changes watcher, handled in order. *)
Fixpoint bigChanges (path_join : list text -> text) (dir : text) (d : t)
    (evs : list FsEvent) : t * list Effect :=
  match evs with
  | [] => (d, [])
  | ev :: rest =>
      let (d1, e1) := onBigChange path_join (present ev) dir (at_time ev) d
                        (eventType ev) (filename ev) in
      let (d2, e2) := bigChanges path_join dir d1 rest in
      (d2, e1 ++ e2)
  end.

(** *** The route-file watcher *)

(** [/\/\+[^/]+\.ts/], the part of the expression before [$]. *)
Definition routeRe : re :=
  Lit (lit "/+") +> Rep (fun c => negb (eqc "/" c)) 1 +> Lit (lit ".ts").

(** A match at the head of [s] that ends where [s] ends. *)
Definition match_to_end (r : re) (s : text) : bool :=
  match matchk r s []
          (fun s' caps => match s' with [] => Some (s', caps) | _ => None end)
  with
  | Some _ => true
  | None => false
  end.

(** [/r$/.test(s)] without the [m] flag. *)
Fixpoint test_end (r : re) (s : text) : bool :=
  match_to_end r s ||
  match s with
  | [] => false
  | _ :: s' => test_end r s'
  end.

(** [/\/\+[^/]+\.ts$/.test(filename)] *)
Definition isRouteFile (name : text) : bool := test_end routeRe name.

(** The debounce of the route-file watcher.  [syncDebounceTimer] is the
    field; [pending] are the handles of the timers that were set and have
    neither fired nor been cleared, [nextTimer] the handle [setTimeout]
    returns next, and [synced] the working directories of the
    [spawnSync('svelte-kit', ['sync'])] calls made so far. *)
Record Debounce := {
  syncDebounceTimer : option nat;
  pending : list nat;
  nextTimer : nat;
  synced : list text
}.

Definition idle : Debounce :=
  {| syncDebounceTimer := None; pending := []; nextTimer := 0; synced := [] |}.

(** [clearTimeout(handle)] *)
Definition clearTimeout (handle : nat) (st : Debounce) : Debounce :=
  {| syncDebounceTimer := syncDebounceTimer st;
     pending := List.filter (fun h => negb (Nat.eqb h handle)) (pending st);
     nextTimer := nextTimer st;
     synced := synced st |}.

(** The callback [startRouteFileWatcher] hands to [fs.watch]. *)
Definition onRouteEvent (name : option text) (st : Debounce) : Debounce :=
  match name with
  | None => st
  | Some [] => st
  | Some f =>
      if isRouteFile f then
        let st1 := match syncDebounceTimer st with
                   | Some h => clearTimeout h st
                   | None => st
                   end in
        {| syncDebounceTimer := Some (nextTimer st1);
           pending := nextTimer st1 :: pending st1;
           nextTimer := S (nextTimer st1);
           synced := synced st1 |}
      else st
  end.

(** The expiry of the timer [handle]: the platform runs the callback of a
    pending timer, once. *)
Definition onTimer (workspace : text) (handle : nat) (st : Debounce) : Debounce :=
  if existsb (Nat.eqb handle) (pending st) then
    {| syncDebounceTimer := syncDebounceTimer st;
       pending := List.filter (fun h => negb (Nat.eqb h handle)) (pending st);
       nextTimer := nextTimer st;
       synced := synced st ++ [workspace] |}
  else st.

(** The first statement of [shutdown()]. *)
Definition cancelSync (st : Debounce) : Debounce :=
  match syncDebounceTimer st with
  | Some h => clearTimeout h st
  | None => st
  end.

(** What reaches the route-file watcher: file events and timer expiries. *)
Inductive Tick :=
| FileChanged (name : option text)
| TimerExpired (handle : nat).

Definition tick (workspace : text) (st : Debounce) (e : Tick) : Debounce :=
  match e with
  | FileChanged name => onRouteEvent name st
  | TimerExpired h => onTimer workspace h st
  end.

Definition ticks (workspace : text) (st : Debounce) (es : list Tick) : Debounce :=
  fold_left (tick workspace) es st.

End Watchers.

(** ** Start, shutdown and the files of a daemon ([src/daemon.ts]) *)

Module Lifecycle.
Import Js Re Daemon Watchers.

(** What a path of the file system holds: a file with its text, or
    something [readFileSync] throws on. *)
Inductive file :=
| Unreadable
| Content (c : text).

(** [fs.existsSync(p)] *)
Definition existsSync (disk : gmap text file) (p : text) : bool :=
  bool_decide (is_Some (disk !! p)).

Section Files.
Variable path_join : list text -> text.
(** [fs.unlinkSync(p)] returns, rather than throws. *)
Variable removable : text -> bool.
(** [fs.writeFileSync(p, _)] returns, rather than throws. *)
Variable writable : text -> bool.

(** [try { if (fs.existsSync(p)) fs.unlinkSync(p) } catch {}] *)
Definition unlinkQuietly (p : text) (disk : gmap text file) : gmap text file :=
  if existsSync disk p then
    if removable p then delete p disk else disk
  else disk.

(** [cleanup()] *)
Definition cleanup (workspace : text) (disk : gmap text file) : gmap text file :=
  unlinkQuietly (getPidPath path_join workspace)
    (unlinkQuietly (getSocketPath path_join workspace) disk).

(** The first two statements of [start()]: [cleanup()] and the writing of
    [process.pid.toString()] to the pid path.  [None] when the write throws,
    which makes [start()] reject before anything is started. *)
Definition registerPid (pid : N) (workspace : text) (disk : gmap text file)
    : option (gmap text file) :=
  let disk1 := cleanup workspace disk in
  if writable (getPidPath path_join workspace) then
    Some (<[getPidPath path_join workspace := Content (showN pid)]> disk1)
  else None.

(** The fields [shutdown()] reads, and the disk. *)
Record Instance := {
  core : t;
  debounce : Debounce;
  routeFileWatcher : option text;
  gitHeadWatcher : option text;
  bigChangesWatcher : option text;
  server : option text;
  disk : gmap text file
}.

Inductive Action :=
| OfProcess (e : Effect)
| WatcherClose (watched : text)
| ServerClose (socketPath : text)
| ProcessExit (code : Z).

Definition closing (w : option text) : list Action :=
  match w with
  | Some p => [WatcherClose p]
  | None => []
  end.

(** [shutdown()] *)
Definition shutdown (i : Instance) : Instance * list Action :=
  let deb := cancelSync (debounce i) in
  let acts :=
    closing (routeFileWatcher i) ++ closing (gitHeadWatcher i) ++
    closing (bigChangesWatcher i) ++
    match svelteCheckProcess (core i) with
    | Some p => [OfProcess (Kill p)]
    | None => []
    end ++
    match server i with
    | Some p => [ServerClose p]
    | None => []
    end in
  ({| core := core i;
      debounce := deb;
      routeFileWatcher := routeFileWatcher i;
      gitHeadWatcher := gitHeadWatcher i;
      bigChangesWatcher := bigChangesWatcher i;
      server := server i;
      disk := cleanup (workspacePath (core i)) (disk i) |},
   acts ++ [ProcessExit 0]).

End Files.

End Lifecycle.

(** ** The liveness probe and the command line ([src/client.ts],
       [bin/svelte-check-daemon.js]) *)

Module Cli.
Import Js Re Daemon Lifecycle.

(** The digits at the head of a string. *)
Fixpoint leadingDigits (s : text) : text :=
  match s with
  | c :: s' => if is_digit c then c :: leadingDigits s' else []
  | [] => []
  end.

(** [parseInt(s, 10)]: white space, a sign, then as many decimal digits as
    there are; [None] is [NaN]. *)
Definition parseInt10 (s : text) : option Z :=
  let s1 := trimStart s in
  let (negative, s2) :=
    match s1 with
    | "-"%char :: r => (true, r)
    | "+"%char :: r => (false, r)
    | _ => (false, s1)
    end in
  match leadingDigits s2 with
  | [] => None
  | ds => Some (if negative then - Z.of_N (parseInt ds) else Z.of_N (parseInt ds))%Z
  end.

(** [process.kill] throws on a pid that is not a 32-bit integer, [NaN]
    included, before it asks the system. *)
Definition validPid (pid : Z) : bool :=
  ((- 2147483648 <=? pid) && (pid <=? 2147483647))%Z.

Section Probe.
Variable path_join : list text -> text.
(** [process.kill(pid, 0)] returns, rather than throws. *)
Variable probe : Z -> bool.
(** [process.kill(pid, 'SIGTERM')] returns, rather than throws. *)
Variable terminate : Z -> bool.

(** [parseInt(fs.readFileSync(pidPath, 'utf-8').trim(), 10)]; [None] when
    the read throws or the number is [NaN]. *)
Definition readPid (workspace : text) (disk : gmap text file) : option Z :=
  match disk !! getPidPath path_join workspace with
  | Some (Content c) => parseInt10 (trim c)
  | _ => None
  end.

(** [isDaemonRunning(workspacePath)] *)
Definition isDaemonRunning (workspace : text) (disk : gmap text file) : bool :=
  if negb (existsSync disk (getPidPath path_join workspace)) then false
  else
    match readPid workspace disk with
    | Some pid => validPid pid && probe pid
    | None => false
    end.

(** The fixed messages of the commands, by what they say. *)
Inductive Notice :=
| DaemonNotRunning       (* Daemon is not running *)
| FailedToStop           (* Failed to stop daemon: *)
| RunningDirectly        (* svelte-check-daemon is not running. Running ... *)
| StartHint              (* Start the daemon with: svelte-check-daemon start *)
| FailedStatus           (* Failed to get status from daemon *)
| TimedOut.              (* Timeout waiting for svelte-check to complete *)

(** What a command does that can be seen from outside. *)
Inductive Said :=
| Stdout (msg : text)              (* console.log(msg) *)
| Stderr (n : Notice)              (* console.error of a fixed message *)
| Signal (pid : Z)                 (* SIGTERM sent to pid *)
| KitSync                          (* spawnSync('svelte-kit', ['sync']) *)
| DirectCheck.                     (* runSvelteCheckDirectly *)

(** [stopDaemon()]: what it does, and the exit code. *)
Definition stopDaemon (workspace : text) (disk : gmap text file) : list Said * Z :=
  if negb (existsSync disk (getPidPath path_join workspace)) then
    ([Stderr DaemonNotRunning], 1%Z)
  else
    match readPid workspace disk with
    | Some pid =>
        if validPid pid && terminate pid then
          ([Signal pid;
            Stdout (lit "Stopped daemon (PID " ++
                    (if (pid <? 0)%Z then lit "-" else []) ++
                    showN (Z.abs_N pid) ++ lit ")")], 0%Z)
        else ([Stderr FailedToStop], 1%Z)
    | None => ([Stderr FailedToStop], 1%Z)
    end.

End Probe.

(** [runCheck()].  What it reads from outside: whether [process.env.CI] is
    set, the two answers of [isDaemonRunning], the result of the direct run,
    the first answer of [getStatusFromDaemon], the clock when the wait
    starts, and for every turn of the polling loop the clock at its test and
    the answer of the query made in it. *)
Record CheckInput := {
  ci : bool;
  running1 : bool;
  running2 : bool;
  direct : bool * text;
  first : option DaemonState;
  startTime : Z;
  turns : list (Z * option DaemonState)
}.

(** How far [runCheck] gets: to [process.exit(code)], or into a turn of the
    loop for which no input is given. *)
Inductive Outcome :=
| Exits (code : Z)
| Waits.

Definition failedStatus : list Said * Outcome :=
  ([Stderr FailedStatus], Exits 1).

(** The end of [runCheck]: the report and the exit code. *)
Definition report (status : DaemonState) : list Said * Outcome :=
  ([Stdout (output status)], Exits (if hasErrors status then 1 else 0)%Z).

(** The [while] loop of [runCheck] and what follows it. *)
Fixpoint poll (start : Z) (status : DaemonState)
    (turns : list (Z * option DaemonState)) : list Said * Outcome :=
  if isComplete status then report status
  else
    match turns with
    | [] => ([], Waits)
    | (now, answer) :: rest =>
        if (now - start <? 120000)%Z then
          match answer with
          | None => failedStatus
          | Some status' => poll start status' rest
          end
        else
          ([Stderr TimedOut], Exits 1)
    end.

Definition runCheck (i : CheckInput) : list Said * Outcome :=
  let sync := if ci i || negb (running1 i) then [KitSync] else [] in
  if negb (running2 i) then
    let warn := if ci i then [] else [Stderr RunningDirectly; Stderr StartHint] in
    (sync ++ warn ++ [DirectCheck; Stdout (snd (direct i))],
     Exits (if fst (direct i) then 0 else 1)%Z)
  else
    match first i with
    | None => (sync ++ fst failedStatus, snd failedStatus)
    | Some status =>
        let (said, out) := poll (startTime i) status (turns i) in
        (sync ++ said, out)
    end.

(** [parseArgs()]: the loop over [process.argv.slice(2)], from the
    defaults [(process.cwd(), undefined)]. *)
Fixpoint parseArgsFrom (path_resolve : text -> text) (workspace : text)
    (tsconfig : option text) (args : list text) : text * option text :=
  match args with
  | [] => (workspace, tsconfig)
  | a :: rest =>
      match rest with
      | (c :: v) :: rest' =>
          if bool_decide (a = lit "--workspace") then
            parseArgsFrom path_resolve (path_resolve (c :: v)) tsconfig rest'
          else if bool_decide (a = lit "--tsconfig") then
            parseArgsFrom path_resolve workspace (Some (c :: v)) rest'
          else parseArgsFrom path_resolve workspace tsconfig rest
      | _ => parseArgsFrom path_resolve workspace tsconfig rest
      end
  end.

Definition parseArgs (path_resolve : text -> text) (cwd : text)
    (args : list text) : text * option text :=
  parseArgsFrom path_resolve cwd None args.

End Cli.

(** ** Definitions used to state the further properties *)

Module MoreSpec.
Import Js Re Daemon Watchers Lifecycle Cli.

(** Induction on a directory tree, with the hypothesis for every entry of a
    listing. *)
Fixpoint entry_induction (P : entry -> Prop)
    (HOther : forall name, P (Other name))
    (HLocked : forall name, P (Directory name None))
    (HDir : forall name es, Forall P es -> P (Directory name (Some es)))
    (e : entry) : P e :=
  match e with
  | Other name => HOther name
  | Directory name None => HLocked name
  | Directory name (Some es) =>
      HDir name es
        ((fix all (l : list entry) : Forall P l :=
            match l with
            | [] => Forall_nil_2 P
            | x :: l' =>
                Forall_cons_2 P x l' (entry_induction P HOther HLocked HDir x)
                  (all l')
            end) es)
  end.

(** The paths of the entries that are not directories, under the
    directories that can be read. *)
Inductive listed (path_join : list text -> text)
    : text -> list entry -> text -> Prop :=
| listed_here dir es name :
    In (Other name) es -> listed path_join dir es (path_join [dir; name])
| listed_below dir es name sub p :
    In (Directory name (Some sub)) es ->
    listed path_join (path_join [dir; name]) sub p ->
    listed path_join dir es p.

(** What the scan of an entry adds to the known files. *)
Definition adds (path_join : list text -> text) (e : entry) : Prop :=
  forall dir known p,
    p ∈ scanEntry path_join dir e known <->
    p ∈ known \/ listed path_join dir [e] p.

(** The number of processes an effect list kills. *)
Fixpoint kills (es : list Effect) : nat :=
  match es with
  | [] => 0
  | Kill _ :: es' => S (kills es')
  | _ :: es' => kills es'
  end.

(** The events that report their path as present.  *)
Definition reportsPresent (path_join : list text -> text) (dir : text)
    (ev : FsEvent) : bool :=
  match filename ev with
  | Some (c :: name) =>
      bool_decide (eventType ev = lit "rename") &&
      present ev (path_join [dir; c :: name])
  | _ => false
  end.

(** The number of events of a run that report their path as present. *)
Definition presentReports (path_join : list text -> text) (dir : text)
    (evs : list FsEvent) : nat :=
  length (List.filter (reportsPresent path_join dir) evs).

(** The file events that name a route file. *)
Definition namesRouteFile (e : Tick) : bool :=
  match e with
  | FileChanged (Some (c :: name)) => isRouteFile (c :: name)
  | _ => false
  end.

(** The states of the debounce that the watcher can be in. *)
Definition reachable (workspace : text) (st : Debounce) : Prop :=
  exists es, st = ticks workspace idle es.

(** White space only. *)
Definition blank (s : text) : Prop := Forall (fun c => is_space c = true) s.

(** The answers a run of [runCheck] gets from the daemon. *)
Definition answers (i : CheckInput) : list DaemonState :=
  match first i with
  | Some st => [st]
  | None => []
  end ++
  flat_map (fun t => match snd t with Some st => [st] | None => [] end) (turns i).

(** The two option names of the command line. *)
Definition isOption (a : text) : bool :=
  bool_decide (a = lit "--workspace") || bool_decide (a = lit "--tsconfig").

End MoreSpec.

(** ** What the two removals of the source take out *)

Module CleanSpec.
Import Js Re Daemon Spec.

(** One, when the unit at position [n] of a text is a line feed. *)
Definition lineFeedAt (n : nat) (s : text) : nat :=
  match drop n s with
  | c :: _ => if eqc LF c then 1 else 0
  | [] => 0
  end.

(** The units that the removal of separators takes out at the head of a
    text: the whole run of equals signs there when it has 36 of them or
    more, and the line feed directly after the run. *)
Definition separatorSpan (s : text) : nat :=
  let n := runLength (eqc "=") s in
  if (36 <=? n)%nat then n + lineFeedAt n s else 0.

(** The units that the removal of footers takes out at the head of a text:
    the footer when the text starts with it, and the line feed directly
    after it. *)
Definition footerSpan (s : text) : nat :=
  if startsWith s footer then length footer + lineFeedAt (length footer) s
  else 0.

(** A text without the spans found in it from left to right, a span being
    looked for again only where the one before it ends; [skip] units of the
    current span are still to be left out. *)
Fixpoint without (span : text -> nat) (skip : nat) (s : text) : text :=
  match s with
  | [] => []
  | c :: s' =>
      match skip with
      | S n => without span n s'
      | O =>
          match span s with
          | S n => without span n s'
          | O => c :: without span 0 s'
          end
      end
  end.

(** C5 as it is worded: the committed text is the text of the accumulated
    lines without the separator lines and the footer lines, trimmed. *)
Definition finalize_removes_cosmetic_lines : Prop :=
  forall (now : N) (d : t) (ls : list text) (l : text),
    currentOutput d = [] ->
    Forall (fun x => exec summaryRe x = None) ls ->
    exec summaryRe l <> None ->
    output (lastCompleteState (fst (handleLines now d (ls ++ [l])))) =
      trimEnd (unlines (stripCosmetic (ls ++ [l]))).

End CleanSpec.

(** ** Buffers and their decoding

    What a child process or a socket delivers is a [Buffer] per chunk, and
    the ['data'] listeners of the source turn each of them into a string
    with [toString()], one chunk at a time.  The string is a sequence of
    UTF-16 code units, of which the modules above keep those below 256; this
    module and the next one have them all. *)

Module Utf8.

Local Open Scope N_scope.

Abbreviation bytes := (list Byte.byte).

(** A string: its UTF-16 code units, each below 65536. *)
Abbreviation wtext := (list N).

(** U+FFFD, which the decoder puts for what is not UTF-8. *)
Definition REPLACEMENT : N := 0xFFFD.

(** The decoder between two bytes: at the start of a character, or inside
    one, with the bits read so far, the number of bytes still to come and
    the range the next byte must lie in. *)
Inductive state :=
| Start
| Inside (codePoint : N) (needed : nat) (lower upper : N).

(** The code units of a code point: itself, or a surrogate pair. *)
Definition units (cp : N) : wtext :=
  if cp <? 0x10000 then [cp]
  else [0xD800 + (cp - 0x10000) / 0x400; 0xDC00 + (cp - 0x10000) mod 0x400].

(** A byte at the start of a character. *)
Definition lead (b : N) : wtext * state :=
  if b <=? 0x7F then ([b], Start)
  else if (0xC2 <=? b) && (b <=? 0xDF) then
    ([], Inside (N.land b 0x1F) 1 0x80 0xBF)
  else if (0xE0 <=? b) && (b <=? 0xEF) then
    ([], Inside (N.land b 0x0F) 2
           (if b =? 0xE0 then 0xA0 else 0x80)
           (if b =? 0xED then 0x9F else 0xBF))
  else if (0xF0 <=? b) && (b <=? 0xF4) then
    ([], Inside (N.land b 0x07) 3
           (if b =? 0xF0 then 0x90 else 0x80)
           (if b =? 0xF4 then 0x8F else 0xBF))
  else ([REPLACEMENT], Start).

(** One byte.  A byte that cannot continue the character gives up the
    character, for which U+FFFD is put, and is read again as the start of
    the next one. *)
Definition step (st : state) (b : N) : wtext * state :=
  match st with
  | Start => lead b
  | Inside cp needed lower upper =>
      if (lower <=? b) && (b <=? upper) then
        let cp' := N.lor (N.shiftl cp 6) (N.land b 0x3F) in
        match needed with
        | S (S n) => ([], Inside cp' (S n) 0x80 0xBF)
        | _ => (units cp', Start)
        end
      else
        let (out, st') := lead b in (REPLACEMENT :: out, st')
  end.

(** The bytes of a buffer, in order. *)
Fixpoint run (st : state) (bs : bytes) : wtext * state :=
  match bs with
  | [] => ([], st)
  | b :: bs' =>
      let (o1, st1) := step st (Byte.to_N b) in
      let (o2, st2) := run st1 bs' in
      (o1 ++ o2, st2)
  end.

(** The end of the buffer: a character that is not finished is given up. *)
Definition flush (st : state) : wtext :=
  match st with
  | Start => []
  | Inside _ _ _ _ => [REPLACEMENT]
  end.

(** [buf.toString()], which is [buf.toString('utf8')]: every buffer is
    decoded from the start state, whatever the buffer before it ended in. *)
Definition toString (bs : bytes) : wtext :=
  let (out, st) := run Start bs in out ++ flush st.

(** The buffer ends where a character ends. *)
Definition endsBetweenCharacters (bs : bytes) : Prop :=
  snd (run Start bs) = Start.

(** The bytes of a text of ASCII characters. *)
Definition ascii_bytes (s : string) : bytes := list_byte_of_string s.

End Utf8.

(** ** The output parser on all code units

    [handleOutput] and [handleLine] of [src/daemon.ts] once more, on strings
    of all UTF-16 code units and with the ['data'] listeners that decode the
    chunks in front of them.  The literals and the character classes of the
    source are ASCII, so the expressions are those of [Daemon], written in
    code units. *)

Module Wide.
Import Utf8.

Local Open Scope N_scope.

(** A string of the modules above in code units. *)
Definition ofText (s : Js.text) : wtext :=
  map (fun c => N.of_nat (Js.code c)) s.

(** A string literal of the source. *)
Definition lit (s : string) : wtext := ofText (Js.lit s).

Definition LF : N := 10.

(** [\d] of a regular expression without the [u] flag: [0-9]. *)
Definition is_digit (c : N) : bool := (48 <=? c) && (c <=? 57).

(** WhiteSpace and LineTerminator, as [trimEnd] sees them. *)
Definition is_space (c : N) : bool :=
  ((9 <=? c) && (c <=? 13)) || (c =? 32) || (c =? 0xA0) || (c =? 0x1680) ||
  ((0x2000 <=? c) && (c <=? 0x200A)) || (c =? 0x2028) || (c =? 0x2029) ||
  (c =? 0x202F) || (c =? 0x205F) || (c =? 0x3000) || (c =? 0xFEFF).

(** [s.startsWith(p)] *)
Fixpoint startsWith (s p : wtext) : bool :=
  match p, s with
  | [], _ => true
  | _ :: _, [] => false
  | a :: p', b :: s' => (a =? b) && startsWith s' p'
  end.

(** [s.includes(p)] *)
Fixpoint includes (s p : wtext) : bool :=
  startsWith s p ||
  match s with
  | [] => false
  | _ :: s' => includes s' p
  end.

(** [s.split(sep)] for a one-unit separator. *)
Fixpoint split (sep : N) (s : wtext) : list wtext :=
  match s with
  | [] => [[]]
  | c :: s' =>
      if c =? sep then [] :: split sep s'
      else match split sep s' with
           | l :: ls => (c :: l) :: ls
           | [] => [[c]]
           end
  end.

(** [s.trimEnd()] *)
Fixpoint trimEnd (s : wtext) : wtext :=
  match s with
  | [] => []
  | c :: s' =>
      match trimEnd s' with
      | [] => if is_space c then [] else [c]
      | t => c :: t
      end
  end.

(** [parseInt(ds, 10)] on a string of decimal digits. *)
Definition parseInt (ds : wtext) : N :=
  fold_left (fun acc c => 10 * acc + (c - 48)) ds 0.

(** *** Regular expressions *)

Inductive re :=
| Lit (s : wtext)
| Rep (p : N -> bool) (min : nat)
| Opt (r : re)
| Seq (r1 r2 : re)
| Group (r : re).

Definition result := option (wtext * list wtext).

Fixpoint rep (p : N -> bool) (min : nat) (s : wtext)
    (k : wtext -> result) : result :=
  let stop := if (min =? 0)%nat then k s else None in
  match s with
  | c :: s' =>
      if p c then
        match rep p (pred min) s' k with
        | Some r => Some r
        | None => stop
        end
      else stop
  | [] => stop
  end.

Fixpoint lit_here (l s : wtext) : option wtext :=
  match l, s with
  | [], _ => Some s
  | _ :: _, [] => None
  | a :: l', b :: s' => if a =? b then lit_here l' s' else None
  end.

Fixpoint matchk (r : re) (s : wtext) (caps : list wtext)
    (k : wtext -> list wtext -> result) : result :=
  match r with
  | Lit l =>
      match lit_here l s with
      | Some s' => k s' caps
      | None => None
      end
  | Rep p min => rep p min s (fun s' => k s' caps)
  | Opt r1 =>
      match matchk r1 s caps k with
      | Some x => Some x
      | None => k s caps
      end
  | Seq r1 r2 =>
      matchk r1 s caps (fun s' caps' => matchk r2 s' caps' k)
  | Group r1 =>
      matchk r1 s caps
        (fun s' caps' => k s' (caps' ++ [take (length s - length s')%nat s]))
  end.

Definition match_here (r : re) (s : wtext) : result :=
  matchk r s [] (fun s' caps => Some (s', caps)).

(** [s.match(r)] without the [g] flag. *)
Fixpoint exec (r : re) (s : wtext) : option (list wtext) :=
  match match_here r s with
  | Some (_, caps) => Some caps
  | None =>
      match s with
      | [] => None
      | _ :: s' => exec r s'
      end
  end.

Definition match_len (r : re) (s : wtext) : option nat :=
  match match_here r s with
  | Some (s', _) => Some (length s - length s')%nat
  | None => None
  end.

(** [s.replace(r, '')] with the [g] flag. *)
Fixpoint remove_from (r : re) (skip : nat) (s : wtext) : wtext :=
  match s with
  | [] => []
  | c :: s' =>
      match skip with
      | S n => remove_from r n s'
      | O =>
          match match_len r s with
          | Some (S n) => remove_from r n s'
          | _ => c :: remove_from r 0 s'
          end
      end
  end.

Definition remove_all (r : re) (s : wtext) : wtext := remove_from r 0 s.

(** *** The parser *)

Infix "+>" := Seq (at level 60, right associativity).

(** [interface DaemonState] *)
Record DaemonState := {
  output : wtext;
  hasErrors : bool;
  hasWarnings : bool;
  isComplete : bool;
  lastUpdate : N
}.

(** The fields of [class SvelteCheckDaemon] that the parser reads and
    writes. *)
Record t := {
  lastCompleteState : DaemonState;
  currentOutput : wtext;
  lineBuffer : wtext
}.

(** The parser of a daemon that was just made or restarted. *)
Definition create (now : N) : t :=
  {| lastCompleteState :=
       {| output := []; hasErrors := false; hasWarnings := false;
          isComplete := false; lastUpdate := now |};
     currentOutput := [];
     lineBuffer := [] |}.

(** ['Getting Svelte diagnostics...'] *)
Definition startedMarker : wtext := lit "Getting Svelte diagnostics...".

(** [/svelte-check found (\d+) errors? and (\d+) warnings?/] *)
Definition summaryRe : re :=
  Lit (lit "svelte-check found ") +> Group (Rep is_digit 1) +>
  Lit (lit " error") +> Opt (Lit (lit "s")) +> Lit (lit " and ") +>
  Group (Rep is_digit 1) +> Lit (lit " warning") +> Opt (Lit (lit "s")).

(** [/={36,}\n?/g] *)
Definition separatorRe : re :=
  Rep (N.eqb 61) 36 +> Opt (Lit [LF]).

(** [/Watching for file changes\.\.\.\n?/g] *)
Definition watchingRe : re :=
  Lit (lit "Watching for file changes...") +> Opt (Lit [LF]).

Inductive Transition :=
| CycleStarted (s : DaemonState)
| CycleFinalized (s : DaemonState).

Definition cleanOutput (acc : wtext) : wtext :=
  trimEnd (remove_all watchingRe (remove_all separatorRe acc)).

(** [handleLine(line)] *)
Definition handleLine (now : N) (d : t) (line : wtext) : t * list Transition :=
  let d := {| lastCompleteState := lastCompleteState d;
              currentOutput := currentOutput d ++ line ++ [LF];
              lineBuffer := lineBuffer d |} in
  match exec summaryRe line with
  | Some [errors; warnings] =>
      let errorCount := parseInt errors in
      let warningCount := parseInt warnings in
      let st := {| output := cleanOutput (currentOutput d);
                   hasErrors := 0 <? errorCount;
                   hasWarnings := 0 <? warningCount;
                   isComplete := true;
                   lastUpdate := now |} in
      ({| lastCompleteState := st; currentOutput := [];
          lineBuffer := lineBuffer d |}, [CycleFinalized st])
  | _ => (d, [])
  end.

(** [for (const line of lines) this.handleLine(line)] *)
Fixpoint handleLines (now : N) (d : t) (lines : list wtext)
    : t * list Transition :=
  match lines with
  | [] => (d, [])
  | line :: rest =>
      let (d1, w1) := handleLine now d line in
      let (d2, w2) := handleLines now d1 rest in
      (d2, w1 ++ w2)
  end.

(** The first statement of [handleOutput]. *)
Definition noteStarted (now : N) (d : t) (data : wtext) : t * list Transition :=
  if includes data startedMarker then
    let st := {| output := output (lastCompleteState d);
                 hasErrors := hasErrors (lastCompleteState d);
                 hasWarnings := hasWarnings (lastCompleteState d);
                 isComplete := false;
                 lastUpdate := now |} in
    ({| lastCompleteState := st; currentOutput := currentOutput d;
        lineBuffer := lineBuffer d |}, [CycleStarted st])
  else (d, []).

(** [handleOutput(data)] *)
Definition handleOutput (now : N) (d : t) (data : wtext) : t * list Transition :=
  let (d0, w0) := noteStarted now d data in
  let lines := split LF (lineBuffer d0 ++ data) in
  let (tail, lines) := Js.pop lines in
  let d1 := {| lastCompleteState := lastCompleteState d0;
               currentOutput := currentOutput d0;
               lineBuffer := default [] tail |} in
  let (d2, w2) := handleLines now d1 lines in
  (d2, w0 ++ w2).

(** The ['data'] listeners that [startSvelteCheck] puts on the output of
    the checker: [this.handleOutput(data.toString())]. *)
Definition onData (now : N) (d : t) (data : bytes) : t * list Transition :=
  handleOutput now d (toString data).

(** The chunks of a stream, each with the clock reading of its arrival,
    handed to the listener in order. *)
Fixpoint feed (d : t) (chunks : list (N * bytes)) : t * list Transition :=
  match chunks with
  | [] => (d, [])
  | (now, data) :: rest =>
      let (d1, w1) := onData now d data in
      let (d2, w2) := feed d1 rest in
      (d2, w1 ++ w2)
  end.

(** The snapshots committed by a finalize, oldest first. *)
Fixpoint finalized (ws : list Transition) : list DaemonState :=
  match ws with
  | [] => []
  | CycleFinalized s :: ws' => s :: finalized ws'
  | CycleStarted _ :: ws' => finalized ws'
  end.

(** What a reader sees of a snapshot besides its time stamp. *)
Definition view (s : DaemonState) : wtext * bool * bool * bool :=
  (output s, hasErrors s, hasWarnings s, isComplete s).

(** The finalized snapshots of a run as a reader sees them. *)
Definition views (ws : list Transition) : list (wtext * bool * bool * bool) :=
  map view (finalized ws).

(** The complete lines of a text and the unterminated tail after them. *)
Fixpoint cut (s : wtext) : list wtext * wtext :=
  match s with
  | [] => ([], [])
  | c :: s' =>
      let (ls, r) := cut s' in
      if c =? LF then ([] :: ls, r)
      else match ls with
           | [] => ([], c :: r)
           | l :: ls' => ((c :: l) :: ls', r)
           end
  end.

(** Two parsers agree on the accumulation state. *)
Definition sim (d d' : t) : Prop :=
  currentOutput d = currentOutput d' /\ lineBuffer d = lineBuffer d'.

(** The stream is UTF-8 from end to end: decoding it puts no U+FFFD. *)
Definition wellFormed (stream : bytes) : Prop :=
  REPLACEMENT ∉ toString stream.

(** C1 as it is worded: however the bytes of a well-formed stream are cut
    into chunks, the finalized snapshots are those of the stream in one
    chunk. *)
Definition chunking_never_matters : Prop :=
  forall (stream : bytes) (chunks : list (N * bytes)) (now : N),
    wellFormed stream ->
    concat (map snd chunks) = stream ->
    views (snd (feed (create 0) chunks)) =
    views (snd (onData now (create 0) stream)).

End Wide.

(** ** The two parsers side by side

    A string of [Daemon], whose code units are below 256, is a string of
    [Wide]; so are a snapshot, the fields of the parser and its writes. *)

Module Latin1.
Import Utf8.

Definition ofState (s : Daemon.DaemonState) : Wide.DaemonState :=
  {| Wide.output := Wide.ofText (Daemon.output s);
     Wide.hasErrors := Daemon.hasErrors s;
     Wide.hasWarnings := Daemon.hasWarnings s;
     Wide.isComplete := Daemon.isComplete s;
     Wide.lastUpdate := Daemon.lastUpdate s |}.

Definition ofParser (d : Daemon.t) : Wide.t :=
  {| Wide.lastCompleteState := ofState (Daemon.lastCompleteState d);
     Wide.currentOutput := Wide.ofText (Daemon.currentOutput d);
     Wide.lineBuffer := Wide.ofText (Daemon.lineBuffer d) |}.

Definition ofTransition (w : Daemon.Transition) : Wide.Transition :=
  match w with
  | Daemon.CycleStarted s => Wide.CycleStarted (ofState s)
  | Daemon.CycleFinalized s => Wide.CycleFinalized (ofState s)
  end.

Definition ofResult (x : Re.result) : Wide.result :=
  match x with
  | Some (s, caps) => Some (Wide.ofText s, map Wide.ofText caps)
  | None => None
  end.

(** An expression on the code units below 256 and the same expression on
    all code units. *)
Inductive same : Re.re -> Wide.re -> Prop :=
| same_Lit l : same (Re.Lit l) (Wide.Lit (Wide.ofText l))
| same_Rep p p' min :
    (forall c, p' (N.of_nat (Js.code c)) = p c) ->
    same (Re.Rep p min) (Wide.Rep p' min)
| same_Opt r r' : same r r' -> same (Re.Opt r) (Wide.Opt r')
| same_Seq r1 r1' r2 r2' :
    same r1 r1' -> same r2 r2' -> same (Re.Seq r1 r2) (Wide.Seq r1' r2')
| same_Group r r' : same r r' -> same (Re.Group r) (Wide.Group r').

End Latin1.

(** ** The model on small inputs *)

Module Examples.
Import Js Re Daemon Spec.

Example split_unterminated :
  split LF (line "a" ++ lit "b") = [lit "a"; lit "b"].
Proof. reflexivity. Qed.

Example split_terminated :
  split LF (line "a" ++ line "b") = [lit "a"; lit "b"; []].
Proof. reflexivity. Qed.

Example split_empty : split LF [] = [[]].
Proof. reflexivity. Qed.

Example pop_tail :
  pop (split LF (line "a" ++ lit "b")) = (Some (lit "b"), [lit "a"]).
Proof. reflexivity. Qed.

Example includes_marker :
  includes (line "x" ++ line "Getting Svelte diagnostics...") startedMarker = true.
Proof. reflexivity. Qed.

Example includes_half_marker :
  includes (lit "Getting Svelte diag") startedMarker = false.
Proof. reflexivity. Qed.

Example trim_both : trim (lit "  GET_STATUS " ++ [LF]) = lit "GET_STATUS".
Proof. reflexivity. Qed.

Example trimEnd_inner : trimEnd (lit " a  b " ++ [LF; LF]) = lit " a  b".
Proof. reflexivity. Qed.

Example summary_plural :
  exec summaryRe (lit "svelte-check found 12 errors and 1 warning in 3 files")
  = Some [lit "12"; lit "1"].
Proof. reflexivity. Qed.

Example summary_singular :
  exec summaryRe (lit "x svelte-check found 1 error and 20 warnings")
  = Some [lit "1"; lit "20"].
Proof. reflexivity. Qed.

Example summary_needs_blank :
  exec summaryRe (lit "svelte-check found 1 errorsand 0 warnings") = None.
Proof. reflexivity. Qed.

Example summary_leftmost :
  exec summaryRe (lit "svelte-check found 1 error and 2 warnings, svelte-check found 3 errors and 4 warnings")
  = Some [lit "1"; lit "2"].
Proof. reflexivity. Qed.

Example parseInt_leading_zeros : parseInt (lit "007") = 7%N.
Proof. reflexivity. Qed.

Example separator_too_short :
  remove_all separatorRe (repeat "="%char 35 ++ [LF]) = repeat "="%char 35 ++ [LF].
Proof. reflexivity. Qed.

Example separator_with_line_feed :
  remove_all separatorRe (line "a" ++ repeat "="%char 40 ++ [LF] ++ line "b")
  = line "a" ++ line "b".
Proof. reflexivity. Qed.

Example footer_removed :
  remove_all watchingRe (line "a" ++ line "Watching for file changes..." ++ lit "b")
  = line "a" ++ lit "b".
Proof. reflexivity. Qed.

Example stringify_snapshot :
  Json.stringify (toObject (emptyState 5)) =
  lit "{" ++ Json.quote (lit "output") ++ lit ":" ++ Json.quote [] ++
  lit "," ++ Json.quote (lit "hasErrors") ++ lit ":false," ++
  Json.quote (lit "hasWarnings") ++ lit ":false," ++
  Json.quote (lit "isComplete") ++ lit ":false," ++
  Json.quote (lit "lastUpdate") ++ lit ":5}".
Proof. reflexivity. Qed.

Example escape_controls :
  Json.quote (lit "a" ++ [LF; "009"; "001"]%char) = ["034"]%char ++ lit "a\n\t\u0001" ++ ["034"]%char.
Proof. reflexivity. Qed.

(** Two summary lines in one chunk are finalized one after the other. *)
Example two_summaries_in_one_chunk :
  map view (finalized (snd (handleOutput 1 (create 0 (lit "/w") None)
    (line "svelte-check found 2 errors and 0 warnings" ++
     line "svelte-check found 0 errors and 1 warning")))) =
  [(lit "svelte-check found 2 errors and 0 warnings", true, false, true);
   (lit "svelte-check found 0 errors and 1 warning", false, true, true)].
Proof. reflexivity. Qed.

End Examples.

(** ** Lines and chunks *)

Module SplitFacts.
Import Js Re Daemon Spec.

Lemma split_cut (s : text) :
  split LF s = fst (cut s) ++ [snd (cut s)].
Proof.
  induction s as [|c s IH]; [reflexivity|].
  simpl. rewrite IH. destruct (cut s) as [ls r]. simpl.
  destruct (eqc c LF); [reflexivity|].
  destruct ls; reflexivity.
Qed.

Lemma pop_snoc {A} (l : list A) (x : A) : pop (l ++ [x]) = (Some x, l).
Proof.
  unfold pop. rewrite last_snoc. f_equal. apply removelast_last.
Qed.

Lemma pop_split (s : text) :
  pop (split LF s) = (Some (snd (cut s)), fst (cut s)).
Proof. rewrite split_cut. apply pop_snoc. Qed.

Lemma cut_app (a b : text) :
  cut (a ++ b) =
  (fst (cut a) ++ fst (cut (snd (cut a) ++ b)), snd (cut (snd (cut a) ++ b))).
Proof.
  induction a as [|c a IH]; simpl.
  - destruct (cut b); reflexivity.
  - rewrite IH. destruct (cut a) as [l1 r1]. simpl.
    destruct (eqc c LF) eqn:E; [reflexivity|].
    destruct l1 as [|l l1]; simpl; [|reflexivity].
    rewrite E. destruct (cut (r1 ++ b)) as [l2 r2]. simpl.
    destruct l2; reflexivity.
Qed.

Lemma eqc_true (a b : ascii) : eqc a b = true <-> a = b.
Proof. apply Ascii.eqb_eq. Qed.

Lemma eqc_refl (a : ascii) : eqc a a = true.
Proof. apply Ascii.eqb_refl. Qed.

(** The tail holds no line feed, and neither does a line. *)
Lemma cut_tail_no_LF (s : text) : LF ∉ snd (cut s).
Proof.
  induction s as [|c s IH]; simpl.
  - apply not_elem_of_nil.
  - destruct (cut s) as [ls r]. simpl in *.
    destruct (eqc c LF) eqn:E; [exact IH|].
    destruct ls; simpl; [|exact IH].
    rewrite elem_of_cons. intros [Hc|H]; [|auto].
    rewrite <- Hc, eqc_refl in E. discriminate.
Qed.

Lemma cut_no_LF (s : text) : LF ∉ s -> cut s = ([], s).
Proof.
  induction s as [|c s IH]; [reflexivity|].
  rewrite not_elem_of_cons. intros [Hc Hs]. simpl. rewrite (IH Hs).
  destruct (eqc c LF) eqn:E; [|reflexivity].
  apply eqc_true in E. congruence.
Qed.

Lemma cut_line (l rest : text) :
  LF ∉ l -> cut (l ++ LF :: rest) = (l :: fst (cut rest), snd (cut rest)).
Proof.
  induction l as [|c l IH]; simpl.
  - intros _. destruct (cut rest). reflexivity.
  - rewrite not_elem_of_cons. intros [Hc Hl]. rewrite (IH Hl).
    destruct (eqc c LF) eqn:E; [|reflexivity].
    apply eqc_true in E. congruence.
Qed.

Lemma cut_unlines (ls : list text) (r : text) :
  Forall (fun l => LF ∉ l) ls -> LF ∉ r -> cut (unlines ls ++ r) = (ls, r).
Proof.
  induction 1 as [|l ls Hl _ IH]; intros Hr; simpl.
  - apply cut_no_LF, Hr.
  - change (cut (((l ++ [LF]) ++ unlines ls) ++ r) = (l :: ls, r)).
    rewrite <- !app_assoc. change ([LF] ++ unlines ls ++ r) with (LF :: unlines ls ++ r).
    rewrite (cut_line _ _ Hl), (IH Hr). reflexivity.
Qed.

End SplitFacts.

(** ** Decimal numerals *)

Module DecimalFacts.
Import Js Spec.

Lemma parseInt_uint (d : Decimal.uint) (acc : N) :
  fold_left (fun a c => (10 * a + digit_val c)%N)
    (lit (NilEmpty.string_of_uint d)) acc = uint_val d acc.
Proof.
  revert acc. induction d; intros acc; simpl; [reflexivity|..]; apply IHd.
Qed.

Lemma uint_val_pos (d : Decimal.uint) (p : positive) :
  uint_val d (Npos p) = Npos (Pos.of_uint_acc d p).
Proof.
  revert p. induction d; intros p; simpl; [reflexivity|..];
    match goal with
    | |- uint_val _ ?a = N.pos (Pos.of_uint_acc _ ?b) =>
        replace a with (N.pos b) by lia; apply IHd
    end.
Qed.

Lemma uint_val_0 (d : Decimal.uint) : uint_val d 0 = N.of_uint d.
Proof.
  unfold N.of_uint. induction d; simpl; [reflexivity|exact IHd|..];
    apply (uint_val_pos d).
Qed.

Lemma digits_uint (d : Decimal.uint) : digits (lit (NilEmpty.string_of_uint d)).
Proof. induction d; simpl; constructor; auto. Qed.

Lemma string_of_uint_nonnil (d : Decimal.uint) :
  d <> Decimal.Nil -> NilZero.string_of_uint d = NilEmpty.string_of_uint d.
Proof. destruct d; [congruence|reflexivity..]. Qed.

Lemma to_uint_nonnil (n : N) : N.to_uint n <> Decimal.Nil.
Proof.
  destruct n as [|p]; [discriminate|]. apply DecimalPos.Unsigned.to_uint_nonnil.
Qed.

(** [parseInt] reads back what [showN] prints. *)
Lemma parseInt_showN (n : N) : parseInt (showN n) = n.
Proof.
  unfold parseInt, showN.
  rewrite (string_of_uint_nonnil _ (to_uint_nonnil n)), parseInt_uint, uint_val_0.
  apply DecimalN.Unsigned.of_to.
Qed.

Lemma digits_showN (n : N) : digits (showN n).
Proof.
  unfold showN. rewrite (string_of_uint_nonnil _ (to_uint_nonnil n)).
  apply digits_uint.
Qed.

Lemma showN_nonempty (n : N) : showN n <> [].
Proof.
  unfold showN. rewrite (string_of_uint_nonnil _ (to_uint_nonnil n)).
  pose proof (to_uint_nonnil n) as H.
  destruct (N.to_uint n); [congruence|discriminate..].
Qed.

End DecimalFacts.

(** ** Regular expressions: matching *)

Module ReFacts.
Import Js Re Daemon Spec SplitFacts.

Lemma lit_here_app (l s : text) : lit_here l (l ++ s) = Some s.
Proof.
  induction l as [|a l IH]; [reflexivity|]. simpl. rewrite eqc_refl. exact IH.
Qed.

Lemma matchk_Lit_app l s caps k : matchk (Lit l) (l ++ s) caps k = k s caps.
Proof. simpl. rewrite lit_here_app. reflexivity. Qed.

(** A greedy repetition followed by a pattern that matches after the whole
    run takes the whole run. *)
Lemma rep_run p min ds rest k x :
  Forall (fun c => p c = true) ds ->
  min <= length ds ->
  k rest = Some x ->
  match rest with [] => True | c :: _ => p c = false end ->
  rep p min (ds ++ rest) k = Some x.
Proof.
  intros Hds. revert min. induction Hds as [|c ds Hc _ IH]; intros min Hmin Hk Hr.
  - simpl in Hmin. assert (min = 0) as -> by lia.
    destruct rest as [|c rest]; simpl; [exact Hk|]. rewrite Hr. exact Hk.
  - simpl. rewrite Hc. rewrite IH; auto. simpl in Hmin. lia.
Qed.

Lemma matchk_Group_Rep p min ds rest caps k x :
  Forall (fun c => p c = true) ds ->
  min <= length ds ->
  k rest (caps ++ [ds]) = Some x ->
  match rest with [] => True | c :: _ => p c = false end ->
  matchk (Group (Rep p min)) (ds ++ rest) caps k = Some x.
Proof.
  intros Hds Hmin Hk Hr. simpl. apply rep_run; auto.
  replace (length (ds ++ rest) - length rest) with (length ds)
    by (rewrite length_app; lia).
  rewrite take_app_length. exact Hk.
Qed.

(** Whatever a match returns was returned by its continuation, called with
    one more capture for every group. *)
Lemma rep_inv p min s k res :
  rep p min s k = Some res -> exists s', k s' = Some res.
Proof.
  revert min. induction s as [|c s IH]; intros min; simpl.
  - destruct (min =? 0)%nat; [eauto|discriminate].
  - destruct (p c).
    + destruct (rep p (pred min) s k) eqn:E.
      * intros [= <-]. eapply IH, E.
      * destruct (min =? 0)%nat; [eauto|discriminate].
    + destruct (min =? 0)%nat; [eauto|discriminate].
Qed.

Lemma matchk_inv r : forall s caps k res,
  flat r = true ->
  matchk r s caps k = Some res ->
  exists s' new, length new = groups r /\ k s' (caps ++ new) = Some res.
Proof.
  induction r as [l|p min|r1 IH1|r1 IH1 r2 IH2|r1 IH1]; intros s caps k res F H;
    simpl in *.
  - destruct (lit_here l s) as [s'|]; [|discriminate].
    exists s', []. rewrite app_nil_r. auto.
  - apply rep_inv in H as [s' H]. exists s', []. rewrite app_nil_r. auto.
  - apply andb_true_iff in F as [G F]. apply Nat.eqb_eq in G.
    destruct (matchk r1 s caps k) eqn:E.
    + injection H as ->. apply IH1 in E; [|exact F]. rewrite G in *. exact E.
    + exists s, []. rewrite G, app_nil_r. auto.
  - apply andb_true_iff in F as [F1 F2].
    apply IH1 in H as (s1 & n1 & L1 & H); [|exact F1].
    apply IH2 in H as (s2 & n2 & L2 & H); [|exact F2].
    exists s2, (n1 ++ n2). rewrite length_app, app_assoc. auto.
  - apply IH1 in H as (s1 & n1 & L1 & H); [|exact F].
    eexists s1, (n1 ++ [_]). rewrite length_app, app_assoc. simpl.
    split; [lia|exact H].
Qed.

Lemma match_here_groups r s s' caps :
  flat r = true -> match_here r s = Some (s', caps) -> length caps = groups r.
Proof.
  intros F H. apply matchk_inv in H as (s1 & new & L & H); [|exact F].
  simpl in H. congruence.
Qed.

Lemma exec_groups r s caps :
  flat r = true -> exec r s = Some caps -> length caps = groups r.
Proof.
  intros F. induction s as [|c s IH]; simpl.
  - destruct (match_here r []) as [[s' c']|] eqn:E; [|discriminate].
    intros [= <-]. eapply match_here_groups; eauto.
  - destruct (match_here r (c :: s)) as [[s' c']|] eqn:E; [|exact IH].
    intros [= <-]. eapply match_here_groups; eauto.
Qed.

(** Positions at which nothing matches are passed over. *)
Lemma exec_skip r pre s :
  (forall i, i < length pre -> match_here r (drop i (pre ++ s)) = None) ->
  exec r (pre ++ s) = exec r s.
Proof.
  induction pre as [|c pre IH]; intros H; [reflexivity|].
  pose proof (H 0 ltac:(simpl; lia)) as H0. simpl in H0.
  simpl. rewrite H0.
  apply IH. intros i Hi. apply (H (S i)). simpl. lia.
Qed.

Lemma exec_here r s s' caps :
  match_here r s = Some (s', caps) -> exec r s = Some caps.
Proof. intros H. destruct s; simpl; rewrite H; reflexivity. Qed.

(** *** The summary line *)

Lemma summaryRe_flat : flat summaryRe = true.
Proof. reflexivity. Qed.

(** A match of the summary expression has its two captures. *)
Lemma exec_summary_captures l caps :
  exec summaryRe l = Some caps -> exists e w, caps = [e; w].
Proof.
  intros H. apply exec_groups in H; [|exact summaryRe_flat].
  destruct caps as [|e [|w [|? ?]]]; try discriminate. eauto.
Qed.

Lemma digit_not_space c : is_digit c = true -> c <> " "%char.
Proof. intros H ->. discriminate. Qed.

Lemma matchk_Seq r1 r2 s caps k :
  matchk (r1 +> r2) s caps k =
  matchk r1 s caps (fun s' caps' => matchk r2 s' caps' k).
Proof. reflexivity. Qed.

Lemma matchk_Opt r s caps k :
  matchk (Opt r) s caps k =
  match matchk r s caps k with
  | Some x => Some x
  | None => k s caps
  end.
Proof. reflexivity. Qed.

Lemma matchk_Lit l s caps k :
  matchk (Lit l) s caps k =
  match lit_here l s with
  | Some s' => k s' caps
  | None => None
  end.
Proof. reflexivity. Qed.

Lemma match_here_summary e w es ws post :
  digits e -> digits w -> e <> [] -> w <> [] ->
  exists rest,
    match_here summaryRe (summaryPhrase e w es ws ++ post) = Some (rest, [e; w]).
Proof.
  intros De Dw Ne Nw. unfold match_here, summaryRe, summaryPhrase.
  assert (Le : 1 <= length e) by (destruct e; [congruence|simpl; lia]).
  assert (Lw : 1 <= length w) by (destruct w; [congruence|simpl; lia]).
  rewrite <- !app_assoc.
  set (k0 := fun (s' : text) (caps' : list text) => Some (s', caps')).
  assert (Tail : exists rest,
    matchk (Lit (lit " warning") +> Opt (Lit (lit "s")))
      (lit " warning" ++ (if ws then lit "s" else []) ++ post) [e; w] k0
    = Some (rest, [e; w])).
  { rewrite matchk_Seq, matchk_Lit_app, matchk_Opt, matchk_Lit.
    destruct (lit_here (lit "s") ((if ws then lit "s" else []) ++ post));
      unfold k0; eauto. }
  destruct Tail as [rest HT]. exists rest.
  rewrite matchk_Seq, matchk_Lit_app, matchk_Seq.
  apply matchk_Group_Rep; [exact De|exact Le| |reflexivity].
  rewrite matchk_Seq, matchk_Lit_app, matchk_Seq.
  assert (And : matchk (Lit (lit " and ") +> Group (Rep is_digit 1) +>
                        Lit (lit " warning") +> Opt (Lit (lit "s")))
                  (lit " and " ++ w ++ lit " warning" ++
                   (if ws then lit "s" else []) ++ post) ([] ++ [e]) k0
                = Some (rest, [e; w])).
  { rewrite matchk_Seq, matchk_Lit_app, matchk_Seq.
    apply matchk_Group_Rep; [exact Dw|exact Lw|exact HT|reflexivity]. }
  rewrite matchk_Opt. destruct es.
  - rewrite matchk_Lit_app, And. reflexivity.
  - rewrite matchk_Lit.
    change (lit_here (lit "s") ([] ++ lit " and " ++ ?x)) with (@None text).
    exact And.
Qed.

End ReFacts.

(** ** The output parser: chunk boundaries *)

Module ParserFacts.
Import Js Re Daemon Spec SplitFacts.

Lemma finalized_app (a b : list Transition) :
  finalized (a ++ b) = finalized a ++ finalized b.
Proof.
  induction a as [|[s|s] a IH]; simpl; [reflexivity|exact IH|].
  f_equal. exact IH.
Qed.

Lemma views_app (a b : list Transition) : views (a ++ b) = views a ++ views b.
Proof. unfold views. rewrite finalized_app. apply map_app. Qed.

Lemma started_app (a b : list Transition) :
  started (a ++ b) = started a || started b.
Proof. apply existsb_app. Qed.

(** *** One line *)

(** What [handleLine] does, by the outcome of the match. *)
Lemma handleLine_summary now d l e w :
  exec summaryRe l = Some [e; w] ->
  handleLine now d l =
  let st := {| output := cleanOutput (currentOutput d ++ l ++ [LF]);
               hasErrors := (0 <? parseInt e)%N;
               hasWarnings := (0 <? parseInt w)%N;
               isComplete := true;
               lastUpdate := now |} in
  (set_currentOutput []
     (set_lastCompleteState st
        (set_currentOutput (currentOutput d ++ l ++ [LF]) d)),
   [CycleFinalized st]).
Proof. intros H. unfold handleLine. rewrite H. reflexivity. Qed.

Lemma handleLine_other now d l :
  exec summaryRe l = None ->
  handleLine now d l =
  (set_currentOutput (currentOutput d ++ l ++ [LF]) d, []).
Proof. intros H. unfold handleLine. rewrite H. reflexivity. Qed.

Lemma handleLine_lineBuffer now d l :
  lineBuffer (fst (handleLine now d l)) = lineBuffer d.
Proof.
  unfold handleLine.
  destruct (exec summaryRe l) as [[|e [|w [|? ?]]]|]; reflexivity.
Qed.

Lemma handleLine_sim now now' d d' l :
  currentOutput d = currentOutput d' ->
  currentOutput (fst (handleLine now d l)) =
  currentOutput (fst (handleLine now' d' l)) /\
  views (snd (handleLine now d l)) = views (snd (handleLine now' d' l)).
Proof.
  intros Hc. unfold handleLine.
  destruct (exec summaryRe l) as [[|e [|w [|? ?]]]|]; simpl;
    rewrite ?Hc; auto.
Qed.

(** *** A run of lines *)

Lemma handleLines_app now d l1 l2 :
  handleLines now d (l1 ++ l2) =
  (fst (handleLines now (fst (handleLines now d l1)) l2),
   snd (handleLines now d l1) ++
   snd (handleLines now (fst (handleLines now d l1)) l2)).
Proof.
  revert d. induction l1 as [|l l1 IH]; intros d; simpl.
  - destruct (handleLines now d l2); reflexivity.
  - destruct (handleLine now d l) as [d1 w1]. rewrite IH.
    destruct (handleLines now d1 l1) as [d2 w2]. simpl.
    destruct (handleLines now d2 l2) as [d3 w3]. simpl.
    rewrite app_assoc. reflexivity.
Qed.

Lemma handleLines_lineBuffer now d ls :
  lineBuffer (fst (handleLines now d ls)) = lineBuffer d.
Proof.
  revert d. induction ls as [|l ls IH]; intros d; simpl; [reflexivity|].
  pose proof (handleLine_lineBuffer now d l) as H.
  destruct (handleLine now d l) as [d1 w1]. specialize (IH d1).
  destruct (handleLines now d1 ls) as [d2 w2]. simpl in *. congruence.
Qed.

Lemma handleLines_sim now now' d d' ls :
  currentOutput d = currentOutput d' ->
  currentOutput (fst (handleLines now d ls)) =
  currentOutput (fst (handleLines now' d' ls)) /\
  views (snd (handleLines now d ls)) = views (snd (handleLines now' d' ls)).
Proof.
  revert d d'. induction ls as [|l ls IH]; intros d d' H; simpl; [auto|].
  destruct (handleLine_sim now now' d d' l H) as [H1 V1].
  destruct (handleLine now d l) as [d1 w1].
  destruct (handleLine now' d' l) as [d1' w1'].
  destruct (IH d1 d1' H1) as [H2 V2].
  destruct (handleLines now d1 ls) as [d2 w2].
  destruct (handleLines now' d1' ls) as [d2' w2']. simpl in *.
  split; [exact H2|]. rewrite !views_app. congruence.
Qed.

(** *** One chunk *)

Lemma noteStarted_buffers now d data :
  currentOutput (fst (noteStarted now d data)) = currentOutput d /\
  lineBuffer (fst (noteStarted now d data)) = lineBuffer d /\
  views (snd (noteStarted now d data)) = [].
Proof.
  unfold noteStarted. destruct (includes data startedMarker); auto.
Qed.

(** [handleOutput] in terms of the lines and the tail of the buffer. *)
Lemma handleOutput_cut now d data :
  handleOutput now d data =
  let d0 := fst (noteStarted now d data) in
  let c := cut (lineBuffer d0 ++ data) in
  let r := handleLines now (set_lineBuffer (snd c) d0) (fst c) in
  (fst r, snd (noteStarted now d data) ++ snd r).
Proof.
  unfold handleOutput. destruct (noteStarted now d data) as [d0 w0].
  rewrite pop_split. simpl.
  destruct (handleLines _ _ _). reflexivity.
Qed.

(** The accumulation state after a chunk, and the finalized snapshots of the
    chunk, depend on the accumulation state before it and on nothing else. *)
Lemma handleOutput_lineBuffer now d data :
  lineBuffer (fst (handleOutput now d data)) = snd (cut (lineBuffer d ++ data)).
Proof.
  rewrite handleOutput_cut. simpl. rewrite handleLines_lineBuffer. simpl.
  destruct (noteStarted_buffers now d data) as (_ & -> & _). reflexivity.
Qed.

Lemma handleOutput_proj now now' d d0 data :
  currentOutput d0 = currentOutput d ->
  let ls := fst (cut (lineBuffer d ++ data)) in
  currentOutput (fst (handleOutput now d data)) =
  currentOutput (fst (handleLines now' d0 ls)) /\
  views (snd (handleOutput now d data)) = views (snd (handleLines now' d0 ls)).
Proof.
  intros H. rewrite handleOutput_cut. simpl.
  destruct (noteStarted_buffers now d data) as (C1 & B1 & V1).
  rewrite views_app, V1, B1. simpl.
  apply handleLines_sim. simpl. congruence.
Qed.

Lemma handleOutput_sim now now' d d' data :
  sim d d' ->
  sim (fst (handleOutput now d data)) (fst (handleOutput now' d' data)) /\
  views (snd (handleOutput now d data)) = views (snd (handleOutput now' d' data)).
Proof.
  intros [Hc Hb]. unfold sim. rewrite !handleOutput_lineBuffer, Hb.
  destruct (handleOutput_proj now now d d data eq_refl) as [C1 V1].
  destruct (handleOutput_proj now' now d' d data Hc) as [C2 V2].
  rewrite Hb in C1, V1. simpl in *. rewrite C1, C2, V1, V2. auto.
Qed.

(** Two chunks in a row do what their concatenation does. *)
Lemma handleOutput_app n1 n2 n d c1 c2 :
  let r1 := handleOutput n1 d c1 in
  let r2 := handleOutput n2 (fst r1) c2 in
  let r := handleOutput n d (c1 ++ c2) in
  sim (fst r2) (fst r) /\ views (snd r1 ++ snd r2) = views (snd r).
Proof.
  simpl. unfold sim.
  destruct (handleOutput_proj n1 n d d c1 eq_refl) as [C1 V1].
  destruct (handleOutput_proj n n d d (c1 ++ c2) eq_refl) as [C V].
  rewrite app_assoc, cut_app in C, V. simpl in C, V.
  rewrite handleLines_app in C, V. simpl in C, V.
  assert (B : lineBuffer (fst (handleOutput n2 (fst (handleOutput n1 d c1)) c2)) =
              lineBuffer (fst (handleOutput n d (c1 ++ c2)))).
  { rewrite !handleOutput_lineBuffer, (app_assoc (lineBuffer d)).
    rewrite (cut_app (lineBuffer d ++ c1)). reflexivity. }
  set (l1 := fst (cut (lineBuffer d ++ c1))) in *.
  set (t1 := snd (cut (lineBuffer d ++ c1))) in *.
  destruct (handleOutput_proj n2 n (fst (handleOutput n1 d c1))
              (fst (handleLines n d l1)) c2 (eq_sym C1)) as [C2 V2].
  rewrite handleOutput_lineBuffer in C2, V2. fold t1 in C2, V2. simpl in C2, V2.
  rewrite views_app, C, V, views_app, C2, V2, V1. auto.
Qed.

(** *** A stream of chunks *)

Lemma feed_lineBuffer d chunks :
  LF ∉ lineBuffer d -> LF ∉ lineBuffer (fst (feed d chunks)).
Proof.
  revert d. induction chunks as [|[n c] rest IH]; intros d H; simpl; [exact H|].
  pose proof (handleOutput_lineBuffer n d c) as B.
  destruct (handleOutput n d c) as [d1 w1]. simpl in B.
  specialize (IH d1). destruct (feed d1 rest) as [d2 w2]. simpl in *.
  apply IH. rewrite B. apply cut_tail_no_LF.
Qed.

Lemma includes_nil_marker : includes [] startedMarker = false.
Proof. reflexivity. Qed.

Lemma handleOutput_nil now d :
  LF ∉ lineBuffer d -> handleOutput now d [] = (d, []).
Proof.
  intros H. rewrite handleOutput_cut. unfold noteStarted.
  rewrite includes_nil_marker. simpl. rewrite app_nil_r, (cut_no_LF _ H).
  simpl. destruct d; reflexivity.
Qed.

Lemma feed_joined d d' chunks now :
  LF ∉ lineBuffer d -> sim d d' ->
  let r := feed d chunks in
  let r' := handleOutput now d' (concat (map snd chunks)) in
  sim (fst r) (fst r') /\ views (snd r) = views (snd r').
Proof.
  revert d d'. induction chunks as [|[n c] rest IH]; intros d d' HLF Hsim; simpl.
  - destruct Hsim as [Hc Hb]. rewrite handleOutput_nil by congruence.
    simpl. split; [split; assumption|reflexivity].
  - pose proof (handleOutput_lineBuffer n d c) as B.
    destruct (handleOutput_app n now now d c (concat (map snd rest))) as [S1 V1].
    destruct (handleOutput_sim now now d d' (c ++ concat (map snd rest)) Hsim)
      as [S2 V2].
    destruct (handleOutput n d c) as [d1 w1]. simpl in *.
    assert (H1 : LF ∉ lineBuffer d1) by (rewrite B; apply cut_tail_no_LF).
    destruct (IH d1 d1 H1 (conj eq_refl eq_refl)) as [S3 V3].
    destruct (feed d1 rest) as [d2 w2]. simpl in *.
    unfold sim in *. rewrite views_app in *.
    split; [split; intuition congruence|].
    rewrite V3. congruence.
Qed.

(** *** The completeness flag *)

Lemma handleLine_isComplete now d l :
  isComplete (lastCompleteState (fst (handleLine now d l))) =
  match finalized (snd (handleLine now d l)) with
  | [] => isComplete (lastCompleteState d)
  | _ :: _ => true
  end /\
  started (snd (handleLine now d l)) = false.
Proof.
  unfold handleLine.
  destruct (exec summaryRe l) as [[|e [|w [|? ?]]]|]; simpl; auto.
Qed.

Lemma handleLines_isComplete now d ls :
  isComplete (lastCompleteState (fst (handleLines now d ls))) =
  match finalized (snd (handleLines now d ls)) with
  | [] => isComplete (lastCompleteState d)
  | _ :: _ => true
  end /\
  started (snd (handleLines now d ls)) = false.
Proof.
  revert d. induction ls as [|l ls IH]; intros d; simpl; [auto|].
  destruct (handleLine_isComplete now d l) as [H1 S1].
  destruct (handleLine now d l) as [d1 w1].
  destruct (IH d1) as [H2 S2].
  destruct (handleLines now d1 ls) as [d2 w2]. simpl in *.
  rewrite finalized_app, started_app, S1, S2, H2.
  split; [|reflexivity].
  destruct (finalized w2); [|destruct (finalized w1); reflexivity].
  rewrite app_nil_r. exact H1.
Qed.

End ParserFacts.

(** ** The output parser: the claims *)

Module ParserClaims.
Import Js Re Daemon Spec SplitFacts ParserFacts.

(** On strings: however a string is cut into pieces, handing the pieces to
    [handleOutput] in order commits the same finalized snapshots, in the same
    order and with the same [output], [hasErrors], [hasWarnings] and
    [isComplete], as handing it the string in one piece.  The parser may be
    in any state whose line buffer holds no line feed, which is every state
    it reaches.  [ByteClaims] has the chunks of bytes. *)
Theorem chunk_boundary_independence (d : t) (chunks : list (N * text)) (now : N) :
  LF ∉ lineBuffer d ->
  map view (finalized (snd (feed d chunks))) =
  map view (finalized (snd (handleOutput now d (concat (map snd chunks))))).
Proof.
  intros H.
  exact (proj2 (feed_joined d d chunks now H (conj eq_refl eq_refl))).
Qed.

Lemma chunk_boundary_independence_witness :
  let d := create 0 (lit "/w") None in
  let chunks := [(1%N, lit "svelte-check found 3 err");
                 (2%N, line "ors and 1 warning" ++ lit "Getting Svelte ");
                 (3%N, line "diagnostics..." ++ line "svelte-check found 0 errors and 0 warnings")] in
  (LF ∉ lineBuffer d) /\
  length (finalized (snd (feed d chunks))) = 2 /\
  map view (finalized (snd (feed d chunks))) =
  map view (finalized (snd (handleOutput 9 d (concat (map snd chunks))))).
Proof.
  split; [apply not_elem_of_nil|].
  split; [vm_compute; reflexivity|].
  apply (chunk_boundary_independence (create 0 (lit "/w") None)).
  apply not_elem_of_nil.
Defined.

(** C2, at the input where the code departs from it: a summary line and,
    after it, the cycle-started marker arrive in one chunk.  The marker is
    seen first, in the raw chunk, and the summary line resets the flag. *)
Theorem marker_after_summary_in_one_chunk :
  let d := create 0 (lit "/w") None in
  let data := line "svelte-check found 0 errors and 0 warnings" ++
              line "Getting Svelte diagnostics..." in
  let r := handleOutput 1 d data in
  cut data = ([lit "svelte-check found 0 errors and 0 warnings";
               lit "Getting Svelte diagnostics..."], []) /\
  (exists s1 s2, snd r = [CycleStarted s1; CycleFinalized s2]) /\
  isComplete (lastCompleteState (fst r)) = true.
Proof.
  split; [vm_compute; reflexivity|].
  split; [|vm_compute; reflexivity].
  eexists. eexists. vm_compute. reflexivity.
Qed.

(** C10.  A chunk makes the parser write [isComplete = false] exactly when
    the chunk itself contains the marker; the flag after the chunk is [true]
    when a summary line of the chunk was finalized, else [false] when the
    chunk contained the marker, else what it was.  When the marker is split
    over two chunks, neither of which contains it, no such write happens and
    a completed snapshot stays completed, although the lines handed to
    [handleLine] are those of the joined text. *)
Theorem marker_is_looked_for_per_chunk (now : N) (d : t) (data : text) :
  started (snd (handleOutput now d data)) = includes data startedMarker /\
  isComplete (lastCompleteState (fst (handleOutput now d data))) =
    match finalized (snd (handleOutput now d data)) with
    | _ :: _ => true
    | [] => if includes data startedMarker then false
            else isComplete (lastCompleteState d)
    end /\
  (forall now' data',
      includes data startedMarker = false ->
      includes data' startedMarker = false ->
      let r := feed d [(now, data); (now', data')] in
      started (snd r) = false /\
      (isComplete (lastCompleteState d) = true ->
       isComplete (lastCompleteState (fst r)) = true) /\
      sim (fst r) (fst (handleOutput now d (data ++ data')))).
Proof.
  assert (One : forall now d data,
    started (snd (handleOutput now d data)) = includes data startedMarker /\
    isComplete (lastCompleteState (fst (handleOutput now d data))) =
      match finalized (snd (handleOutput now d data)) with
      | _ :: _ => true
      | [] => if includes data startedMarker then false
              else isComplete (lastCompleteState d)
      end).
  { clear. intros now d data. rewrite handleOutput_cut. simpl.
    match goal with
    | |- context [handleLines now ?a ?l] =>
        destruct (handleLines_isComplete now a l) as [H S]
    end.
    rewrite started_app, finalized_app, S, H, orb_false_r.
    unfold noteStarted.
    destruct (includes data startedMarker); simpl; split; reflexivity. }
  destruct (One now d data) as [S1 C1].
  split; [exact S1|]. split; [exact C1|].
  intros now' data' I1 I2. simpl.
  destruct (handleOutput_app now now' now d data data') as [Sim _].
  destruct (handleOutput now d data) as [d1 w1] eqn:E1. simpl in *.
  destruct (One now' d1 data') as [S2 C2].
  destruct (handleOutput now' d1 data') as [d2 w2] eqn:E2. simpl in *.
  rewrite app_nil_r, started_app, S1, S2, I1, I2.
  split; [reflexivity|]. split; [|exact Sim].
  intros Hc. rewrite C2, I2. destruct (finalized w2); [|reflexivity].
  rewrite C1, I1. destruct (finalized w1); [exact Hc|reflexivity].
Qed.

Lemma marker_is_looked_for_per_chunk_witness :
  let d := set_lastCompleteState
             {| output := lit "ok"; hasErrors := false; hasWarnings := false;
                isComplete := true; lastUpdate := 0 |}
             (create 0 (lit "/w") None) in
  let c1 := lit "Getting Svelte diag" in
  let c2 := line "nostics..." in
  includes (c1 ++ c2) startedMarker = true /\
  isComplete (lastCompleteState (fst (handleOutput 1 d (c1 ++ c2)))) = false /\
  started (snd (feed d [(1%N, c1); (2%N, c2)])) = false /\
  isComplete (lastCompleteState (fst (feed d [(1%N, c1); (2%N, c2)]))) = true /\
  currentOutput (fst (feed d [(1%N, c1); (2%N, c2)])) =
    line "Getting Svelte diagnostics...".
Proof.
  split; [vm_compute; reflexivity|].
  split; [vm_compute; reflexivity|].
  pose proof (marker_is_looked_for_per_chunk 1
    (set_lastCompleteState
       {| output := lit "ok"; hasErrors := false; hasWarnings := false;
          isComplete := true; lastUpdate := 0 |}
       (create 0 (lit "/w") None))
    (lit "Getting Svelte diag")) as (_ & _ & H).
  destruct (H 2%N (line "nostics...") eq_refl eq_refl) as (S & C & _).
  split; [exact S|]. split; [exact (C eq_refl)|].
  vm_compute. reflexivity.
Defined.

End ParserClaims.

(** ** The output parser: further properties *)

Module ParserMore.
Import Js Re Daemon Spec SplitFacts ParserFacts.

Lemma handleLine_flags now d l :
  map flags (finalized (snd (handleLine now d l))) = lineFlags l /\
  Forall (fun s => isComplete s = true) (finalized (snd (handleLine now d l))).
Proof.
  unfold handleLine, lineFlags.
  destruct (exec summaryRe l) as [[|e [|w [|? ?]]]|]; simpl; auto.
Qed.

Lemma handleLines_flags now d ls :
  map flags (finalized (snd (handleLines now d ls))) = flat_map lineFlags ls /\
  Forall (fun s => isComplete s = true) (finalized (snd (handleLines now d ls))).
Proof.
  revert d. induction ls as [|l ls IH]; intros d; simpl; [auto|].
  destruct (handleLine_flags now d l) as [F1 C1].
  destruct (handleLine now d l) as [d1 w1].
  destruct (IH d1) as [F2 C2].
  destruct (handleLines now d1 ls) as [d2 w2]. simpl in *.
  rewrite finalized_app, map_app, F1, F2.
  split; [reflexivity|]. apply Forall_app. auto.
Qed.

(** X1.  Every complete line of a chunk that holds a summary is finalized on
    its own, in the order of the lines, each time with [isComplete = true]; the
    unterminated tail of the chunk is not looked at. *)
Theorem every_summary_line_finalizes (now : N) (d : t) (data : text) :
  let ws := snd (handleOutput now d data) in
  map flags (finalized ws) =
    flat_map lineFlags (fst (cut (lineBuffer d ++ data))) /\
  Forall (fun s => isComplete s = true) (finalized ws).
Proof.
  cbv zeta. rewrite handleOutput_cut. simpl.
  destruct (noteStarted_buffers now d data) as (_ & B & V).
  rewrite finalized_app. unfold views in V.
  apply map_eq_nil in V. rewrite V, B. simpl.
  apply handleLines_flags.
Qed.

Lemma handleLine_quiet now d l :
  finalized (snd (handleLine now d l)) = [] ->
  lastCompleteState (fst (handleLine now d l)) = lastCompleteState d.
Proof.
  unfold handleLine.
  destruct (exec summaryRe l) as [[|e [|w [|? ?]]]|]; simpl;
    try reflexivity; discriminate.
Qed.

Lemma handleLines_quiet now d ls :
  finalized (snd (handleLines now d ls)) = [] ->
  lastCompleteState (fst (handleLines now d ls)) = lastCompleteState d.
Proof.
  revert d. induction ls as [|l ls IH]; intros d; simpl; [reflexivity|].
  pose proof (handleLine_quiet now d l) as H1.
  destruct (handleLine now d l) as [d1 w1].
  specialize (IH d1). destruct (handleLines now d1 ls) as [d2 w2]. simpl in *.
  rewrite finalized_app. intros H. apply app_eq_nil in H as [E1 E2].
  rewrite (IH E2). apply H1, E1.
Qed.

Lemma handleOutput_quiet now d data :
  finalized (snd (handleOutput now d data)) = [] ->
  lastCompleteState (fst (handleOutput now d data)) =
  lastCompleteState (fst (noteStarted now d data)).
Proof.
  rewrite handleOutput_cut. simpl. rewrite finalized_app.
  intros H. apply app_eq_nil in H as [_ H].
  rewrite (handleLines_quiet _ _ _ H). reflexivity.
Qed.

(** X2.  A chunk that contains the marker and completes no summary line leaves
    the snapshot with [isComplete = false], the time of the chunk, and the
    [output] and flags it had. *)
Theorem marker_without_summary (now : N) (d : t) (data : text) :
  includes data startedMarker = true ->
  finalized (snd (handleOutput now d data)) = [] ->
  lastCompleteState (fst (handleOutput now d data)) =
  {| output := output (lastCompleteState d);
     hasErrors := hasErrors (lastCompleteState d);
     hasWarnings := hasWarnings (lastCompleteState d);
     isComplete := false;
     lastUpdate := now |}.
Proof.
  intros I Q. rewrite (handleOutput_quiet _ _ _ Q).
  unfold noteStarted. rewrite I. reflexivity.
Qed.

Lemma marker_without_summary_witness :
  let st := {| output := lit "old report"; hasErrors := true;
               hasWarnings := false; isComplete := true; lastUpdate := 3 |} in
  let d := set_lastCompleteState st (create 0 (lit "/w") None) in
  let data := line "Getting Svelte diagnostics..." ++ lit "/w/src/a.sv" in
  lastCompleteState (fst (handleOutput 8 d data)) =
  {| output := lit "old report"; hasErrors := true; hasWarnings := false;
     isComplete := false; lastUpdate := 8 |}.
Proof.
  cbv zeta.
  apply (marker_without_summary 8
           (set_lastCompleteState
              {| output := lit "old report"; hasErrors := true;
                 hasWarnings := false; isComplete := true; lastUpdate := 3 |}
              (create 0 (lit "/w") None))
           (line "Getting Svelte diagnostics..." ++ lit "/w/src/a.sv"));
    vm_compute; reflexivity.
Defined.

Lemma feed_quiet d chunks :
  finalized (snd (feed d chunks)) = [] ->
  output (lastCompleteState (fst (feed d chunks))) = output (lastCompleteState d) /\
  flags (lastCompleteState (fst (feed d chunks))) = flags (lastCompleteState d) /\
  (isComplete (lastCompleteState d) = false ->
   isComplete (lastCompleteState (fst (feed d chunks))) = false).
Proof.
  revert d. induction chunks as [|[n c] rest IH]; intros d; simpl; [auto|].
  pose proof (handleOutput_quiet n d c) as H1.
  destruct (handleOutput n d c) as [d1 w1].
  specialize (IH d1). destruct (feed d1 rest) as [d2 w2]. simpl in *.
  rewrite finalized_app. intros H. apply app_eq_nil in H as [E1 E2].
  destruct (IH E2) as (O & F & C). specialize (H1 E1).
  rewrite O, F. rewrite H1 in *. clear H1 O F IH.
  unfold noteStarted, flags in *.
  destruct (includes c startedMarker); simpl in *; auto.
Qed.

(** X3.  After a restart, and until a summary line is finalized, the snapshot
    stays the empty in-progress one: no text of the cycle under way and
    nothing of the cycle before reaches [output]. *)
Theorem restart_hides_unfinished_cycle (now : N) (d : t)
    (chunks : list (N * text)) :
  let d' := fst (restartSvelteCheck now d) in
  finalized (snd (feed d' chunks)) = [] ->
  output (lastCompleteState (fst (feed d' chunks))) = [] /\
  hasErrors (lastCompleteState (fst (feed d' chunks))) = false /\
  hasWarnings (lastCompleteState (fst (feed d' chunks))) = false /\
  isComplete (lastCompleteState (fst (feed d' chunks))) = false.
Proof.
  intros d' H. destruct (feed_quiet d' chunks H) as (O & F & C).
  assert (E : lastCompleteState d' = emptyState now).
  { unfold d', restartSvelteCheck. destruct (svelteCheckProcess d); reflexivity. }
  rewrite E in *. unfold flags in F. simpl in *.
  injection F as F1 F2. auto.
Qed.

Lemma restart_hides_unfinished_cycle_witness :
  let st := {| output := lit "old report"; hasErrors := true;
               hasWarnings := false; isComplete := true; lastUpdate := 3 |} in
  let d := set_currentOutput (lit "stale")
             (set_lastCompleteState st (create 0 (lit "/w") None)) in
  let d' := fst (restartSvelteCheck 5 d) in
  let chunks := [(6%N, line "Getting Svelte diagnostics..."); (7%N, lit "/w/src/a.sv")] in
  output (lastCompleteState (fst (feed d' chunks))) = [] /\
  isComplete (lastCompleteState (fst (feed d' chunks))) = false.
Proof.
  cbv zeta.
  destruct (restart_hides_unfinished_cycle 5
    (set_currentOutput (lit "stale")
       (set_lastCompleteState
          {| output := lit "old report"; hasErrors := true;
             hasWarnings := false; isComplete := true; lastUpdate := 3 |}
          (create 0 (lit "/w") None)))
    [(6%N, line "Getting Svelte diagnostics..."); (7%N, lit "/w/src/a.sv")])
    as (O & _ & _ & C).
  - vm_compute. reflexivity.
  - split; [exact O|exact C].
Defined.

End ParserMore.

(** ** The output parser: finalizing a cycle *)

Module FinalizeFacts.
Import Js Re Daemon Spec SplitFacts ReFacts ParserFacts DecimalFacts.

(** A line that holds the summary phrase, and no match before it, is matched
    with the two numerals as captures. *)
Lemma exec_summary_phrase pre e w es ws post :
  digits e -> digits w -> e <> [] -> w <> [] ->
  (forall i, i < length pre ->
     match_here summaryRe (drop i (pre ++ summaryPhrase e w es ws ++ post)) = None) ->
  exec summaryRe (pre ++ summaryPhrase e w es ws ++ post) = Some [e; w].
Proof.
  intros De Dw Ne Nw Hpre. rewrite (exec_skip _ _ _ Hpre).
  destruct (match_here_summary e w es ws post De Dw Ne Nw) as [rest H].
  exact (exec_here _ _ _ _ H).
Qed.

Lemma set_currentOutput_twice a b d :
  set_currentOutput a (set_currentOutput b d) = set_currentOutput a d.
Proof. reflexivity. Qed.

Lemma set_currentOutput_same d : set_currentOutput (currentOutput d) d = d.
Proof. destruct d; reflexivity. Qed.

(** Lines without a summary are accumulated, each with its line feed. *)
Lemma handleLines_accumulate now d ls :
  Forall (fun x => exec summaryRe x = None) ls ->
  handleLines now d ls = (set_currentOutput (currentOutput d ++ unlines ls) d, []).
Proof.
  intros H. revert d. induction H as [|l ls Hl _ IH]; intros d; simpl.
  - rewrite app_nil_r, set_currentOutput_same. reflexivity.
  - rewrite (handleLine_other _ _ _ Hl), IH. simpl.
    rewrite set_currentOutput_twice, <- !app_assoc. reflexivity.
Qed.

End FinalizeFacts.

(** ** Removing the cosmetic lines *)

Module CleanFacts.
Import Js Re Daemon Spec SplitFacts ReFacts.

(** *** Removal in general *)

Lemma remove_from_skip r n s :
  remove_from r n s = remove_from r 0 (drop n s).
Proof.
  revert s. induction n as [|n IH]; intros s; [reflexivity|].
  destruct s as [|c s]; [reflexivity|]. simpl. apply IH.
Qed.

Lemma remove_all_match r s rest caps :
  match_here r s = Some (rest, caps) ->
  length rest < length s ->
  remove_all r s = remove_all r (drop (length s - length rest) s).
Proof.
  intros H L. unfold remove_all. destruct s as [|c s]; [simpl in L; lia|].
  unfold remove_from at 1. fold remove_from. unfold match_len. rewrite H.
  destruct (length (c :: s) - length rest) as [|n] eqn:E; [simpl in *; lia|].
  rewrite remove_from_skip. reflexivity.
Qed.

Lemma remove_all_no_match r c s :
  match_here r (c :: s) = None ->
  remove_all r (c :: s) = c :: remove_all r s.
Proof.
  intros H. unfold remove_all. simpl. unfold match_len. rewrite H. reflexivity.
Qed.

(** A stretch in which no match starts is kept as it is. *)
Lemma remove_all_keep r l rest :
  (forall i, i < length l -> match_here r (drop i (l ++ rest)) = None) ->
  remove_all r (l ++ rest) = l ++ remove_all r rest.
Proof.
  induction l as [|c l IH]; intros H; [reflexivity|].
  pose proof (H 0 ltac:(simpl; lia)) as H0. simpl in H0.
  simpl. rewrite (remove_all_no_match _ _ _ H0). f_equal.
  apply IH. intros i Hi. apply (H (S i)). simpl. lia.
Qed.

(** *** Runs *)

Lemma rep_short p min s k : runLength p s < min -> rep p min s k = None.
Proof.
  revert min. induction s as [|c s IH]; intros min H; simpl in *.
  - destruct min; [lia|reflexivity].
  - destruct (p c).
    + rewrite IH by lia. destruct min; [lia|reflexivity].
    + destruct min; [lia|reflexivity].
Qed.

Lemma run_app_stop p a c rest :
  p c = false -> runLength p (a ++ c :: rest) = runLength p a.
Proof.
  intros H. induction a as [|x a IH]; simpl; [rewrite H; reflexivity|].
  destruct (p x); [f_equal; exact IH|reflexivity].
Qed.

Lemma startsWith_run c s n :
  n <= runLength (eqc c) s -> startsWith s (repeat c n) = true.
Proof.
  revert s. induction n as [|n IH]; intros s H; [destruct s; reflexivity|].
  destruct s as [|x s]; simpl in *; [lia|].
  destruct (eqc c x) eqn:E; [|lia]. simpl. apply IH. lia.
Qed.

Lemma includes_here s p : startsWith s p = true -> includes s p = true.
Proof. intros H. destruct s; cbn [includes]; rewrite H; reflexivity. Qed.

Lemma includes_drop s p i :
  includes s p = false -> startsWith (drop i s) p = false.
Proof.
  revert s. induction i as [|i IH]; intros s H.
  - rewrite drop_0. destruct s; simpl in H; apply orb_false_iff in H; tauto.
  - destruct s as [|c s]; [simpl in *; apply orb_false_iff in H; tauto|].
    simpl in H. apply orb_false_iff in H as [_ H]. simpl. apply IH, H.
Qed.

(** *** The separator expression *)

Lemma matchk_Rep p min s caps k :
  matchk (Rep p min) s caps k = rep p min s (fun s' => k s' caps).
Proof. reflexivity. Qed.

Lemma separator_none s :
  runLength (eqc "=") s < 36 -> match_here separatorRe s = None.
Proof.
  intros H. unfold match_here, separatorRe.
  rewrite matchk_Seq, matchk_Rep. apply rep_short, H.
Qed.

Lemma Forall_repeat {A} (P : A -> Prop) (x : A) (n : nat) :
  P x -> Forall P (repeat x n).
Proof. intros H. induction n; simpl; constructor; auto. Qed.

Lemma separator_match n rest :
  36 <= n ->
  match_here separatorRe (repeat "="%char n ++ LF :: rest) = Some (rest, []).
Proof.
  intros H. unfold match_here, separatorRe.
  rewrite matchk_Seq, matchk_Rep.
  apply rep_run; [|rewrite repeat_length; exact H|reflexivity|reflexivity].
  apply Forall_repeat. reflexivity.
Qed.

Lemma forallb_repeat l c :
  forallb (eqc c) l = true -> l = repeat c (length l).
Proof.
  induction l as [|x l IH]; simpl; [reflexivity|].
  intros H. apply andb_true_iff in H as [E H]. apply eqc_true in E.
  subst x. f_equal. apply IH, H.
Qed.

Lemma run_repeat c n : runLength (eqc c) (repeat c n) = n.
Proof. induction n; simpl; [reflexivity|]. rewrite eqc_refl, IHn. reflexivity. Qed.

Lemma separator_includes l : isSeparatorLine l = true -> includes l rule36 = true.
Proof.
  unfold isSeparatorLine. intros H. apply andb_true_iff in H as [L F].
  apply Nat.leb_le in L. apply forallb_repeat in F.
  apply includes_here, startsWith_run. rewrite F, run_repeat. exact L.
Qed.

Lemma separator_line l rest :
  isSeparatorLine l = true ->
  remove_all separatorRe (l ++ LF :: rest) = remove_all separatorRe rest.
Proof.
  unfold isSeparatorLine. intros H. apply andb_true_iff in H as [L F].
  apply Nat.leb_le in L. apply forallb_repeat in F.
  pose proof (separator_match (length l) rest L) as M. rewrite <- F in M.
  rewrite (remove_all_match _ _ _ _ M) by (rewrite length_app; simpl; lia).
  replace (length (l ++ LF :: rest) - length rest) with (length (l ++ [LF]))
    by (rewrite !length_app; simpl; lia).
  change (l ++ LF :: rest) with (l ++ [LF] ++ rest).
  rewrite app_assoc, drop_app_length. reflexivity.
Qed.

Lemma separator_free_line l rest :
  includes l rule36 = false ->
  remove_all separatorRe (l ++ LF :: rest) =
  l ++ LF :: remove_all separatorRe rest.
Proof.
  intros H. change (l ++ LF :: rest) with (l ++ [LF] ++ rest).
  rewrite app_assoc, remove_all_keep, <- app_assoc; [reflexivity|].
  intros i Hi. rewrite length_app in Hi. simpl in Hi.
  rewrite <- app_assoc. simpl. apply separator_none.
  destruct (decide (i < length l)) as [Lt|Ge].
  - rewrite drop_app_le by lia. rewrite run_app_stop by reflexivity.
    destruct (le_lt_dec 36 (runLength (eqc "=") (drop i l))) as [Le|Lt']; [|exact Lt'].
    apply (startsWith_run "="%char) in Le. fold rule36 in Le.
    rewrite (includes_drop _ _ i H) in Le. discriminate.
  - assert (i = length l) as -> by lia.
    rewrite drop_app_length. simpl. lia.
Qed.

Lemma separator_pass ls :
  Forall (fun l => isSeparatorLine l = true \/ includes l rule36 = false) ls ->
  remove_all separatorRe (unlines ls) =
  unlines (List.filter (fun l => negb (isSeparatorLine l)) ls).
Proof.
  induction 1 as [|l ls Hl _ IH]; [reflexivity|].
  change (unlines (l :: ls)) with ((l ++ [LF]) ++ unlines ls).
  rewrite <- app_assoc. simpl.
  destruct (isSeparatorLine l) eqn:E; simpl.
  - rewrite (separator_line _ _ E). exact IH.
  - destruct Hl as [Hl|Hl]; [congruence|].
    rewrite (separator_free_line _ _ Hl), IH.
    change (unlines (l :: ?x)) with ((l ++ [LF]) ++ unlines x).
    rewrite <- app_assoc. reflexivity.
Qed.

(** *** The footer expression *)

Lemma lit_here_startsWith p s x : lit_here p s = Some x -> startsWith s p = true.
Proof.
  revert s. induction p as [|a p IH]; intros s; [destruct s; reflexivity|].
  destruct s as [|b s]; simpl; [discriminate|].
  destruct (eqc a b); [apply IH|discriminate].
Qed.

Lemma startsWith_app_stop p a c rest :
  c ∉ p -> startsWith (a ++ c :: rest) p = true -> startsWith a p = true.
Proof.
  revert a. induction p as [|x p IH]; intros a Hc; [destruct a; reflexivity|].
  apply not_elem_of_cons in Hc as [Hx Hp].
  destruct a as [|y a]; simpl.
  - intros H. apply andb_true_iff in H as [E _]. apply eqc_true in E. congruence.
  - intros H. apply andb_true_iff in H as [E H]. rewrite E. simpl.
    apply IH; assumption.
Qed.

Lemma footer_none s : startsWith s footer = false -> match_here watchingRe s = None.
Proof.
  intros H. unfold match_here, watchingRe. rewrite matchk_Seq, matchk_Lit.
  destruct (lit_here (lit "Watching for file changes...") s) eqn:E; [|reflexivity].
  apply lit_here_startsWith in E. unfold footer in H. congruence.
Qed.

Lemma footer_match rest :
  match_here watchingRe (footer ++ LF :: rest) = Some (rest, []).
Proof.
  unfold match_here, watchingRe, footer. rewrite matchk_Seq, matchk_Lit_app.
  reflexivity.
Qed.

Lemma footer_line rest :
  remove_all watchingRe (footer ++ LF :: rest) = remove_all watchingRe rest.
Proof.
  rewrite (remove_all_match _ _ _ _ (footer_match rest))
    by (rewrite length_app; simpl; lia).
  replace (length (footer ++ LF :: rest) - length rest)
    with (length (footer ++ [LF])) by (rewrite !length_app; simpl; lia).
  change (footer ++ LF :: rest) with (footer ++ [LF] ++ rest).
  rewrite app_assoc, drop_app_length. reflexivity.
Qed.

Lemma footer_no_LF : LF ∉ footer.
Proof.
  intros H. apply list_elem_of_In in H. vm_compute in H. intuition discriminate.
Qed.

Lemma footer_free_line l rest :
  includes l footer = false ->
  remove_all watchingRe (l ++ LF :: rest) = l ++ LF :: remove_all watchingRe rest.
Proof.
  intros H. change (l ++ LF :: rest) with (l ++ [LF] ++ rest).
  rewrite app_assoc, remove_all_keep, <- app_assoc; [reflexivity|].
  intros i Hi. rewrite length_app in Hi. simpl in Hi.
  rewrite <- app_assoc. simpl. apply footer_none.
  destruct (decide (i < length l)) as [Lt|Ge].
  - rewrite drop_app_le by lia.
    destruct (startsWith (drop i l ++ LF :: rest) footer) eqn:E; [|reflexivity].
    apply (startsWith_app_stop _ _ _ _ footer_no_LF) in E.
    rewrite (includes_drop _ _ i H) in E. discriminate.
  - assert (i = length l) as -> by lia.
    rewrite drop_app_length. reflexivity.
Qed.

Lemma footer_pass ls :
  Forall (fun l => l = footer \/ includes l footer = false) ls ->
  remove_all watchingRe (unlines ls) =
  unlines (List.filter (fun l => negb (isFooterLine l)) ls).
Proof.
  induction 1 as [|l ls Hl _ IH]; [reflexivity|].
  change (unlines (l :: ls)) with ((l ++ [LF]) ++ unlines ls).
  rewrite <- app_assoc. change ([LF] ++ unlines ls) with (LF :: unlines ls).
  cbn [List.filter]. unfold isFooterLine at 1.
  destruct Hl as [E|Hl].
  - rewrite (bool_decide_eq_true_2 _ E). cbn [negb]. rewrite E, footer_line.
    exact IH.
  - assert (N : l <> footer) by (intros ->; discriminate).
    rewrite (bool_decide_eq_false_2 _ N). cbn [negb].
    rewrite (footer_free_line _ _ Hl), IH.
    change (unlines (l :: ?x)) with ((l ++ [LF]) ++ unlines x).
    rewrite <- app_assoc. reflexivity.
Qed.

(** *** Both passes on a well-formed report *)

Lemma filter_cosmetic ls :
  List.filter (fun l => negb (isFooterLine l))
    (List.filter (fun l => negb (isSeparatorLine l)) ls) = stripCosmetic ls.
Proof.
  unfold stripCosmetic, cosmetic. induction ls as [|l ls IH]; [reflexivity|].
  simpl. destruct (isSeparatorLine l); simpl; [exact IH|].
  destruct (isFooterLine l); simpl; [exact IH|]. f_equal. exact IH.
Qed.

(** On a report whose lines are well formed, the two removals of the source
    take out the cosmetic lines and nothing else. *)
Lemma clean_well_formed ls :
  forallb wellFormedLine ls = true ->
  cleanOutput (unlines ls) = trimEnd (unlines (stripCosmetic ls)).
Proof.
  intros H. unfold cleanOutput. f_equal.
  rewrite forallb_forall in H.
  rewrite separator_pass, footer_pass, filter_cosmetic; [reflexivity| |].
  - apply List.Forall_forall. intros l Hl. apply filter_In in Hl as [Hl Hs].
    apply negb_true_iff in Hs. specialize (H l Hl).
    unfold wellFormedLine, cosmetic, plainLine, isFooterLine in H.
    rewrite Hs in H. simpl in H.
    destruct (bool_decide_reflect (l = footer)) as [E|E]; [left; exact E|].
    simpl in H. apply andb_true_iff in H as [_ H].
    apply negb_true_iff in H. right. exact H.
  - apply List.Forall_forall. intros l Hl. specialize (H l Hl).
    unfold wellFormedLine, cosmetic, plainLine, isFooterLine in H.
    destruct (isSeparatorLine l); [left; reflexivity|]. simpl in H.
    destruct (bool_decide_reflect (l = footer)) as [E|E].
    + right. rewrite E. reflexivity.
    + simpl in H. apply andb_true_iff in H as [H _].
      apply negb_true_iff in H. right. exact H.
Qed.

End CleanFacts.

(** ** The two removals, unit by unit *)

Module SpanFacts.
Import Js Re Daemon Spec CleanSpec SplitFacts ReFacts CleanFacts.

#[local] Arguments lit : simpl never.
#[local] Arguments eqc : simpl never.

Lemma run_take p s : Forall (fun c => p c = true) (take (runLength p s) s).
Proof.
  induction s as [|c s IH]; simpl; [constructor|].
  destruct (p c) eqn:E; simpl; constructor; assumption.
Qed.

Lemma run_stop p s :
  match drop (runLength p s) s with [] => True | c :: _ => p c = false end.
Proof.
  induction s as [|c s IH]; simpl; [exact I|].
  destruct (p c) eqn:E; simpl; assumption.
Qed.

Lemma run_le p s : runLength p s <= length s.
Proof.
  induction s as [|c s IH]; simpl; [lia|]. destruct (p c); simpl; lia.
Qed.

Lemma lineFeedAt_le n s : n <= length s -> n + lineFeedAt n s <= length s.
Proof.
  intros H. unfold lineFeedAt.
  destruct (drop n s) as [|c r] eqn:E; [lia|].
  assert (length (drop n s) = S (length r)) by (rewrite E; reflexivity).
  rewrite length_drop in *. destruct (eqc LF c); lia.
Qed.

(** After the head of a text, an optional line feed. *)
Lemma optional_line_feed n s :
  matchk (Opt (Lit [LF])) (drop n s) [] (fun s' caps => Some (s', caps)) =
  Some (drop (n + lineFeedAt n s) s, []).
Proof.
  unfold lineFeedAt. rewrite matchk_Opt, matchk_Lit.
  destruct (drop n s) as [|c r] eqn:E; simpl.
  - rewrite Nat.add_0_r, E. reflexivity.
  - destruct (eqc LF c); simpl.
    + rewrite <- drop_drop, E. reflexivity.
    + rewrite Nat.add_0_r, E. reflexivity.
Qed.

Lemma separator_here s :
  36 <= runLength (eqc "=") s ->
  match_here separatorRe s = Some (drop (separatorSpan s) s, []).
Proof.
  intros H. unfold separatorSpan. cbv zeta.
  rewrite (proj2 (Nat.leb_le _ _) H).
  set (n := runLength (eqc "=") s) in *.
  unfold match_here, separatorRe. rewrite matchk_Seq, matchk_Rep.
  rewrite <- (take_drop n s) at 1.
  apply rep_run.
  - apply run_take.
  - rewrite length_take. pose proof (run_le (eqc "=") s). fold n in H0. lia.
  - apply optional_line_feed.
  - apply run_stop.
Qed.

Lemma drop_shortens {A} n (s : list A) :
  n <= length s -> length s - length (drop n s) = n.
Proof. intros H. rewrite length_drop. lia. Qed.

Lemma separator_span s :
  match match_len separatorRe s with Some n => n | None => 0 end =
  separatorSpan s.
Proof.
  unfold match_len.
  destruct (le_lt_dec 36 (runLength (eqc "=") s)) as [H|H].
  - rewrite (separator_here _ H). apply drop_shortens.
    unfold separatorSpan. cbv zeta. rewrite (proj2 (Nat.leb_le _ _) H).
    apply lineFeedAt_le, run_le.
  - rewrite (separator_none _ H). unfold separatorSpan. cbv zeta.
    rewrite (proj2 (Nat.leb_gt _ _) H). reflexivity.
Qed.

Lemma startsWith_app s p :
  startsWith s p = true -> s = p ++ drop (length p) s.
Proof.
  revert s. induction p as [|a p IH]; intros s H; [reflexivity|].
  destruct s as [|b s]; simpl in H; [discriminate|].
  apply andb_true_iff in H as [E H]. apply eqc_true in E. subst b.
  simpl. f_equal. apply IH, H.
Qed.

Lemma startsWith_length s p : startsWith s p = true -> length p <= length s.
Proof.
  intros H. rewrite (startsWith_app _ _ H), length_app. lia.
Qed.

Lemma footer_here s :
  startsWith s footer = true ->
  match_here watchingRe s = Some (drop (footerSpan s) s, []).
Proof.
  intros H. unfold footerSpan. rewrite H.
  unfold match_here, watchingRe. rewrite matchk_Seq.
  rewrite (startsWith_app _ _ H) at 1. fold footer.
  rewrite matchk_Lit_app. apply optional_line_feed.
Qed.

Lemma footer_span s :
  match match_len watchingRe s with Some n => n | None => 0 end = footerSpan s.
Proof.
  unfold match_len. destruct (startsWith s footer) eqn:H.
  - rewrite (footer_here _ H). apply drop_shortens.
    unfold footerSpan. rewrite H. apply lineFeedAt_le, startsWith_length, H.
  - rewrite (footer_none _ H). unfold footerSpan. rewrite H. reflexivity.
Qed.

(** The removal of all matches takes out the spans of the expression. *)
Lemma remove_from_without r span :
  (forall s, match match_len r s with Some n => n | None => 0 end = span s) ->
  forall s skip, remove_from r skip s = without span skip s.
Proof.
  intros H. induction s as [|c s IH]; intros skip; [reflexivity|].
  simpl. destruct skip as [|n]; [|apply IH].
  rewrite <- (H (c :: s)).
  destruct (match_len r (c :: s)) as [[|n]|]; rewrite IH; reflexivity.
Qed.

(** What [cleanOutput] does, unit by unit. *)
Lemma cleanOutput_spans acc :
  cleanOutput acc = trimEnd (without footerSpan 0 (without separatorSpan 0 acc)).
Proof.
  unfold cleanOutput, remove_all.
  rewrite (remove_from_without _ _ separator_span),
          (remove_from_without _ _ footer_span).
  reflexivity.
Qed.

End SpanFacts.

Module FinalizeClaims.
Import Js Re Daemon Spec CleanSpec SplitFacts ReFacts ParserFacts DecimalFacts.
Import FinalizeFacts CleanFacts SpanFacts.

(** C4.  A line whose first summary phrase reports [n] errors and [m]
    warnings is finalized into a snapshot with [hasErrors = (n > 0)],
    [hasWarnings = (m > 0)] and [isComplete = true]; the nouns may be
    singular or plural and any text may precede or follow the phrase. *)
Theorem summary_line_sets_flags (now : N) (d : t) (pre post : text)
    (n m : N) (es ws : bool) :
  let l := pre ++ summaryPhrase (showN n) (showN m) es ws ++ post in
  (forall i, i < length pre -> match_here summaryRe (drop i l) = None) ->
  let st := lastCompleteState (fst (handleLine now d l)) in
  hasErrors st = (0 <? n)%N /\
  hasWarnings st = (0 <? m)%N /\
  isComplete st = true /\
  snd (handleLine now d l) = [CycleFinalized st].
Proof.
  intros l Hpre.
  pose proof (exec_summary_phrase pre (showN n) (showN m) es ws post
                (digits_showN n) (digits_showN m)
                (showN_nonempty n) (showN_nonempty m) Hpre) as E.
  fold l in E. rewrite (handleLine_summary _ _ _ _ _ E). simpl.
  rewrite !parseInt_showN. auto.
Qed.

Lemma summary_line_sets_flags_witness :
  let d := create 0 (lit "/w") None in
  let zero := lit "svelte-check found 0 errors and 0 warnings" in
  let some := lit "12:01 svelte-check found 3 errors and 1 warning in 2 files" in
  (hasErrors (lastCompleteState (fst (handleLine 1 d zero))) = false /\
   hasWarnings (lastCompleteState (fst (handleLine 1 d zero))) = false /\
   isComplete (lastCompleteState (fst (handleLine 1 d zero))) = true) /\
  (hasErrors (lastCompleteState (fst (handleLine 1 d some))) = true /\
   hasWarnings (lastCompleteState (fst (handleLine 1 d some))) = true /\
   isComplete (lastCompleteState (fst (handleLine 1 d some))) = true).
Proof.
  split.
  - destruct (summary_line_sets_flags 1 (create 0 (lit "/w") None) [] []
                0 0 true true) as (E & W & C & _).
    + simpl. intros i Hi. lia.
    + exact (conj E (conj W C)).
  - destruct (summary_line_sets_flags 1 (create 0 (lit "/w") None)
                (lit "12:01 ") (lit " in 2 files") 3 1 true false)
      as (E & W & C & _).
    + intros i Hi. simpl in Hi.
      do 6 (destruct i as [|i]; [vm_compute; reflexivity|]). lia.
    + exact (conj E (conj W C)).
Defined.

(** C5 fails as worded.  A line of code that holds 40 equals signs after
    other text is no separator line; the removal of the source takes the
    run out of the line all the same, with the line feed after it, and the
    line is joined with the next one. *)
Lemma separator_inside_a_line_is_removed :
  let ls := [lit "// " ++ repeat "="%char 40; lit "let x = 1"] in
  let l := lit "svelte-check found 0 errors and 0 warnings" in
  let r := handleLines 1 (create 0 (lit "/w") None) (ls ++ [l]) in
  stripCosmetic (ls ++ [l]) = ls ++ [l] /\
  output (lastCompleteState (fst r)) = line "// let x = 1" ++ l /\
  ~ finalize_removes_cosmetic_lines.
Proof.
  cbv zeta. split; [vm_compute; reflexivity|]. split; [vm_compute; reflexivity|].
  intros H.
  specialize (H 1%N (create 0 (lit "/w") None)
                [lit "// " ++ repeat "="%char 40; lit "let x = 1"]
                (lit "svelte-check found 0 errors and 0 warnings")
                eq_refl).
  assert (Hls : Forall (fun x => exec summaryRe x = None)
                  [lit "// " ++ repeat "="%char 40; lit "let x = 1"])
    by (repeat constructor).
  assert (Hl : exec summaryRe (lit "svelte-check found 0 errors and 0 warnings")
               <> None) by (vm_compute; discriminate).
  specialize (H Hls Hl). vm_compute in H. discriminate.
Qed.

(** C5, amended.  When a summary line arrives after some lines without a
    summary, in a parser whose accumulation buffer was empty (as it is at
    the start, after a restart and after every finalize), the committed
    [output] is the text of all these lines, summary line included, without
    the runs of 36 equals signs or more, then without the footers, each
    taken out wherever it stands and with the line feed directly after it,
    and then trimmed of trailing white space.  On a report whose lines are
    separator lines, footer lines or lines that hold neither a run of 36
    equals signs nor the footer, this is the text of the lines that are
    neither separator lines nor footer lines, trimmed.  The accumulation
    buffer is empty afterwards. *)
Theorem finalize_commits_cleaned_text (now : N) (d : t) (ls : list text)
    (l : text) :
  currentOutput d = [] ->
  Forall (fun x => exec summaryRe x = None) ls ->
  exec summaryRe l <> None ->
  let r := handleLines now d (ls ++ [l]) in
  output (lastCompleteState (fst r)) =
    trimEnd (without footerSpan 0
               (without separatorSpan 0 (unlines (ls ++ [l])))) /\
  (forallb wellFormedLine (ls ++ [l]) = true ->
   output (lastCompleteState (fst r)) =
     trimEnd (unlines (stripCosmetic (ls ++ [l])))) /\
  currentOutput (fst r) = [] /\
  finalized (snd r) = [lastCompleteState (fst r)].
Proof.
  intros Hd Hls Hl. cbv zeta.
  destruct (exec summaryRe l) as [caps|] eqn:E; [|congruence].
  destruct (exec_summary_captures _ _ E) as (e & w & ->).
  assert (O : output (lastCompleteState (fst (handleLines now d (ls ++ [l])))) =
              cleanOutput (unlines (ls ++ [l]))).
  { rewrite handleLines_app, (handleLines_accumulate _ _ _ Hls). simpl.
    rewrite (handleLine_summary _ _ _ _ _ E). simpl.
    rewrite Hd. unfold unlines. rewrite flat_map_app. simpl.
    rewrite app_nil_r. reflexivity. }
  split; [rewrite O; apply cleanOutput_spans|]. split.
  - intros W. rewrite O. apply clean_well_formed, W.
  - rewrite handleLines_app, (handleLines_accumulate _ _ _ Hls). simpl.
    rewrite (handleLine_summary _ _ _ _ _ E). simpl. auto.
Qed.

Lemma finalize_commits_cleaned_text_witness :
  let d := create 0 (lit "/w") None in
  let rule := repeat "="%char 36 in
  let ls := [lit "Watching for file changes..."; rule;
             lit "Getting Svelte diagnostics..."; [];
             lit "/w/src/a.svelte:1:1"; lit "Error: bad"; []; rule] in
  let l := lit "svelte-check found 1 error and 0 warnings in 1 file" in
  let r := handleLines 1 d (ls ++ [l]) in
  output (lastCompleteState (fst r)) =
    line "Getting Svelte diagnostics..." ++ line "" ++
    line "/w/src/a.svelte:1:1" ++ line "Error: bad" ++ line "" ++ l /\
  currentOutput (fst r) = [].
Proof.
  destruct (finalize_commits_cleaned_text 1 (create 0 (lit "/w") None)
    [lit "Watching for file changes..."; repeat "="%char 36;
     lit "Getting Svelte diagnostics..."; [];
     lit "/w/src/a.svelte:1:1"; lit "Error: bad"; []; repeat "="%char 36]
    (lit "svelte-check found 1 error and 0 warnings in 1 file"))
    as (_ & O & C & _).
  - reflexivity.
  - repeat constructor.
  - vm_compute. discriminate.
  - split; [|exact C]. rewrite O; [|vm_compute; reflexivity].
    vm_compute. reflexivity.
Defined.

End FinalizeClaims.

(** ** The process supervisor and the big-changes watcher *)

Module SupervisorClaims.
Import Js Re Daemon Spec.

(** C7.  [restartSvelteCheck] kills the current child process when there is
    one, empties [currentOutput] and [lineBuffer], resets the snapshot to the
    empty in-progress one, and then spawns the checker again with the
    arguments [startSvelteCheck] builds. *)
Theorem restart_resets_and_respawns (now : N) (d : t) :
  let r := restartSvelteCheck now d in
  let p := {| command := lit "svelte-check"; args := checkerArgs d;
              cwd := workspacePath d |} in
  snd r = match svelteCheckProcess d with
          | Some old => [Kill old; Spawn p]
          | None => [Spawn p]
          end /\
  svelteCheckProcess (fst r) = Some p /\
  currentOutput (fst r) = [] /\
  lineBuffer (fst r) = [] /\
  lastCompleteState (fst r) =
    {| output := []; hasErrors := false; hasWarnings := false;
       isComplete := false; lastUpdate := now |} /\
  workspacePath (fst r) = workspacePath d /\
  tsconfigPath (fst r) = tsconfigPath d /\
  knownFiles (fst r) = knownFiles d.
Proof.
  unfold restartSvelteCheck.
  destruct (svelteCheckProcess d) as [old|]; simpl; repeat split; reflexivity.
Qed.

Lemma restart_knownFiles now d :
  knownFiles (fst (restartSvelteCheck now d)) = knownFiles d.
Proof.
  unfold restartSvelteCheck. destruct (svelteCheckProcess d); reflexivity.
Qed.

Lemma restart_spawns_once now d : spawns (snd (restartSvelteCheck now d)) = 1.
Proof.
  unfold restartSvelteCheck. destruct (svelteCheckProcess d); reflexivity.
Qed.

Section Watcher.
Variable path_join : list text -> text.
Variable existsSync : text -> bool.



(** An event without a file name is dropped. *)
Lemma big_change_unnamed dir now d eventType :
  onBigChange path_join existsSync dir now d eventType None = (d, []) /\
  onBigChange path_join existsSync dir now d eventType (Some []) = (d, []).
Proof. split; reflexivity. Qed.

End Watcher.


End SupervisorClaims.

(** ** The socket server *)

Module ServerClaims.
Import Js Re Daemon Spec.

(** C6 fails as worded: a payload that is not the token, the token followed
    by a line feed, is answered. *)
Lemma token_with_line_feed_is_answered : ~ only_exact_token_answered.
Proof.
  intros H.
  destruct (H (create 0 (lit "/w") None) (line "GET_STATUS")) as [_ H2].
  assert (Hne : line "GET_STATUS" <> lit "GET_STATUS") by discriminate.
  specialize (H2 Hne). vm_compute in H2. discriminate.
Qed.

(** C6, amended.  The payload is trimmed before it is compared: a payload
    that is the token [GET_STATUS] between any white space is answered with
    the JSON text of the current snapshot, an object with the properties
    [output], [hasErrors], [hasWarnings], [isComplete] and [lastUpdate] in
    this order, and the connection is ended; any other payload is answered
    with nothing and the connection is left as it is. *)
Theorem status_request_is_trimmed (d : t) (data : text) :
  onData d data =
    (if bool_decide (trim data = lit "GET_STATUS")
     then [SocketWrite (Json.stringify (toObject (lastCompleteState d)));
           SocketEnd]
     else []) /\
  Json.stringify (toObject (lastCompleteState d)) =
    lit "{" ++
    Json.quote (lit "output") ++ lit ":" ++
      Json.quote (output (lastCompleteState d)) ++ lit "," ++
    Json.quote (lit "hasErrors") ++ lit ":" ++
      (if hasErrors (lastCompleteState d) then lit "true" else lit "false") ++
      lit "," ++
    Json.quote (lit "hasWarnings") ++ lit ":" ++
      (if hasWarnings (lastCompleteState d) then lit "true" else lit "false") ++
      lit "," ++
    Json.quote (lit "isComplete") ++ lit ":" ++
      (if isComplete (lastCompleteState d) then lit "true" else lit "false") ++
      lit "," ++
    Json.quote (lit "lastUpdate") ++ lit ":" ++
      showN (lastUpdate (lastCompleteState d)) ++
    lit "}".
Proof.
  split; [reflexivity|].
  unfold Json.stringify, toObject, Json.members, Json.stringify_value.
  destruct (hasErrors _), (hasWarnings _), (isComplete _);
    repeat rewrite <- app_assoc; reflexivity.
Qed.

End ServerClaims.

(** ** The client query helper *)

Module ClientClaims.
Import Js Re Daemon Client Spec.

Section Query.
Variable path_join : list text -> text.
Variable existsSync : text -> bool.
Variable JSON_parse : text -> option DaemonState.

Lemma run_app q evs1 evs2 :
  run JSON_parse q (evs1 ++ evs2) = run JSON_parse (run JSON_parse q evs1) evs2.
Proof. apply fold_left_app. Qed.

Lemma run_snoc q evs ev :
  run JSON_parse q (evs ++ [ev]) = dispatch JSON_parse (run JSON_parse q evs) ev.
Proof. rewrite run_app. reflexivity. Qed.

(** A settled promise stays settled with the same value. *)
Lemma dispatch_settled q ev v :
  settled q = Some v -> settled (dispatch JSON_parse q ev) = Some v.
Proof.
  intros H. unfold dispatch, resolve.
  destruct ev, (socket q), (timer q); simpl; rewrite ?H; simpl; auto.
Qed.

Lemma dispatch_closed q ev :
  closed_when_settled q -> closed_when_settled (dispatch JSON_parse q ev).
Proof.
  unfold closed_when_settled, dispatch, resolve.
  intros H.
  destruct ev, (socket q) eqn:Es, (timer q) eqn:Et, (settled q) eqn:Ev;
    simpl; rewrite ?Es, ?Ev; simpl; intros Hs; auto;
    try (destruct H as [H|H]; congruence); try congruence.
Qed.

Lemma run_closed q evs :
  closed_when_settled q -> closed_when_settled (run JSON_parse q evs).
Proof.
  revert q. induction evs as [|ev evs IH]; intros q H; [exact H|].
  apply IH, dispatch_closed, H.
Qed.

Lemma run_settled q evs v :
  settled q = Some v -> settled (run JSON_parse q evs) = Some v.
Proof.
  revert q. induction evs as [|ev evs IH]; intros q H; [exact H|].
  apply IH, dispatch_settled, H.
Qed.

(** Nothing but its own expiry changes the timer: no handler clears it. *)
Lemma dispatch_timer q ev :
  timer (dispatch JSON_parse q ev) =
  match ev, timer q with
  | EvTimer, TimerPending => TimerFired
  | _, s => s
  end.
Proof.
  unfold dispatch, resolve.
  destruct q as [so ti da se ca]. simpl.
  destruct ev, so, ti, se; reflexivity.
Qed.

Lemma run_timer q evs :
  timer (run JSON_parse q evs) =
  match timer q with
  | TimerPending => if timer_fires evs then TimerFired else TimerPending
  | s => s
  end.
Proof.
  revert q. induction evs as [|ev evs IH]; intros q.
  - simpl. destruct (timer q); reflexivity.
  - change (run JSON_parse q (ev :: evs))
      with (run JSON_parse (dispatch JSON_parse q ev) evs).
    rewrite IH, dispatch_timer. simpl.
    destruct ev, (timer q); simpl; try reflexivity;
      destruct (timer_fires evs); reflexivity.
Qed.

(** A query without a socket is deaf to every event. *)
Lemma run_no_socket q evs :
  socket q = NoSocket -> timer q = NoTimer -> run JSON_parse q evs = q.
Proof.
  intros Hs Ht. induction evs as [|ev evs IH]; [reflexivity|].
  change (run JSON_parse q (ev :: evs))
    with (run JSON_parse (dispatch JSON_parse q ev) evs).
  assert (dispatch JSON_parse q ev = q) as ->; [|exact IH].
  unfold dispatch, Client.dispatch. rewrite Hs, Ht. destruct ev; reflexivity.
Qed.

(** C3, amended.  Once the promise of a query is settled, no connection is
    open: the socket, if one was made, is closed.  The five-second timer is
    never cleared: it is pending exactly as long as it has not fired,
    whichever handler settled the promise.  What arrives after the promise
    is settled, the expiry of the timer included, leaves its value alone. *)
Theorem settled_query_has_no_open_socket (workspace : text) (evs : list Event) :
  let q := run JSON_parse (getStatusFromDaemon path_join existsSync workspace) evs in
  settled q <> None ->
  (socket q = NoSocket \/ socket q = SockClosed) /\
  timer q =
    (if existsSync (getSocketPath path_join workspace)
     then (if timer_fires evs then TimerFired else TimerPending)
     else NoTimer) /\
  (forall more, settled (run JSON_parse q more) = settled q).
Proof.
  intros q Hs. split; [|split].
  - apply (run_closed (getStatusFromDaemon path_join existsSync workspace) evs); [|exact Hs].
    unfold closed_when_settled, getStatusFromDaemon.
    destruct (existsSync _); simpl; [congruence|auto].
  - unfold q. rewrite run_timer.
    unfold getStatusFromDaemon.
    destruct (existsSync _); reflexivity.
  - intros more. destruct (settled q) as [v|] eqn:E; [|congruence].
    apply run_settled, E.
Qed.

(** C9.  When the socket file does not exist the query is settled with
    [null] at once: no connection is made, no timer is set, no platform call
    is issued, and no event can change the outcome. *)
Theorem no_endpoint_no_connection (workspace : text) :
  existsSync (getSocketPath path_join workspace) = false ->
  let q := getStatusFromDaemon path_join existsSync workspace in
  settled q = Some None /\
  calls q = [] /\
  socket q = NoSocket /\
  timer q = NoTimer /\
  (forall evs, run JSON_parse q evs = q).
Proof.
  intros H q. unfold q, getStatusFromDaemon.
  rewrite H. simpl. repeat split.
  intros evs. apply run_no_socket; reflexivity.
Qed.

End Query.

(** C3 fails as worded: after a connection error the promise is settled and
    the timer is still pending. *)
Lemma timer_outlives_settled_query :
  ~ nothing_dangling
      (Client.run (fun _ => None)
         (Client.getStatusFromDaemon join_slash (fun _ => true) (lit "/w"))
         [EvError]).
Proof.
  unfold nothing_dangling. simpl. intros H.
  destruct H as [_ [H|H]]; [discriminate| |]; discriminate.
Qed.

Lemma settled_query_has_no_open_socket_witness :
  let st := {| output := lit "ok"; hasErrors := false; hasWarnings := false;
               isComplete := true; lastUpdate := 7 |} in
  let q := Client.run (fun _ => Some st)
             (Client.getStatusFromDaemon join_slash (fun _ => true) (lit "/w"))
             [EvConnect; EvData (lit "{}"); EvEnd] in
  settled q = Some (Some st) /\
  socket q = SockClosed /\
  timer q = TimerPending.
Proof.
  cbv zeta. split; [reflexivity|].
  destruct (settled_query_has_no_open_socket join_slash (fun _ => true)
              (fun _ => Some {| output := lit "ok"; hasErrors := false;
                                hasWarnings := false; isComplete := true;
                                lastUpdate := 7 |})
              (lit "/w") [EvConnect; EvData (lit "{}"); EvEnd])
    as ([H|H] & T & _).
  - simpl. discriminate.
  - simpl in H. discriminate.
  - split; [exact H|exact T].
Defined.

Lemma no_endpoint_no_connection_witness :
  let q := Client.getStatusFromDaemon join_slash (fun _ => false) (lit "/w") in
  settled q = Some None /\ calls q = [] /\
  Client.run (fun _ => None) q [EvConnect; EvData (lit "x"); EvEnd; EvTimer] = q.
Proof.
  destruct (no_endpoint_no_connection join_slash (fun _ => false)
              (fun _ => None) (lit "/w") eq_refl) as (S & C & _ & _ & R).
  split; [exact S|]. split; [exact C|]. apply R.
Defined.

End ClientClaims.

(** ** The big-changes watcher: the scan and runs of events *)

Module WatcherMore.
Import Js Re Daemon Spec Watchers MoreSpec.

#[local] Arguments lit : simpl never.

Section Scan.
Variable path_join : list text -> text.

Lemma listed_nil dir p : ~ listed path_join dir [] p.
Proof. intros H. inversion H; subst; simpl in *; contradiction. Qed.

Lemma listed_cons dir e es p :
  listed path_join dir (e :: es) p <->
  listed path_join dir [e] p \/ listed path_join dir es p.
Proof.
  split.
  - intros H. inversion H as [d es' name Hin|d es' name sub q Hin Hsub]; subst.
    + destruct Hin as [->|Hin].
      * left. apply listed_here. left. reflexivity.
      * right. apply listed_here, Hin.
    + destruct Hin as [->|Hin].
      * left. eapply listed_below; [left; reflexivity|exact Hsub].
      * right. eapply listed_below; eassumption.
  - intros [H|H].
    + inversion H as [d es' name Hin|d es' name sub q Hin Hsub]; subst.
      * destruct Hin as [->|[]]. apply listed_here. left. reflexivity.
      * destruct Hin as [->|[]].
        eapply listed_below; [left; reflexivity|exact Hsub].
    + inversion H as [d es' name Hin|d es' name sub q Hin Hsub]; subst.
      * apply listed_here. right. exact Hin.
      * eapply listed_below; [right; exact Hin|exact Hsub].
Qed.

Lemma listed_other dir name p :
  listed path_join dir [Other name] p <-> p = path_join [dir; name].
Proof.
  split.
  - intros H. inversion H as [d es' n Hin|d es' n sub q Hin Hsub]; subst.
    + destruct Hin as [E|[]]. injection E as ->. reflexivity.
    + destruct Hin as [E|[]]. discriminate.
  - intros ->. apply listed_here. left. reflexivity.
Qed.

Lemma listed_locked dir name p :
  ~ listed path_join dir [Directory name None] p.
Proof.
  intros H. inversion H as [d es' n Hin|d es' n sub q Hin Hsub]; subst.
  - destruct Hin as [E|[]]. discriminate.
  - destruct Hin as [E|[]]. discriminate.
Qed.

Lemma listed_directory dir name es p :
  listed path_join dir [Directory name (Some es)] p <->
  listed path_join (path_join [dir; name]) es p.
Proof.
  split.
  - intros H. inversion H as [d es' n Hin|d es' n sub q Hin Hsub]; subst.
    + destruct Hin as [E|[]]. discriminate.
    + destruct Hin as [E|[]]. injection E as -> ->. exact Hsub.
  - intros H. eapply listed_below; [left; reflexivity|exact H].
Qed.

Lemma scan_listing dir es :
  Forall (adds path_join) es ->
  forall known p,
    p ∈ fold_left (fun k e => scanEntry path_join dir e k) es known <->
    p ∈ known \/ listed path_join dir es p.
Proof.
  induction 1 as [|e es He _ IH]; intros known p; simpl.
  - split; [auto|]. intros [H|H]; [exact H|]. destruct (listed_nil _ _ H).
  - rewrite IH, (He dir known p), (listed_cons dir e es p). tauto.
Qed.

Lemma scanEntry_adds e : adds path_join e.
Proof.
  induction e as [name|name|name es IH] using entry_induction;
    unfold adds; intros dir known p; simpl.
  - rewrite elem_of_union, elem_of_singleton, listed_other. tauto.
  - split; [auto|]. intros [H|H]; [exact H|]. destruct (listed_locked _ _ _ H).
  - rewrite (scan_listing _ _ IH), listed_directory. reflexivity.
Qed.

Lemma scanDirectory_known dir listing d p :
  p ∈ knownFiles (scanDirectory path_join dir listing d) <->
  p ∈ knownFiles d \/
  match listing with
  | Some es => listed path_join dir es p
  | None => False
  end.
Proof.
  destruct listing as [es|]; simpl; [|tauto].
  apply scan_listing. apply Forall_forall. intros e _. apply scanEntry_adds.
Qed.

End Scan.

Section Start.
Variable path_join : list text -> text.
Variable path_resolve : text -> text -> text.
Variable existsSync : text -> bool.

(** X4.  [startBigChangesWatcher] makes a watcher exactly when the
    environment names a directory and that directory exists, and puts it on
    that directory, resolved against the workspace.  It then knows, besides
    what it knew, the paths of the entries that are not directories under
    the directories it could read, and nothing else: no directory itself and
    nothing under a directory whose listing failed; no other field of the
    daemon changes and nothing is logged.  When no watcher is made the
    daemon is left as it was. *)
Theorem big_changes_start_knows_listed_files (env : option text)
    (listing : option (list entry)) (d : t) :
  let r := startBigChangesWatcher path_join path_resolve existsSync env listing d in
  (forall watchDir,
     env = Some watchDir -> watchDir <> [] ->
     existsSync (path_resolve (workspacePath d) watchDir) = true ->
     snd r = Some (path_resolve (workspacePath d) watchDir) /\
     snd (fst r) = []) /\
  (snd r = None -> fst (fst r) = d) /\
  (forall dir, snd r = Some dir ->
     exists watchDir,
       env = Some watchDir /\ watchDir <> [] /\
       dir = path_resolve (workspacePath d) watchDir /\
       existsSync dir = true /\
       fst (fst r) = set_knownFiles (knownFiles (fst (fst r))) d /\
       forall p,
         p ∈ knownFiles (fst (fst r)) <->
         p ∈ knownFiles d \/
         match listing with
         | Some es => listed path_join dir es p
         | None => False
         end).
Proof.
  unfold startBigChangesWatcher. cbv zeta.
  destruct env as [[|c w]|].
  - split; [intros ? [= <-] H; congruence|]. split; [reflexivity|discriminate].
  - destruct (existsSync (path_resolve (workspacePath d) (c :: w))) eqn:E; simpl.
    + split; [intros ? [= <-] _ _; auto|]. split; [discriminate|].
      intros dir [= <-]. exists (c :: w).
      repeat split; try assumption; try discriminate.
      * destruct listing; destruct d; reflexivity.
      * apply scanDirectory_known.
      * apply scanDirectory_known.
    + split; [intros ? [= <-] _ H; congruence|].
      split; [reflexivity|discriminate].
  - split; [discriminate|]. split; [reflexivity|discriminate].
Qed.


End Start.

Lemma big_changes_start_knows_listed_files_witness :
  let resolve := fun a b : text => join_slash [a; b] in
  let es := [Other (lit "app.ts");
             Directory (lit "sub") (Some [Other (lit "a.ts")]);
             Directory (lit "locked") None] in
  let r := startBigChangesWatcher join_slash resolve (fun _ => true)
             (Some (lit "src")) (Some es) (create 0 (lit "/w") None) in
  snd r = Some (lit "/w/src") /\
  (lit "/w/src/sub/a.ts" ∈ knownFiles (fst (fst r))) /\
  (lit "/w/src/sub" ∉ knownFiles (fst (fst r))).
Proof.
  cbv zeta.
  destruct (big_changes_start_knows_listed_files join_slash
              (fun a b : text => join_slash [a; b]) (fun _ => true)
              (Some (lit "src"))
              (Some [Other (lit "app.ts");
                     Directory (lit "sub") (Some [Other (lit "a.ts")]);
                     Directory (lit "locked") None])
              (create 0 (lit "/w") None)) as (F & _ & K).
  destruct (F (lit "src") eq_refl ltac:(discriminate) eq_refl) as [W _].
  split; [exact W|].
  destruct (K _ W) as (w & _ & _ & _ & _ & _ & Known).
  split.
  - apply Known. right.
    eapply listed_below; [right; left; reflexivity|].
    apply (listed_here join_slash (lit "/w/src/sub") [Other (lit "a.ts")]
             (lit "a.ts")).
    left. reflexivity.
  - intros Hin. apply Known in Hin as [Hin|Hin].
    + apply elem_of_empty in Hin. exact Hin.
    + apply listed_cons in Hin as [H|H].
      { apply listed_other in H. vm_compute in H. discriminate. }
      apply listed_cons in H as [H|H].
      { apply listed_directory, listed_other in H. vm_compute in H.
        discriminate. }
      apply listed_cons in H as [H|H].
      { exact (listed_locked _ _ _ _ H). }
      exact (listed_nil _ _ _ H).
Defined.


Section Runs.
Variable path_join : list text -> text.

Lemma spawns_app a b : spawns (a ++ b) = spawns a + spawns b.
Proof.
  induction a as [|[p|p|m] a IH]; simpl; rewrite ?IH; reflexivity.
Qed.

Lemma size_add_one (K : gset text) (p : text) : size ({[p]} ∪ K) <= S (size K).
Proof.
  destruct (decide (p ∈ K)) as [Hin|Hout].
  - rewrite (subseteq_union_1_L {[p]} K); [lia|].
    apply singleton_subseteq_l, Hin.
  - rewrite size_union by (apply disjoint_singleton_l, Hout).
    rewrite size_singleton. lia.
Qed.

Lemma size_remove_one (K : gset text) (p : text) :
  p ∈ K -> S (size (K ∖ {[p]})) = size K.
Proof.
  intros Hin. rewrite size_difference by (apply singleton_subseteq_l, Hin).
  rewrite size_singleton.
  assert (size K <> 0); [|lia].
  intros Hz. apply size_empty_inv in Hz.
  apply (not_elem_of_empty (C:=gset text) p). rewrite <- Hz. exact Hin.
Qed.

Lemma onBigChange_budget dir d ev :
  let r := onBigChange path_join (present ev) dir (at_time ev) d
             (eventType ev) (filename ev) in
  spawns (snd r) + size (knownFiles (fst r)) <=
  size (knownFiles d) + (if reportsPresent path_join dir ev then 1 else 0).
Proof.
  cbv zeta. unfold reportsPresent.
  destruct (filename ev) as [[|c name]|]; simpl; try lia.
  destruct (bool_decide (eventType ev = lit "rename")); simpl; [|lia].
  destruct (present ev (path_join [dir; c :: name])); simpl.
  - pose proof (size_add_one (knownFiles d) (path_join [dir; c :: name])). lia.
  - destruct (bool_decide_reflect
                (path_join [dir; c :: name] ∈ knownFiles d)) as [Hin|Hout];
      simpl; [|lia].
    pose proof (SupervisorClaims.restart_spawns_once (at_time ev)
      (set_knownFiles (knownFiles d ∖ {[path_join [dir; c :: name]]}) d)) as S1.
    pose proof (SupervisorClaims.restart_knownFiles (at_time ev)
      (set_knownFiles (knownFiles d ∖ {[path_join [dir; c :: name]]}) d)) as K1.
    destruct (restartSvelteCheck _ _) as [d2 e2]. simpl in *.
    rewrite S1, K1. pose proof (size_remove_one _ _ Hin). lia.
Qed.

(** X6.  Over any run of events of the big-changes watcher, the restarts
    and the files still known never exceed the files known at first and the
    events that reported a path as present: every restart uses up one known
    file, so a path reported missing again, or never known, restarts
    nothing. *)
Theorem restarts_use_up_known_files (dir : text) (d : t) (evs : list FsEvent) :
  let r := bigChanges path_join dir d evs in
  spawns (snd r) + size (knownFiles (fst r)) <=
  size (knownFiles d) + presentReports path_join dir evs.
Proof.
  cbv zeta. unfold presentReports. revert d.
  induction evs as [|ev evs IH]; intros d; simpl; [lia|].
  pose proof (onBigChange_budget dir d ev) as H1. cbv zeta in H1.
  destruct (onBigChange _ _ _ _ _ _ _) as [d1 e1].
  specialize (IH d1). destruct (bigChanges _ _ _ _) as [d2 e2]. simpl in *.
  rewrite spawns_app.
  destruct (reportsPresent path_join dir ev); simpl; lia.
Qed.

End Runs.

End WatcherMore.

(** ** The route-file watcher: the file names and the debounce *)

Module RouteMore.
Import Js Re Daemon Spec Watchers MoreSpec SplitFacts ReFacts CleanFacts.

#[local] Arguments lit : simpl never.
#[local] Arguments eqc : simpl never.

(** *** Matching up to the end *)

Lemma lit_here_Some l s s' : lit_here l s = Some s' -> s = l ++ s'.
Proof.
  revert s. induction l as [|a l IH]; intros s; simpl.
  - intros [= ->]. reflexivity.
  - destruct s as [|b s]; [discriminate|].
    destruct (eqc a b) eqn:E; [|discriminate].
    apply eqc_true in E. subst b. intros H. f_equal. apply IH, H.
Qed.

Lemma rep_sound p min s k res :
  rep p min s k = Some res ->
  exists ds s', s = ds ++ s' /\ Forall (fun c => p c = true) ds /\
                min <= length ds /\ k s' = Some res.
Proof.
  revert min. induction s as [|c s IH]; intros min; simpl.
  - destruct (Nat.eqb_spec min 0) as [->|]; [|discriminate].
    intros H. exists [], []. auto.
  - destruct (p c) eqn:Pc.
    + destruct (rep p (pred min) s k) eqn:E.
      * intros [= <-]. apply IH in E as (ds & s' & -> & F & L & K).
        exists (c :: ds), s'. simpl. repeat split; auto. lia.
      * destruct (Nat.eqb_spec min 0) as [->|]; [|discriminate].
        intros H. exists [], (c :: s). auto.
    + destruct (Nat.eqb_spec min 0) as [->|]; [|discriminate].
      intros H. exists [], (c :: s). auto.
Qed.

Lemma rep_complete p min ds rest k :
  Forall (fun c => p c = true) ds ->
  min <= length ds ->
  is_Some (k rest) ->
  is_Some (rep p min (ds ++ rest) k).
Proof.
  intros F. revert min. induction F as [|c ds Hc _ IH]; intros min L [x Hx].
  - simpl in L. assert (min = 0) as -> by lia.
    destruct rest as [|c rest]; simpl; [rewrite Hx; eauto|].
    destruct (p c); [|rewrite Hx; eauto].
    destruct (rep p 0 rest k); [eauto|rewrite Hx; eauto].
  - simpl. rewrite Hc.
    destruct (IH (pred min)) as [y Hy]; [simpl in L; lia|eauto|].
    rewrite Hy. eauto.
Qed.

Lemma test_end_iff r s :
  test_end r s = true <->
  exists pre suf, s = pre ++ suf /\ match_to_end r suf = true.
Proof.
  induction s as [|c s IH]; simpl.
  - rewrite orb_false_r. split.
    + intros H. exists [], []. auto.
    + intros (pre & suf & E & H). symmetry in E.
      apply app_eq_nil in E as [_ ->]. exact H.
  - rewrite orb_true_iff, IH. split.
    + intros [H|(pre & suf & -> & H)].
      * exists [], (c :: s). auto.
      * exists (c :: pre), suf. auto.
    + intros (pre & suf & E & H). destruct pre as [|x pre]; simpl in E.
      * left. rewrite E. exact H.
      * injection E as -> ->. right. eauto.
Qed.

(** *** The route files *)

Lemma not_slash base :
  Forall (fun c => negb (eqc "/" c) = true) base <-> "/"%char ∉ base.
Proof.
  induction base as [|c base IH]; simpl.
  - split; [intros _; apply not_elem_of_nil|constructor].
  - rewrite Forall_cons, not_elem_of_cons, IH, negb_true_iff.
    split; intros [H1 H2]; split; auto.
    + intros E. rewrite E, eqc_refl in H1. discriminate.
    + destruct (eqc "/" c) eqn:E; [|reflexivity].
      apply eqc_true in E. congruence.
Qed.

Lemma route_match_to_end s :
  match_to_end routeRe s = true <->
  exists base, s = lit "/+" ++ base ++ lit ".ts" /\ base <> [] /\ "/"%char ∉ base.
Proof.
  unfold match_to_end, routeRe. rewrite !matchk_Seq. split.
  - rewrite matchk_Lit.
    destruct (lit_here (lit "/+") s) as [s1|] eqn:E1; [|discriminate].
    apply lit_here_Some in E1. rewrite matchk_Seq, matchk_Rep.
    destruct (rep _ 1 s1 _) as [res|] eqn:E2; [|discriminate]. intros _.
    apply rep_sound in E2 as (base & s2 & -> & F & L & K).
    rewrite matchk_Lit in K.
    destruct (lit_here (lit ".ts") s2) as [s3|] eqn:E3; [|discriminate].
    apply lit_here_Some in E3. destruct s3; [|discriminate].
    rewrite app_nil_r in E3. subst.
    exists base. split; [reflexivity|]. split.
    + intros ->. simpl in L. lia.
    + apply not_slash, F.
  - intros (base & -> & Hne & Hs). rewrite matchk_Lit_app, matchk_Seq, matchk_Rep.
    destruct (rep_complete (fun c => negb (eqc "/" c)) 1 base (lit ".ts")
                (fun s' => matchk (Lit (lit ".ts")) s' []
                   (fun s'0 caps => match s'0 with
                                    | [] => Some (s'0, caps)
                                    | _ :: _ => None
                                    end))) as [x Hx].
    + apply not_slash, Hs.
    + destruct base; [congruence|simpl; lia].
    + eexists. reflexivity.
    + rewrite Hx. reflexivity.
Qed.

(** X7.  The route-file watcher takes a file name for a route file exactly
    when it ends in a slash, a plus sign, a name of one unit or more without
    a slash, and [.ts]: a [+page.ts] named without a directory before it,
    and every file that is not TypeScript, is passed over. *)
Theorem route_files_are_slash_plus_ts (name : text) :
  isRouteFile name = true <->
  exists pre base,
    name = pre ++ lit "/+" ++ base ++ lit ".ts" /\
    base <> [] /\ "/"%char ∉ base.
Proof.
  unfold isRouteFile. rewrite test_end_iff. split.
  - intros (pre & suf & -> & H). apply route_match_to_end in H as (base & -> & H).
    exists pre, base. auto.
  - intros (pre & base & -> & H).
    exists pre, (lit "/+" ++ base ++ lit ".ts"). split; [reflexivity|].
    apply route_match_to_end. exists base. auto.
Qed.

End RouteMore.

Module DebounceMore.
Import Js Re Daemon Spec Watchers MoreSpec.

(** At most the timer of the field is pending. *)
Lemma filter_out_self h :
  List.filter (fun x => negb (Nat.eqb x h)) [h] = [].
Proof. simpl. rewrite Nat.eqb_refl. reflexivity. Qed.

Lemma one_pending_tick ws st e :
  (pending st = [] \/ exists h, syncDebounceTimer st = Some h /\ pending st = [h]) ->
  (pending (tick ws st e) = [] \/
   exists h, syncDebounceTimer (tick ws st e) = Some h /\
             pending (tick ws st e) = [h]).
Proof.
  intros Inv. destruct e as [[[|c name]|]|h]; simpl; auto.
  - destruct (isRouteFile (c :: name)); [|exact Inv]. right. simpl.
    destruct Inv as [E|(h & T & E)].
    + exists (nextTimer (match syncDebounceTimer st with
                         | Some h => clearTimeout h st
                         | None => st
                         end)).
      split; [reflexivity|]. f_equal.
      destruct (syncDebounceTimer st); simpl; rewrite E; reflexivity.
    + rewrite T. simpl. rewrite E, filter_out_self. eauto.
  - unfold onTimer. destruct (existsb (Nat.eqb h) (pending st)) eqn:X; [|exact Inv].
    simpl. destruct Inv as [E|(h' & T & E)].
    + rewrite E in X. discriminate.
    + rewrite E in *. simpl in X. rewrite orb_false_r in X.
      apply Nat.eqb_eq in X. subst h'. rewrite filter_out_self. auto.
Qed.

Lemma one_pending ws es :
  let st := ticks ws idle es in
  pending st = [] \/ exists h, syncDebounceTimer st = Some h /\ pending st = [h].
Proof.
  cbv zeta. unfold ticks. induction es as [|e es IH] using rev_ind.
  - left. reflexivity.
  - rewrite fold_left_app. simpl. apply one_pending_tick, IH.
Qed.

Lemma budget_tick ws st e :
  (pending st = [] \/ exists h, syncDebounceTimer st = Some h /\ pending st = [h]) ->
  length (synced (tick ws st e)) + length (pending (tick ws st e)) <=
  length (synced st) + length (pending st) +
  (if namesRouteFile e then 1 else 0).
Proof.
  intros Inv. destruct e as [[[|c name]|]|h]; simpl; try lia.
  - destruct (isRouteFile (c :: name)); simpl; [|lia].
    destruct Inv as [E|(h & T & E)].
    + destruct (syncDebounceTimer st); simpl; rewrite E; simpl; lia.
    + rewrite T. simpl. rewrite E, filter_out_self. simpl. lia.
  - unfold onTimer. destruct (existsb (Nat.eqb h) (pending st)) eqn:X; [|lia].
    simpl. destruct Inv as [E|(h' & T & E)].
    + rewrite E in X. discriminate.
    + rewrite E in *. simpl in X. rewrite orb_false_r in X.
      apply Nat.eqb_eq in X. subst h'. rewrite filter_out_self, length_app.
      simpl. lia.
Qed.

Lemma synced_here_tick ws st e :
  Forall (fun w => w = ws) (synced st) ->
  Forall (fun w => w = ws) (synced (tick ws st e)).
Proof.
  intros H. destruct e as [[[|c name]|]|h]; simpl; auto.
  - destruct (isRouteFile (c :: name)); [|exact H]. simpl.
    destruct (syncDebounceTimer st); exact H.
  - unfold onTimer. destruct (existsb _ _); [|exact H]. simpl.
    apply Forall_app. split; [exact H|]. repeat constructor.
Qed.

(** X8.  Whatever file events and timer expiries reach the route-file
    watcher, in whatever order, at most one timer is pending, and the sync
    runs made plus the timer pending never exceed the events that named a
    route file; every sync runs in the workspace. *)
Theorem sync_runs_are_debounced (workspace : text) (es : list Tick) :
  let st := ticks workspace idle es in
  length (pending st) <= 1 /\
  length (synced st) + length (pending st) <=
    length (List.filter namesRouteFile es) /\
  Forall (fun w => w = workspace) (synced st).
Proof.
  cbv zeta. split; [|split].
  - destruct (one_pending workspace es) as [E|(h & _ & E)]; rewrite E; simpl; lia.
  - unfold ticks. induction es as [|e es IH] using rev_ind; [simpl; lia|].
    rewrite fold_left_app, List.filter_app, length_app. simpl.
    pose proof (budget_tick workspace (fold_left (tick workspace) es idle) e
                  (one_pending workspace es)) as B.
    destruct (namesRouteFile e); simpl; lia.
  - unfold ticks. induction es as [|e es IH] using rev_ind; [constructor|].
    rewrite fold_left_app. simpl. apply synced_here_tick, IH.
Qed.

Lemma expiries_without_pending ws st hs :
  pending st = [] ->
  ticks ws st (map TimerExpired hs) = st.
Proof.
  intros E. induction hs as [|h hs IH]; [reflexivity|].
  unfold ticks in *. simpl. unfold onTimer. rewrite E. simpl. exact IH.
Qed.

Lemma expiries_with_one_pending ws st h hs :
  pending st = [h] ->
  synced (ticks ws st (map TimerExpired hs)) =
  synced st ++ (if existsb (Nat.eqb h) hs then [ws] else []).
Proof.
  intros E. revert st E. induction hs as [|x hs IH]; intros st E.
  - simpl. rewrite app_nil_r. reflexivity.
  - unfold ticks. simpl. fold (ticks ws (onTimer ws x st) (map TimerExpired hs)).
    unfold onTimer. rewrite E. simpl. rewrite orb_false_r.
    rewrite (Nat.eqb_sym h x).
    destruct (Nat.eqb_spec x h) as [->|Hne]; simpl.
    + rewrite expiries_without_pending by reflexivity. reflexivity.
    + apply IH. exact E.
Qed.

(** A route-file event sets a new timer and, the one-timer invariant given,
    leaves no other pending. *)
Lemma route_event_sets_timer st n :
  n <> [] -> isRouteFile n = true ->
  (pending st = [] \/ exists h, syncDebounceTimer st = Some h /\ pending st = [h]) ->
  syncDebounceTimer (onRouteEvent (Some n) st) = Some (nextTimer st) /\
  pending (onRouteEvent (Some n) st) = [nextTimer st] /\
  nextTimer (onRouteEvent (Some n) st) = S (nextTimer st) /\
  synced (onRouteEvent (Some n) st) = synced st.
Proof.
  intros Hn Hr Inv. destruct n as [|c n]; [congruence|]. simpl. rewrite Hr. simpl.
  destruct Inv as [E|(h & T & E)].
  - destruct (syncDebounceTimer st); simpl; rewrite E; simpl; auto.
  - rewrite T. simpl. rewrite E, filter_out_self. auto.
Qed.

Lemma clearTimeout_nextTimer h st : nextTimer (clearTimeout h st) = nextTimer st.
Proof. reflexivity. Qed.

(** File events neither run the sync nor fire a timer; each route-file
    event takes one handle. *)
Lemma route_events_count ws names :
  Forall (fun n => n <> [] /\ isRouteFile n = true) names ->
  forall st,
    let st' := ticks ws st (map (fun n => FileChanged (Some n)) names) in
    synced st' = synced st /\ nextTimer st' = nextTimer st + length names.
Proof.
  induction 1 as [|n names [Hn Hr] _ IH]; intros st; cbv zeta.
  - simpl. split; [reflexivity|lia].
  - change (ticks ws st (map (fun n => FileChanged (Some n)) (n :: names)))
      with (ticks ws (onRouteEvent (Some n) st)
              (map (fun n => FileChanged (Some n)) names)).
    destruct (IH (onRouteEvent (Some n) st)) as [S1 N1]. rewrite S1, N1.
    destruct n as [|c n]; [congruence|]. simpl. rewrite Hr. simpl.
    destruct (syncDebounceTimer st); simpl; split; try reflexivity; lia.
Qed.

Lemma ticks_app ws st es es' :
  ticks ws st (es ++ es') = ticks ws (ticks ws st es) es'.
Proof. apply fold_left_app. Qed.

(** X9.  After one or more route-file events in a row, the one timer that
    is pending is the timer the last of them set: every event of the burst
    takes a new handle, the field and the list of pending timers hold the
    handle [setTimeout] gave the last event, and the expiries that follow
    run the sync once when this handle is among them and not at all when it
    is not, whichever handles of earlier events expire. *)
Theorem burst_of_route_events_syncs_once (workspace : text) (before : list Tick)
    (earlier : list text) (latest : text) (expiries : list nat) :
  Forall (fun n => n <> [] /\ isRouteFile n = true) (earlier ++ [latest]) ->
  let st0 := ticks workspace idle before in
  let stl := ticks workspace st0 (map (fun n => FileChanged (Some n)) earlier) in
  let st1 := ticks workspace st0
               (map (fun n => FileChanged (Some n)) (earlier ++ [latest])) in
  let st2 := ticks workspace st1 (map TimerExpired expiries) in
  st1 = onRouteEvent (Some latest) stl /\
  nextTimer stl = nextTimer st0 + length earlier /\
  syncDebounceTimer st1 = Some (nextTimer stl) /\
  pending st1 = [nextTimer stl] /\
  synced st2 =
    synced st0 ++
    (if existsb (Nat.eqb (nextTimer stl)) expiries then [workspace] else []).
Proof.
  intros F. cbv zeta. apply Forall_app in F as [Fe Fl].
  apply Forall_cons in Fl as [[Hn Hr] _].
  rewrite map_app, ticks_app.
  change (ticks workspace ?st (map (fun n => FileChanged (Some n)) [latest]))
    with (onRouteEvent (Some latest) st).
  destruct (route_events_count workspace earlier Fe (ticks workspace idle before))
    as [S0 N0]. cbv zeta in S0, N0.
  assert (Inv : let st := ticks workspace (ticks workspace idle before)
                            (map (fun n => FileChanged (Some n)) earlier) in
                pending st = [] \/
                exists h, syncDebounceTimer st = Some h /\ pending st = [h]).
  { cbv zeta. rewrite <- ticks_app. apply one_pending. }
  cbv zeta in Inv.
  destruct (route_event_sets_timer _ latest Hn Hr Inv) as (T1 & P1 & _ & S1).
  split; [reflexivity|]. split; [exact N0|]. split; [exact T1|].
  split; [exact P1|].
  rewrite (expiries_with_one_pending _ _ _ _ P1), S1, S0. reflexivity.
Qed.

Lemma burst_of_route_events_syncs_once_witness :
  let earlier := [lit "src/routes/+page.ts"; lit "src/routes/a/+layout.server.ts"] in
  let latest := lit "src/routes/+page.ts" in
  let st1 := ticks (lit "/w") idle
               (map (fun n => FileChanged (Some n)) (earlier ++ [latest])) in
  pending st1 = [2] /\
  synced (ticks (lit "/w") st1 (map TimerExpired [0; 1])) = [] /\
  synced (ticks (lit "/w") st1 (map TimerExpired [0; 2; 1; 2])) = [lit "/w"].
Proof.
  cbv zeta.
  assert (F : Forall (fun n : text => n <> [] /\ isRouteFile n = true)
                ([lit "src/routes/+page.ts"; lit "src/routes/a/+layout.server.ts"]
                 ++ [lit "src/routes/+page.ts"]))
    by (repeat constructor; discriminate).
  split; [|split].
  - exact (proj1 (proj2 (proj2 (proj2
             (burst_of_route_events_syncs_once (lit "/w") [] _ _ [] F))))).
  - exact (proj2 (proj2 (proj2 (proj2
             (burst_of_route_events_syncs_once (lit "/w") [] _ _ [0; 1] F))))).
  - exact (proj2 (proj2 (proj2 (proj2
             (burst_of_route_events_syncs_once (lit "/w") [] _ _ [0; 2; 1; 2] F))))).
Defined.

(** X10.  The first statement of [shutdown] leaves no timer pending: no
    expiry after it runs the sync, whatever happened before. *)
Theorem cancelled_sync_never_runs (workspace : text) (before : list Tick)
    (expiries : list nat) :
  let st := cancelSync (ticks workspace idle before) in
  pending st = [] /\
  synced (ticks workspace st (map TimerExpired expiries)) =
  synced (ticks workspace idle before).
Proof.
  cbv zeta.
  assert (P : pending (cancelSync (ticks workspace idle before)) = []).
  { unfold cancelSync.
    destruct (one_pending workspace before) as [E|(h & T & E)].
    - destruct (syncDebounceTimer _); simpl; rewrite E; reflexivity.
    - rewrite T. simpl. rewrite E. apply filter_out_self. }
  split; [exact P|].
  rewrite (expiries_without_pending _ _ _ P).
  unfold cancelSync. destruct (syncDebounceTimer _); reflexivity.
Qed.

End DebounceMore.

(** ** The child process, the files and the shutdown *)

Module LifecycleMore.
Import Js Re Daemon Spec Watchers Lifecycle Cli MoreSpec DecimalFacts DebounceMore.

#[local] Arguments lit : simpl never.

(** X11.  The exit handler clears the process field whichever process
    exited.  So when a restart has killed the checker and the exit of the
    killed process is then handled, the field is empty although the checker
    the restart spawned is running: the next restart kills nothing and
    spawns one more checker, and a shutdown kills nothing either. *)
Theorem late_exit_loses_the_running_checker (path_join : list text -> text)
    (removable : text -> bool) (now1 now2 : N) (d : t) (p : ChildProcess) :
  svelteCheckProcess d = Some p ->
  let r1 := restartSvelteCheck now1 d in
  let d2 := onExit (fst r1) in
  let r3 := restartSvelteCheck now2 d2 in
  exists q,
    snd r1 = [Kill p; Spawn q] /\
    svelteCheckProcess (fst r1) = Some q /\
    svelteCheckProcess d2 = None /\
    snd r3 = [Spawn q] /\
    kills (snd r1 ++ snd r3) = 1 /\
    spawns (snd r1 ++ snd r3) = 2 /\
    forall i k, core i = d2 ->
      ~ In (OfProcess (Kill k)) (snd (shutdown path_join removable i)).
Proof.
  intros Hp. cbv zeta. unfold restartSvelteCheck. rewrite Hp. simpl.
  eexists. repeat split.
  intros i k Hi. unfold shutdown. rewrite Hi. simpl. intros H.
  repeat match goal with
         | H : In _ (_ ++ _) |- _ => apply in_app_or in H
         | H : _ \/ _ |- _ => destruct H
         | H : In _ (closing ?w) |- _ => destruct w; simpl in H
         | H : In _ (match ?x with _ => _ end) |- _ => destruct x; simpl in H
         | H : In _ [] |- _ => destruct H
         | H : In _ (_ :: _) |- _ => destruct H
         | H : False |- _ => destruct H
         | H : _ = _ |- _ => discriminate H
         end.
Qed.

Lemma late_exit_loses_the_running_checker_witness :
  let p := {| command := lit "svelte-check"; args := [lit "--watch"];
              cwd := lit "/w" |} in
  let d := set_svelteCheckProcess (Some p) (create 0 (lit "/w") None) in
  let r1 := restartSvelteCheck 1 d in
  let r3 := restartSvelteCheck 2 (onExit (fst r1)) in
  kills (snd r1 ++ snd r3) = 1 /\ spawns (snd r1 ++ snd r3) = 2.
Proof.
  cbv zeta.
  destruct (late_exit_loses_the_running_checker join_slash (fun _ => true) 1 2
              (set_svelteCheckProcess
                 (Some {| command := lit "svelte-check"; args := [lit "--watch"];
                          cwd := lit "/w" |})
                 (create 0 (lit "/w") None))
              {| command := lit "svelte-check"; args := [lit "--watch"];
                 cwd := lit "/w" |} eq_refl)
    as (q & _ & _ & _ & _ & K & S & _).
  split; [exact K|exact S].
Defined.

Section Files.
Variable path_join : list text -> text.
Variable removable : text -> bool.
Variable writable : text -> bool.

Lemma unlinkQuietly_lookup p disk q :
  unlinkQuietly removable p disk !! q =
  if bool_decide (q = p) && removable p then None else disk !! q.
Proof.
  unfold unlinkQuietly, existsSync.
  destruct (bool_decide_reflect (q = p)) as [->|Hne]; simpl.
  - destruct (removable p).
    + destruct (bool_decide_reflect (is_Some (disk !! p))) as [H|H].
      * apply lookup_delete_eq.
      * apply eq_None_not_Some, H.
    + destruct (bool_decide _); reflexivity.
  - destruct (bool_decide _); [|reflexivity].
    destruct (removable p); [|reflexivity].
    apply lookup_delete_ne. congruence.
Qed.

(** X12.  [cleanup] takes away the socket file and the pid file, each one
    when it can be unlinked and whatever happens to the other, and it
    leaves every other path of the disk as it was. *)
Theorem cleanup_removes_only_the_artifacts (workspace : text)
    (disk : gmap text file) (q : text) :
  cleanup path_join removable workspace disk !! q =
  if (bool_decide (q = getSocketPath path_join workspace) ||
      bool_decide (q = getPidPath path_join workspace)) && removable q
  then None
  else disk !! q.
Proof.
  unfold cleanup. rewrite !unlinkQuietly_lookup.
  destruct (bool_decide_reflect (q = getPidPath path_join workspace)) as [E1|N1];
    destruct (bool_decide_reflect (q = getSocketPath path_join workspace))
      as [E2|N2]; simpl; rewrite <- ?E1, <- ?E2;
    destruct (removable q); reflexivity.
Qed.

End Files.

(** *** Reading the pid back *)

Lemma digit_is_no_space c : is_digit c = true -> is_space c = false.
Proof.
  destruct c as [[] [] [] [] [] [] [] []]; vm_compute; congruence.
Qed.

Lemma trimEnd_blank post : blank post -> trimEnd post = [].
Proof.
  induction 1 as [|c post Hc _ IH]; simpl; [reflexivity|].
  rewrite IH, Hc. reflexivity.
Qed.

Lemma trimEnd_app_blank s post : blank post -> trimEnd (s ++ post) = trimEnd s.
Proof.
  intros H. induction s as [|c s IH]; simpl.
  - apply trimEnd_blank, H.
  - rewrite IH. reflexivity.
Qed.

Lemma trimEnd_digits ds : digits ds -> trimEnd ds = ds.
Proof.
  induction 1 as [|c ds Hc _ IH]; simpl; [reflexivity|].
  rewrite IH. destruct ds; [|reflexivity].
  rewrite (digit_is_no_space _ Hc). reflexivity.
Qed.

Lemma trimStart_blank pre s : blank pre -> trimStart (pre ++ s) = trimStart s.
Proof.
  induction 1 as [|c pre Hc _ IH]; simpl; [reflexivity|].
  rewrite Hc. exact IH.
Qed.

Lemma trim_padded_digits pre ds post :
  blank pre -> blank post -> digits ds -> ds <> [] ->
  trim (pre ++ ds ++ post) = ds.
Proof.
  intros Hpre Hpost Hds Hne. unfold trim. rewrite (trimStart_blank _ _ Hpre).
  destruct ds as [|c ds]; [congruence|].
  apply Forall_cons in Hds as [Hc Hds].
  change (trimStart ((c :: ds) ++ post)) with
    (if is_space c then trimStart (ds ++ post) else (c :: ds) ++ post).
  rewrite (digit_is_no_space _ Hc), (trimEnd_app_blank _ _ Hpost).
  apply trimEnd_digits. constructor; assumption.
Qed.

Lemma leadingDigits_digits ds : digits ds -> leadingDigits ds = ds.
Proof.
  induction 1 as [|c ds Hc _ IH]; simpl; [reflexivity|].
  rewrite Hc, IH. reflexivity.
Qed.

Lemma no_sign c (ds : text) :
  is_digit c = true ->
  match c :: ds with
  | "-"%char :: r => (true, r)
  | "+"%char :: r => (false, r)
  | _ => (false, c :: ds)
  end = (false, c :: ds).
Proof.
  intros Hc. destruct c as [[] [] [] [] [] [] [] []];
    try discriminate Hc; reflexivity.
Qed.

Lemma parseInt10_digits ds :
  digits ds -> ds <> [] -> parseInt10 ds = Some (Z.of_N (parseInt ds)).
Proof.
  intros Hds Hne. destruct ds as [|c ds]; [congruence|].
  pose proof (leadingDigits_digits _ Hds) as L.
  apply Forall_cons in Hds as [Hc Hds].
  unfold parseInt10.
  change (trimStart (c :: ds)) with (if is_space c then trimStart ds else c :: ds).
  rewrite (digit_is_no_space _ Hc). cbv zeta.
  rewrite (no_sign c ds Hc), L. reflexivity.
Qed.

Section Probe.
Variable path_join : list text -> text.
Variable removable : text -> bool.
Variable writable : text -> bool.
Variable probe : Z -> bool.
Variable terminate : Z -> bool.

Lemma readPid_padded workspace disk pre post pid :
  disk !! getPidPath path_join workspace = Some (Content (pre ++ showN pid ++ post)) ->
  blank pre -> blank post ->
  readPid path_join workspace disk = Some (Z.of_N pid).
Proof.
  intros H Hpre Hpost. unfold readPid. rewrite H.
  rewrite (trim_padded_digits _ _ _ Hpre Hpost (digits_showN pid)
             (showN_nonempty pid)).
  rewrite (parseInt10_digits _ (digits_showN pid) (showN_nonempty pid)).
  rewrite parseInt_showN. reflexivity.
Qed.

(** X13.  What [start] writes to the pid file is read back by the probe and
    by the stop command as the same pid, whatever the disk held before: the
    daemon counts as running exactly when this pid is one [process.kill]
    takes and the probe of it returns, and the stop command signals this pid
    and no other. *)
Theorem registered_pid_is_read_back (pid : N) (workspace : text)
    (disk disk' : gmap text file) :
  registerPid path_join removable writable pid workspace disk = Some disk' ->
  readPid path_join workspace disk' = Some (Z.of_N pid) /\
  isDaemonRunning path_join probe workspace disk' =
    validPid (Z.of_N pid) && probe (Z.of_N pid) /\
  (validPid (Z.of_N pid) && terminate (Z.of_N pid) = true ->
   stopDaemon path_join terminate workspace disk' =
     ([Signal (Z.of_N pid);
       Stdout (lit "Stopped daemon (PID " ++ showN pid ++ lit ")")], 0%Z)) /\
  (validPid (Z.of_N pid) && terminate (Z.of_N pid) = false ->
   stopDaemon path_join terminate workspace disk' = ([Stderr FailedToStop], 1%Z)).
Proof.
  unfold registerPid.
  destruct (writable (getPidPath path_join workspace)); [|discriminate].
  intros [= <-].
  assert (L : (<[getPidPath path_join workspace := Content (showN pid)]>
                 (cleanup path_join removable workspace disk))
              !! getPidPath path_join workspace
              = Some (Content ([] ++ showN pid ++ []))).
  { rewrite lookup_insert_eq, app_nil_r. reflexivity. }
  assert (R := readPid_padded workspace _ [] [] pid L
                 ltac:(constructor) ltac:(constructor)).
  assert (X : existsSync
                (<[getPidPath path_join workspace := Content (showN pid)]>
                   (cleanup path_join removable workspace disk))
                (getPidPath path_join workspace) = true).
  { unfold existsSync. apply bool_decide_eq_true_2. rewrite L. eauto. }
  split; [exact R|].
  unfold isDaemonRunning, stopDaemon. rewrite X, R. simpl.
  split; [reflexivity|]. split; intros V; rewrite V; [|reflexivity].
  replace (Z.of_N pid <? 0)%Z with false by (symmetry; apply Z.ltb_ge; lia).
  rewrite Zabs2N.id. reflexivity.
Qed.

(** X14.  A pid file that holds the decimal pid between any white space, a
    trailing line feed for one, is read as that pid; the daemon then counts
    as running exactly when the pid is one [process.kill] takes and the
    probe of it returns. *)
Theorem padded_pid_file_is_read (workspace : text) (disk : gmap text file)
    (pre post : text) (pid : N) :
  disk !! getPidPath path_join workspace =
    Some (Content (pre ++ showN pid ++ post)) ->
  blank pre -> blank post ->
  isDaemonRunning path_join probe workspace disk =
    validPid (Z.of_N pid) && probe (Z.of_N pid).
Proof.
  intros H Hpre Hpost. unfold isDaemonRunning.
  rewrite (readPid_padded _ _ _ _ _ H Hpre Hpost).
  unfold existsSync. rewrite bool_decide_eq_true_2 by (rewrite H; eauto).
  reflexivity.
Qed.

(** X15.  Without a pid file, with one that cannot be read, or with one
    whose trimmed text [parseInt] gives [NaN] for, the daemon does not count
    as running whatever the probe would say, and the stop command fails with
    exit code 1 without signalling any process. *)
Theorem no_readable_pid_means_not_running (workspace : text)
    (disk : gmap text file) :
  (disk !! getPidPath path_join workspace = None \/
   disk !! getPidPath path_join workspace = Some Unreadable \/
   exists c, disk !! getPidPath path_join workspace = Some (Content c) /\
             parseInt10 (trim c) = None) ->
  isDaemonRunning path_join probe workspace disk = false /\
  snd (stopDaemon path_join terminate workspace disk) = 1%Z /\
  (forall pid, ~ In (Signal pid) (fst (stopDaemon path_join terminate workspace disk))).
Proof.
  intros H.
  assert (R : readPid path_join workspace disk = None).
  { unfold readPid. destruct H as [H|[H|(c & H & P)]]; rewrite H; auto. }
  unfold isDaemonRunning, stopDaemon. rewrite R.
  destruct (existsSync disk _); simpl; repeat split; try discriminate;
    intros pid [E|[]]; discriminate.
Qed.

End Probe.

Lemma registered_pid_is_read_back_witness :
  let pidPath := getPidPath join_slash (lit "/w") in
  let stale : gmap text file := {[pidPath := Content (lit "999 stale")]} in
  exists disk',
    registerPid join_slash (fun _ => false) (fun _ => true) 4242 (lit "/w") stale
      = Some disk' /\
    readPid join_slash (lit "/w") disk' = Some 4242%Z /\
    isDaemonRunning join_slash (fun pid => (pid =? 4242)%Z) (lit "/w") disk' = true.
Proof.
  cbv zeta. eexists. split; [reflexivity|].
  destruct (registered_pid_is_read_back join_slash (fun _ => false)
              (fun _ => true) (fun pid => (pid =? 4242)%Z) (fun _ => true)
              4242 (lit "/w")
              {[getPidPath join_slash (lit "/w") := Content (lit "999 stale")]}
              _ eq_refl) as (R & A & _).
  split; [exact R|exact A].
Defined.

Lemma padded_pid_file_is_read_witness :
  let pidPath := getPidPath join_slash (lit "/w") in
  let disk : gmap text file := {[pidPath := Content (lit " 4242" ++ [LF])]} in
  isDaemonRunning join_slash (fun pid => (pid =? 4242)%Z) (lit "/w") disk = true.
Proof.
  cbv zeta.
  apply (padded_pid_file_is_read join_slash (fun pid => (pid =? 4242)%Z)
           (lit "/w")
           {[getPidPath join_slash (lit "/w") := Content (lit " 4242" ++ [LF])]}
           (lit " ") [LF] 4242).
  - rewrite lookup_singleton_eq. reflexivity.
  - repeat constructor.
  - repeat constructor.
Defined.

Lemma no_readable_pid_means_not_running_witness :
  let pidPath := getPidPath join_slash (lit "/w") in
  let disk : gmap text file := {[pidPath := Content (lit "pid: 4242")]} in
  isDaemonRunning join_slash (fun _ => true) (lit "/w") disk = false /\
  snd (stopDaemon join_slash (fun _ => true) (lit "/w") disk) = 1%Z.
Proof.
  cbv zeta.
  destruct (no_readable_pid_means_not_running join_slash (fun _ => true)
              (fun _ => true) (lit "/w")
              {[getPidPath join_slash (lit "/w") := Content (lit "pid: 4242")]})
    as (A & E & _).
  - right. right. eexists. split; [apply lookup_singleton_eq|reflexivity].
  - split; [exact A|exact E].
Defined.

End LifecycleMore.

(** ** The command line *)

Module CliMore.
Import Js Re Daemon Spec Lifecycle Cli MoreSpec.

#[local] Arguments lit : simpl never.

Lemma poll_exit start status turns said code :
  poll start status turns = (said, Exits code) ->
  (code = 1%Z /\ exists n, said = [Stderr n]) \/
  exists st,
    (st = status \/
     In st (flat_map (fun t => match snd t with Some s => [s] | None => [] end)
              turns)) /\
    isComplete st = true /\
    said = [Stdout (output st)] /\
    code = (if hasErrors st then 1 else 0)%Z.
Proof.
  revert status. induction turns as [|[now answer] turns IH]; intros status; simpl.
  - destruct (isComplete status) eqn:C; [|discriminate].
    unfold report. intros [= <- <-]. right. exists status. auto.
  - destruct (isComplete status) eqn:C.
    + unfold report. intros [= <- <-]. right. exists status. auto.
    + destruct (now - start <? 120000)%Z.
      * destruct answer as [status'|].
        -- intros H. apply IH in H as [H|(st & [->|Hin] & H)]; [left; exact H|..].
           ++ right. exists status'. split; [right; simpl; auto|exact H].
           ++ right. exists st. split; [right; simpl; auto|exact H].
        -- unfold failedStatus. intros [= <- <-]. left. eauto.
      * intros [= <- <-]. left. eauto.
Qed.

(** X16.  When the daemon runs, [check] prints a report only from a
    snapshot the daemon gave as complete, and then exits with 1 when that
    snapshot has errors and with 0 when it has none, warnings or not; every
    other way out, a failed query or the two-minute ceiling, says so on
    stderr and exits with 1.  So exit code 0 never goes with an unfinished
    or failing check. *)
Theorem check_reports_only_complete_snapshots (i : CheckInput)
    (said : list Said) (code : Z) :
  running2 i = true ->
  runCheck i = (said, Exits code) ->
  (code = 1%Z /\ exists n, last said = Some (Stderr n)) \/
  exists st,
    In st (answers i) /\
    isComplete st = true /\
    last said = Some (Stdout (output st)) /\
    code = (if hasErrors st then 1 else 0)%Z.
Proof.
  intros R. unfold runCheck, answers. rewrite R. simpl.
  destruct (first i) as [status|].
  - destruct (poll (startTime i) status (turns i)) as [said' out] eqn:P.
    intros [= <- ->]. apply poll_exit in P as [(-> & n & ->)|(st & Hin & C & -> & ->)].
    + left. split; [reflexivity|]. exists n. apply last_snoc.
    + right. exists st. repeat split; auto.
      * destruct Hin as [->|Hin]; [left; reflexivity|right; exact Hin].
      * apply last_snoc.
  - unfold failedStatus. simpl. intros [= <- <-]. left.
    split; [reflexivity|]. eexists. apply last_snoc.
Qed.

Lemma check_reports_only_complete_snapshots_witness :
  let busy := {| output := lit "old"; hasErrors := false; hasWarnings := false;
                 isComplete := false; lastUpdate := 1 |} in
  let done := {| output := lit "report"; hasErrors := true; hasWarnings := false;
                 isComplete := true; lastUpdate := 2 |} in
  let i := {| ci := false; running1 := true; running2 := true;
              direct := (true, []); first := Some busy; startTime := 1000;
              turns := [(1000%Z, Some busy); (1500%Z, Some done)] |} in
  runCheck i = ([Stdout (lit "report")], Exits 1) /\
  ((1%Z = 1%Z /\ exists n, last [Stdout (lit "report")] = Some (Stderr n)) \/
   exists st,
     In st (answers i) /\
     isComplete st = true /\
     last [Stdout (lit "report")] = Some (Stdout (output st)) /\
     1%Z = (if hasErrors st then 1 else 0)%Z).
Proof.
  cbv zeta. split; [reflexivity|].
  apply (check_reports_only_complete_snapshots
           {| ci := false; running1 := true; running2 := true;
              direct := (true, []);
              first := Some {| output := lit "old"; hasErrors := false;
                               hasWarnings := false; isComplete := false;
                               lastUpdate := 1 |};
              startTime := 1000;
              turns := [(1000%Z, Some {| output := lit "old"; hasErrors := false;
                                         hasWarnings := false; isComplete := false;
                                         lastUpdate := 1 |});
                        (1500%Z, Some {| output := lit "report"; hasErrors := true;
                                         hasWarnings := false; isComplete := true;
                                         lastUpdate := 2 |})] |}
           [Stdout (lit "report")] 1); reflexivity.
Defined.

Lemma poll_ends start status turns :
  (exists now answer, In (now, answer) turns /\ (start + 120000 <= now)%Z) ->
  exists code, snd (poll start status turns) = Exits code.
Proof.
  revert status. induction turns as [|[now answer] turns IH]; intros status.
  - intros (n & a & [] & _).
  - intros (n & a & Hin & Hlate). simpl.
    destruct (isComplete status); [unfold report; simpl; eauto|].
    destruct (Z.ltb_spec (now - start) 120000) as [Early|Late]; [|simpl; eauto].
    destruct answer as [status'|]; [|simpl; eauto].
    apply IH. destruct Hin as [E|Hin]; [|eauto].
    injection E as <- <-. lia.
Qed.

(** X17.  The wait of [check] is bounded by the clock: as soon as one
    reading of the clock at the test of the loop is two minutes or more
    after the start of the wait, the command exits, whatever the daemon
    answers then or later. *)
Theorem check_wait_is_bounded (i : CheckInput) :
  (exists now answer,
      In (now, answer) (turns i) /\ (startTime i + 120000 <= now)%Z) ->
  exists code, snd (runCheck i) = Exits code.
Proof.
  intros H. unfold runCheck.
  destruct (negb (running2 i)); [simpl; eauto|].
  destruct (first i) as [status|]; [|simpl; eauto].
  destruct (poll_ends (startTime i) status (turns i) H) as [code E].
  destruct (poll _ _ _) as [said out]. simpl in *. eauto.
Qed.

Lemma check_wait_is_bounded_witness :
  let busy := {| output := []; hasErrors := false; hasWarnings := false;
                 isComplete := false; lastUpdate := 1 |} in
  let i := {| ci := false; running1 := true; running2 := true;
              direct := (true, []); first := Some busy; startTime := 1000;
              turns := [(1000%Z, Some busy); (60000%Z, Some busy);
                        (121000%Z, Some busy); (121500%Z, Some busy)] |} in
  runCheck i = ([Stderr TimedOut], Exits 1) /\
  exists code, snd (runCheck i) = Exits code.
Proof.
  cbv zeta. split; [reflexivity|].
  apply check_wait_is_bounded. simpl.
  eexists 121000%Z, _. split; [right; right; left; reflexivity|lia].
Defined.

(** *** The arguments *)

Section Args.
Variable path_resolve : text -> text.

Lemma isOption_workspace : isOption (lit "--workspace") = true.
Proof. reflexivity. Qed.

Lemma isOption_tsconfig : isOption (lit "--tsconfig") = true.
Proof. reflexivity. Qed.

Lemma parseArgs_step a rest ws ts :
  isOption a = false ->
  parseArgsFrom path_resolve ws ts (a :: rest) =
  parseArgsFrom path_resolve ws ts rest.
Proof.
  intros H. unfold isOption in H. apply orb_false_iff in H as [H1 H2].
  simpl. destruct rest as [|[|c v] rest']; [reflexivity|reflexivity|].
  rewrite H1, H2. reflexivity.
Qed.

Lemma parseArgs_pair_last ws ts v :
  v <> [] ->
  parseArgsFrom path_resolve ws ts [lit "--workspace"; v] = (path_resolve v, ts) /\
  parseArgsFrom path_resolve ws ts [lit "--tsconfig"; v] = (ws, Some v).
Proof.
  intros H. destruct v as [|c v]; [congruence|]. split; reflexivity.
Qed.

Lemma last_option_free (a b : text) (rest : list text) :
  last (a :: b :: rest) = last (b :: rest).
Proof. reflexivity. Qed.

Lemma parseArgs_append n : forall args ws ts v,
  length args <= n ->
  v <> [] ->
  (forall a, last args = Some a -> isOption a = false) ->
  parseArgsFrom path_resolve ws ts (args ++ [lit "--workspace"; v]) =
    (path_resolve v, snd (parseArgsFrom path_resolve ws ts args)) /\
  parseArgsFrom path_resolve ws ts (args ++ [lit "--tsconfig"; v]) =
    (fst (parseArgsFrom path_resolve ws ts args), Some v).
Proof.
  induction n as [|n IH]; intros args ws ts v Hlen Hv Hlast.
  - destruct args; [|simpl in Hlen; lia]. apply parseArgs_pair_last, Hv.
  - destruct args as [|a [|b rest]].
    + apply parseArgs_pair_last, Hv.
    + specialize (Hlast a eq_refl).
      change ([a] ++ ?l) with (a :: l).
      rewrite !(parseArgs_step a _ ws ts Hlast).
      apply (parseArgs_pair_last ws ts v Hv).
    + assert (Hrest : forall x, last rest = Some x -> isOption x = false).
      { intros x Hx. apply Hlast. destruct rest; [discriminate|exact Hx]. }
      assert (Hbrest : forall x, last (b :: rest) = Some x -> isOption x = false).
      { intros x Hx. apply Hlast. exact Hx. }
      simpl in Hlen.
      change ((a :: b :: rest) ++ ?l) with (a :: b :: (rest ++ l)).
      destruct b as [|c w].
      * simpl. apply (IH ([] :: rest) ws ts v); [simpl; lia|exact Hv|exact Hbrest].
      * simpl.
        destruct (bool_decide (a = lit "--workspace"));
          [apply IH; [lia|exact Hv|exact Hrest]|].
        destruct (bool_decide (a = lit "--tsconfig"));
          [apply IH; [lia|exact Hv|exact Hrest]|].
        apply (IH ((c :: w) :: rest) ws ts v); [simpl; lia|exact Hv|exact Hbrest].
Qed.

(** X18.  An option given last on the command line, with a value that is
    not empty, wins over what stands before it and leaves the other option
    as the arguments before it set it, provided the argument just before it
    is not itself an option name (which would take the option for its
    value). *)
Theorem last_option_wins (cwd v : text) (args : list text) :
  v <> [] ->
  (forall a, last args = Some a -> isOption a = false) ->
  parseArgs path_resolve cwd (args ++ [lit "--workspace"; v]) =
    (path_resolve v, snd (parseArgs path_resolve cwd args)) /\
  parseArgs path_resolve cwd (args ++ [lit "--tsconfig"; v]) =
    (fst (parseArgs path_resolve cwd args), Some v).
Proof.
  intros Hv Hlast. unfold parseArgs.
  apply (parseArgs_append (length args)); auto.
Qed.

End Args.

Lemma last_option_wins_witness :
  let resolve := fun p : text => lit "/abs/" ++ p in
  parseArgs resolve (lit "/cwd")
    ([lit "check"; lit "--workspace"; lit "a"; lit "--tsconfig"; lit "t.json"] ++
     [lit "--workspace"; lit "b"]) = (lit "/abs/b", Some (lit "t.json")).
Proof.
  cbv zeta.
  destruct (last_option_wins (fun p : text => lit "/abs/" ++ p) (lit "/cwd")
              (lit "b")
              [lit "check"; lit "--workspace"; lit "a"; lit "--tsconfig";
               lit "t.json"]) as [W _].
  - discriminate.
  - intros a [= <-]. reflexivity.
  - rewrite W. reflexivity.
Defined.

End CliMore.

(** ** Buffers: decoding, and the parser behind it *)

Module DecodeFacts.
Import Utf8.

Lemma decode_app st a b :
  run st (a ++ b) =
  (fst (run st a) ++ fst (run (snd (run st a)) b), snd (run (snd (run st a)) b)).
Proof.
  revert st. induction a as [|x a IH]; intros st; simpl.
  - destruct (run st b); reflexivity.
  - destruct (step st (Byte.to_N x)) as [o1 st1]. rewrite IH.
    destruct (run st1 a) as [o2 st2]. simpl.
    destruct (run st2 b) as [o3 st3]. simpl.
    rewrite app_assoc. reflexivity.
Qed.

(** A buffer that ends where a character ends can be decoded apart from
    what follows it. *)
Lemma toString_app a b :
  endsBetweenCharacters a -> toString (a ++ b) = toString a ++ toString b.
Proof.
  unfold endsBetweenCharacters, toString. intros H. rewrite decode_app, H.
  destruct (run Start a) as [o1 st1]. simpl in *. subst st1.
  destruct (run Start b) as [o2 st2]. simpl.
  rewrite app_nil_r, app_assoc. reflexivity.
Qed.

Lemma toString_nil : toString [] = [].
Proof. reflexivity. Qed.

(** Chunks that end where a character ends, the last one apart, decode one
    by one to what the whole stream decodes to. *)
Lemma toString_concat (chunks : list bytes) :
  Forall endsBetweenCharacters (removelast chunks) ->
  concat (map toString chunks) = toString (concat chunks).
Proof.
  induction chunks as [|c rest IH]; intros H; [reflexivity|].
  destruct rest as [|c' rest].
  - simpl. rewrite !app_nil_r. reflexivity.
  - change (removelast (c :: c' :: rest)) with (c :: removelast (c' :: rest)) in H.
    apply Forall_cons in H as [Hc H].
    change (concat (map toString (c :: c' :: rest)))
      with (toString c ++ concat (map toString (c' :: rest))).
    change (concat (c :: c' :: rest)) with (c ++ concat (c' :: rest)).
    rewrite (IH H), toString_app by exact Hc. reflexivity.
Qed.

(** The code units of a string keep its units apart. *)
Lemma ofText_inj (a b : Js.text) : Wide.ofText a = Wide.ofText b -> a = b.
Proof.
  revert b. induction a as [|x a IH]; intros [|y b]; simpl; try discriminate.
  - reflexivity.
  - intros [= E H]. apply Nat2N.inj in E. unfold Js.code in E.
    rewrite <- (ascii_nat_embedding x), <- (ascii_nat_embedding y), E.
    f_equal. apply IH, H.
Qed.

Lemma ofText_concat (ss : list Js.text) :
  Wide.ofText (concat ss) = concat (map Wide.ofText ss).
Proof.
  induction ss as [|x ss IH]; [reflexivity|].
  simpl. unfold Wide.ofText in *. rewrite map_app, IH. reflexivity.
Qed.

End DecodeFacts.

Module WideFacts.
Import Utf8 Wide.

Lemma wide_split_cut (s : wtext) :
  split LF s = fst (cut s) ++ [snd (cut s)].
Proof.
  induction s as [|c s IH]; [reflexivity|].
  simpl. rewrite IH. destruct (cut s) as [ls r]. simpl.
  destruct (c =? LF)%N; [reflexivity|].
  destruct ls; reflexivity.
Qed.

Lemma wide_pop_split (s : wtext) :
  Js.pop (split LF s) = (Some (snd (cut s)), fst (cut s)).
Proof. rewrite wide_split_cut. apply SplitFacts.pop_snoc. Qed.

Lemma wide_cut_app (a b : wtext) :
  cut (a ++ b) =
  (fst (cut a) ++ fst (cut (snd (cut a) ++ b)), snd (cut (snd (cut a) ++ b))).
Proof.
  induction a as [|c a IH]; simpl.
  - destruct (cut b); reflexivity.
  - rewrite IH. destruct (cut a) as [l1 r1]. simpl.
    destruct (c =? LF)%N eqn:E; [reflexivity|].
    destruct l1 as [|l l1]; simpl; [|reflexivity].
    rewrite E. destruct (cut (r1 ++ b)) as [l2 r2]. simpl.
    destruct l2; reflexivity.
Qed.

Lemma wide_cut_tail_no_LF (s : wtext) : LF ∉ snd (cut s).
Proof.
  induction s as [|c s IH]; simpl.
  - apply not_elem_of_nil.
  - destruct (cut s) as [ls r]. simpl in *.
    destruct (c =? LF)%N eqn:E; [exact IH|].
    destruct ls; simpl; [|exact IH].
    rewrite elem_of_cons. intros [Hc|H]; [|auto].
    rewrite <- Hc, N.eqb_refl in E. discriminate.
Qed.

Lemma wide_cut_no_LF (s : wtext) : LF ∉ s -> cut s = ([], s).
Proof.
  induction s as [|c s IH]; [reflexivity|].
  rewrite not_elem_of_cons. intros [Hc Hs]. simpl. rewrite (IH Hs).
  destruct (c =? LF)%N eqn:E; [|reflexivity].
  apply N.eqb_eq in E. congruence.
Qed.

Lemma wide_finalized_app (a b : list Transition) :
  finalized (a ++ b) = finalized a ++ finalized b.
Proof.
  induction a as [|[s|s] a IH]; simpl; [reflexivity|exact IH|].
  f_equal. exact IH.
Qed.

Lemma wide_views_app (a b : list Transition) :
  views (a ++ b) = views a ++ views b.
Proof. unfold views. rewrite wide_finalized_app. apply map_app. Qed.

(** *** One line *)

Lemma wide_handleLine_lineBuffer now d l :
  lineBuffer (fst (handleLine now d l)) = lineBuffer d.
Proof.
  unfold handleLine.
  destruct (exec summaryRe l) as [[|e [|w [|? ?]]]|]; reflexivity.
Qed.

Lemma wide_handleLine_sim now now' d d' l :
  currentOutput d = currentOutput d' ->
  currentOutput (fst (handleLine now d l)) =
  currentOutput (fst (handleLine now' d' l)) /\
  views (snd (handleLine now d l)) = views (snd (handleLine now' d' l)).
Proof.
  intros Hc. unfold handleLine.
  destruct (exec summaryRe l) as [[|e [|w [|? ?]]]|]; simpl;
    rewrite ?Hc; auto.
Qed.

(** *** A run of lines *)

Lemma wide_handleLines_app now d l1 l2 :
  handleLines now d (l1 ++ l2) =
  (fst (handleLines now (fst (handleLines now d l1)) l2),
   snd (handleLines now d l1) ++
   snd (handleLines now (fst (handleLines now d l1)) l2)).
Proof.
  revert d. induction l1 as [|l l1 IH]; intros d; simpl.
  - destruct (handleLines now d l2); reflexivity.
  - destruct (handleLine now d l) as [d1 w1]. rewrite IH.
    destruct (handleLines now d1 l1) as [d2 w2]. simpl.
    destruct (handleLines now d2 l2) as [d3 w3]. simpl.
    rewrite app_assoc. reflexivity.
Qed.

Lemma wide_handleLines_lineBuffer now d ls :
  lineBuffer (fst (handleLines now d ls)) = lineBuffer d.
Proof.
  revert d. induction ls as [|l ls IH]; intros d; simpl; [reflexivity|].
  pose proof (wide_handleLine_lineBuffer now d l) as H.
  destruct (handleLine now d l) as [d1 w1]. specialize (IH d1).
  destruct (handleLines now d1 ls) as [d2 w2]. simpl in *. congruence.
Qed.

Lemma wide_handleLines_sim now now' d d' ls :
  currentOutput d = currentOutput d' ->
  currentOutput (fst (handleLines now d ls)) =
  currentOutput (fst (handleLines now' d' ls)) /\
  views (snd (handleLines now d ls)) = views (snd (handleLines now' d' ls)).
Proof.
  revert d d'. induction ls as [|l ls IH]; intros d d' H; simpl; [auto|].
  destruct (wide_handleLine_sim now now' d d' l H) as [H1 V1].
  destruct (handleLine now d l) as [d1 w1].
  destruct (handleLine now' d' l) as [d1' w1'].
  destruct (IH d1 d1' H1) as [H2 V2].
  destruct (handleLines now d1 ls) as [d2 w2].
  destruct (handleLines now' d1' ls) as [d2' w2']. simpl in *.
  split; [exact H2|]. rewrite !wide_views_app. congruence.
Qed.

(** *** One chunk, decoded *)

Lemma wide_noteStarted_buffers now d data :
  currentOutput (fst (noteStarted now d data)) = currentOutput d /\
  lineBuffer (fst (noteStarted now d data)) = lineBuffer d /\
  views (snd (noteStarted now d data)) = [].
Proof.
  unfold noteStarted. destruct (includes data startedMarker); auto.
Qed.

Lemma wide_handleOutput_cut now d data :
  handleOutput now d data =
  let d0 := fst (noteStarted now d data) in
  let c := cut (lineBuffer d0 ++ data) in
  let r := handleLines now
             {| lastCompleteState := lastCompleteState d0;
                currentOutput := currentOutput d0;
                lineBuffer := snd c |} (fst c) in
  (fst r, snd (noteStarted now d data) ++ snd r).
Proof.
  unfold handleOutput. destruct (noteStarted now d data) as [d0 w0].
  rewrite wide_pop_split. simpl.
  destruct (handleLines _ _ _). reflexivity.
Qed.

Lemma wide_handleOutput_lineBuffer now d data :
  lineBuffer (fst (handleOutput now d data)) = snd (cut (lineBuffer d ++ data)).
Proof.
  rewrite wide_handleOutput_cut. simpl. rewrite wide_handleLines_lineBuffer. simpl.
  destruct (wide_noteStarted_buffers now d data) as (_ & -> & _). reflexivity.
Qed.

Lemma wide_handleOutput_proj now now' d d0 data :
  currentOutput d0 = currentOutput d ->
  let ls := fst (cut (lineBuffer d ++ data)) in
  currentOutput (fst (handleOutput now d data)) =
  currentOutput (fst (handleLines now' d0 ls)) /\
  views (snd (handleOutput now d data)) = views (snd (handleLines now' d0 ls)).
Proof.
  intros H. rewrite wide_handleOutput_cut. simpl.
  destruct (wide_noteStarted_buffers now d data) as (C1 & B1 & V1).
  rewrite wide_views_app, V1, B1. simpl.
  apply wide_handleLines_sim. simpl. congruence.
Qed.

Lemma wide_handleOutput_sim now now' d d' data :
  sim d d' ->
  sim (fst (handleOutput now d data)) (fst (handleOutput now' d' data)) /\
  views (snd (handleOutput now d data)) = views (snd (handleOutput now' d' data)).
Proof.
  intros [Hc Hb]. unfold sim. rewrite !wide_handleOutput_lineBuffer, Hb.
  destruct (wide_handleOutput_proj now now d d data eq_refl) as [C1 V1].
  destruct (wide_handleOutput_proj now' now d' d data Hc) as [C2 V2].
  rewrite Hb in C1, V1. simpl in *. rewrite C1, C2, V1, V2. auto.
Qed.

(** Two strings in a row do what their concatenation does. *)
Lemma wide_handleOutput_app n1 n2 n d c1 c2 :
  let r1 := handleOutput n1 d c1 in
  let r2 := handleOutput n2 (fst r1) c2 in
  let r := handleOutput n d (c1 ++ c2) in
  sim (fst r2) (fst r) /\ views (snd r1 ++ snd r2) = views (snd r).
Proof.
  simpl. unfold sim.
  destruct (wide_handleOutput_proj n1 n d d c1 eq_refl) as [C1 V1].
  destruct (wide_handleOutput_proj n n d d (c1 ++ c2) eq_refl) as [C V].
  rewrite app_assoc, wide_cut_app in C, V. simpl in C, V.
  rewrite wide_handleLines_app in C, V. simpl in C, V.
  assert (B : lineBuffer (fst (handleOutput n2 (fst (handleOutput n1 d c1)) c2)) =
              lineBuffer (fst (handleOutput n d (c1 ++ c2)))).
  { rewrite !wide_handleOutput_lineBuffer, (app_assoc (lineBuffer d)).
    rewrite (wide_cut_app (lineBuffer d ++ c1)). reflexivity. }
  set (l1 := fst (cut (lineBuffer d ++ c1))) in *.
  set (t1 := snd (cut (lineBuffer d ++ c1))) in *.
  destruct (wide_handleOutput_proj n2 n (fst (handleOutput n1 d c1))
              (fst (handleLines n d l1)) c2 (eq_sym C1)) as [C2 V2].
  rewrite wide_handleOutput_lineBuffer in C2, V2. fold t1 in C2, V2. simpl in C2, V2.
  rewrite wide_views_app, C, V, wide_views_app, C2, V2, V1. auto.
Qed.

Lemma wide_handleOutput_nil now d :
  LF ∉ lineBuffer d -> handleOutput now d [] = (d, []).
Proof.
  intros H. rewrite wide_handleOutput_cut. unfold noteStarted.
  change (includes [] startedMarker) with false.
  simpl. rewrite app_nil_r, (wide_cut_no_LF _ H).
  simpl. destruct d; reflexivity.
Qed.

(** *** A stream of chunks *)

(** The chunks, each decoded on its own, do what the strings they decode to
    do in one piece. *)
Lemma wide_feed_joined d d' chunks now :
  LF ∉ lineBuffer d -> sim d d' ->
  let r := feed d chunks in
  let r' := handleOutput now d' (concat (map (fun c => toString (snd c)) chunks)) in
  sim (fst r) (fst r') /\ views (snd r) = views (snd r').
Proof.
  revert d d'. induction chunks as [|[n c] rest IH]; intros d d' HLF Hsim; simpl.
  - destruct Hsim as [Hc Hb]. rewrite wide_handleOutput_nil by congruence.
    simpl. split; [split; assumption|reflexivity].
  - unfold onData.
    pose proof (wide_handleOutput_lineBuffer n d (toString c)) as B.
    destruct (wide_handleOutput_app n now now d (toString c)
                (concat (map (fun c => toString (snd c)) rest))) as [S1 V1].
    destruct (wide_handleOutput_sim now now d d'
                (toString c ++ concat (map (fun c => toString (snd c)) rest)) Hsim)
      as [S2 V2].
    destruct (handleOutput n d (toString c)) as [d1 w1]. simpl in *.
    assert (H1 : LF ∉ lineBuffer d1) by (rewrite B; apply wide_cut_tail_no_LF).
    destruct (IH d1 d1 H1 (conj eq_refl eq_refl)) as [S3 V3].
    destruct (feed d1 rest) as [d2 w2]. simpl in *.
    unfold sim in *. rewrite wide_views_app in *.
    split; [split; intuition congruence|].
    rewrite V3. congruence.
Qed.

End WideFacts.

(** ** The parser on all code units and the parser on those below 256 *)

Module Latin1Facts.
Import Utf8 Latin1.

Local Abbreviation W := Wide.ofText.

Lemma unit_eqb (a b : ascii) :
  (N.of_nat (Js.code a) =? N.of_nat (Js.code b))%N = Js.eqc a b.
Proof.
  unfold Js.eqc, Js.code. destruct (Ascii.eqb_spec a b) as [->|Hne].
  - apply N.eqb_refl.
  - apply N.eqb_neq. intros E. apply Nat2N.inj in E. apply Hne.
    rewrite <- (ascii_nat_embedding a), <- (ascii_nat_embedding b), E.
    reflexivity.
Qed.

Lemma unit_digit (c : ascii) :
  Wide.is_digit (N.of_nat (Js.code c)) = Js.is_digit c.
Proof. destruct c as [[] [] [] [] [] [] [] []]; reflexivity. Qed.

Lemma unit_space (c : ascii) :
  Wide.is_space (N.of_nat (Js.code c)) = Js.is_space c.
Proof. destruct c as [[] [] [] [] [] [] [] []]; reflexivity. Qed.

Lemma unit_equals (c : ascii) :
  (61 =? N.of_nat (Js.code c))%N = Js.eqc "=" c.
Proof. exact (unit_eqb "=" c). Qed.

Lemma W_app (a b : Js.text) : W (a ++ b) = W a ++ W b.
Proof. apply map_app. Qed.

Lemma W_length (s : Js.text) : length (W s) = length s.
Proof. apply length_map. Qed.

Lemma W_take n (s : Js.text) : take n (W s) = W (take n s).
Proof.
  revert n. induction s as [|c s IH]; intros [|n]; simpl; try reflexivity.
  f_equal. apply IH.
Qed.

(** *** Strings *)

Lemma startsWith_same (s p : Js.text) :
  Wide.startsWith (W s) (W p) = Js.startsWith s p.
Proof.
  revert s. induction p as [|a p IH]; intros [|b s]; simpl; try reflexivity.
  rewrite unit_eqb, IH. reflexivity.
Qed.

Lemma includes_same (s p : Js.text) :
  Wide.includes (W s) (W p) = Js.includes s p.
Proof.
  induction s as [|c s IH].
  - change (Wide.startsWith (W []) (W p) || false =
            Js.startsWith [] p || false).
    rewrite startsWith_same. reflexivity.
  - change (Wide.startsWith (W (c :: s)) (W p) || Wide.includes (W s) (W p) =
            Js.startsWith (c :: s) p || Js.includes s p).
    rewrite startsWith_same, IH. reflexivity.
Qed.

Lemma split_same (s : Js.text) :
  Wide.split Wide.LF (W s) = map W (Js.split Daemon.LF s).
Proof.
  induction s as [|c s IH]; [reflexivity|].
  simpl. change Wide.LF with (N.of_nat (Js.code Daemon.LF)).
  rewrite unit_eqb. change (N.of_nat (Js.code Daemon.LF)) with Wide.LF.
  rewrite IH. destruct (Js.eqc c Daemon.LF); [reflexivity|].
  destruct (Js.split Daemon.LF s); reflexivity.
Qed.

Lemma last_map {A B} (f : A -> B) (l : list A) :
  last (map f l) = option_map f (last l).
Proof.
  induction l as [|x l IH]; [reflexivity|].
  destruct l as [|y l]; [reflexivity|]. exact IH.
Qed.

Lemma removelast_map {A B} (f : A -> B) (l : list A) :
  removelast (map f l) = map f (removelast l).
Proof.
  induction l as [|x l IH]; [reflexivity|].
  destruct l as [|y l]; [reflexivity|].
  change (f x :: removelast (map f (y :: l)) = f x :: map f (removelast (y :: l))).
  f_equal. exact IH.
Qed.

Lemma trimEnd_same (s : Js.text) : Wide.trimEnd (W s) = W (Js.trimEnd s).
Proof.
  induction s as [|c s IH]; [reflexivity|].
  simpl. rewrite IH.
  destruct (Js.trimEnd s); simpl; [|reflexivity].
  rewrite unit_space. destruct (Js.is_space c); reflexivity.
Qed.

Lemma parseInt_same (ds : Js.text) : Wide.parseInt (W ds) = Js.parseInt ds.
Proof.
  unfold Wide.parseInt, Js.parseInt. generalize 0%N.
  induction ds as [|c ds IH]; intros acc; [reflexivity|].
  simpl. rewrite IH. f_equal. unfold Js.digit_val. lia.
Qed.

(** *** Expressions *)

Lemma lit_here_same (l s : Js.text) :
  Wide.lit_here (W l) (W s) = option_map W (Re.lit_here l s).
Proof.
  revert s. induction l as [|a l IH]; intros [|b s]; simpl; try reflexivity.
  rewrite unit_eqb. destruct (Js.eqc a b); [apply IH|reflexivity].
Qed.

Lemma rep_same p p' s :
  (forall c, p' (N.of_nat (Js.code c)) = p c) ->
  forall min k k',
    (forall s', k' (W s') = ofResult (k s')) ->
    Wide.rep p' min (W s) k' = ofResult (Re.rep p min s k).
Proof.
  intros Hp. induction s as [|c s IH]; intros min k k' Hk; simpl.
  - change (@nil N) with (W []). rewrite Hk. destruct (min =? 0)%nat; reflexivity.
  - change (N.of_nat (Js.code c) :: W s) with (W (c :: s)).
    rewrite Hp, Hk. destruct (p c).
    + rewrite (IH (pred min) k k' Hk).
      destruct (Re.rep p (pred min) s k) as [[? ?]|]; [reflexivity|].
      simpl. destruct (min =? 0)%nat; reflexivity.
    + destruct (min =? 0)%nat; reflexivity.
Qed.

Lemma matchk_same r r' :
  same r r' ->
  forall s caps k k',
    (forall s' caps', k' (W s') (map W caps') = ofResult (k s' caps')) ->
    Wide.matchk r' (W s) (map W caps) k' = ofResult (Re.matchk r s caps k).
Proof.
  induction 1 as [l|p p' min Hp|r r' _ IH|r1 r1' r2 r2' _ IH1 _ IH2|r r' _ IH];
    intros s caps k k' Hk; simpl.
  - rewrite lit_here_same. destruct (Re.lit_here l s); simpl; [apply Hk|reflexivity].
  - apply rep_same; [exact Hp|]. intros s'. apply Hk.
  - rewrite (IH s caps k k' Hk).
    destruct (Re.matchk r s caps k) as [[? ?]|]; [reflexivity|]. apply Hk.
  - apply IH1. intros s' caps'. apply IH2, Hk.
  - apply IH. intros s' caps'.
    rewrite !W_length, W_take.
    change [W (take (length s - length s') s)]
      with (map W [take (length s - length s') s]).
    rewrite <- map_app. apply Hk.
Qed.

Lemma match_here_same r r' s :
  same r r' -> Wide.match_here r' (W s) = ofResult (Re.match_here r s).
Proof.
  intros H. unfold Wide.match_here, Re.match_here.
  change (@nil wtext) with (map W []).
  apply (matchk_same _ _ H). reflexivity.
Qed.

Lemma exec_same r r' s :
  same r r' -> Wide.exec r' (W s) = option_map (map W) (Re.exec r s).
Proof.
  intros H. induction s as [|c s IH]; simpl.
  - change (@nil N) with (W []). rewrite (match_here_same _ _ _ H).
    destruct (Re.match_here r []) as [[? ?]|]; reflexivity.
  - change (N.of_nat (Js.code c) :: W s) with (W (c :: s)).
    rewrite (match_here_same _ _ _ H).
    destruct (Re.match_here r (c :: s)) as [[? ?]|]; [reflexivity|exact IH].
Qed.

Lemma match_len_same r r' s :
  same r r' -> Wide.match_len r' (W s) = Re.match_len r s.
Proof.
  intros H. unfold Wide.match_len, Re.match_len.
  rewrite (match_here_same _ _ _ H).
  destruct (Re.match_here r s) as [[? ?]|]; simpl; [|reflexivity].
  rewrite !W_length. reflexivity.
Qed.

Lemma remove_from_same r r' :
  same r r' ->
  forall s skip, Wide.remove_from r' skip (W s) = W (Re.remove_from r skip s).
Proof.
  intros H. induction s as [|c s IH]; intros skip; [reflexivity|].
  simpl. destruct skip as [|n]; [|apply IH].
  change (N.of_nat (Js.code c) :: W s) with (W (c :: s)).
  rewrite (match_len_same _ _ _ H).
  destruct (Re.match_len r (c :: s)) as [[|n]|]; rewrite IH; reflexivity.
Qed.

Lemma summaryRe_same : same Daemon.summaryRe Wide.summaryRe.
Proof. repeat constructor; apply unit_digit. Qed.

Lemma separatorRe_same : same Daemon.separatorRe Wide.separatorRe.
Proof. repeat constructor. apply unit_equals. Qed.

Lemma watchingRe_same : same Daemon.watchingRe Wide.watchingRe.
Proof. repeat constructor. Qed.

Lemma cleanOutput_same (acc : Js.text) :
  Wide.cleanOutput (W acc) = W (Daemon.cleanOutput acc).
Proof.
  unfold Wide.cleanOutput, Daemon.cleanOutput, Wide.remove_all, Re.remove_all.
  rewrite (remove_from_same _ _ separatorRe_same),
          (remove_from_same _ _ watchingRe_same).
  apply trimEnd_same.
Qed.

(** *** The parser *)

Lemma handleLine_same now d l :
  Wide.handleLine now (ofParser d) (W l) =
  (ofParser (fst (Daemon.handleLine now d l)),
   map ofTransition (snd (Daemon.handleLine now d l))).
Proof.
  unfold Wide.handleLine, Daemon.handleLine.
  rewrite (exec_same _ _ _ summaryRe_same).
  destruct (Re.exec Daemon.summaryRe l) as [[|e [|w [|? ?]]]|]; simpl;
    unfold ofParser, ofState; simpl;
    rewrite ?W_app, ?parseInt_same; try reflexivity.
  rewrite <- cleanOutput_same. rewrite !W_app. reflexivity.
Qed.

Lemma handleLines_same now d ls :
  Wide.handleLines now (ofParser d) (map W ls) =
  (ofParser (fst (Daemon.handleLines now d ls)),
   map ofTransition (snd (Daemon.handleLines now d ls))).
Proof.
  revert d. induction ls as [|l ls IH]; intros d; [reflexivity|].
  simpl. rewrite handleLine_same.
  destruct (Daemon.handleLine now d l) as [d1 w1]. simpl. rewrite IH.
  destruct (Daemon.handleLines now d1 ls) as [d2 w2]. simpl.
  rewrite map_app. reflexivity.
Qed.

Lemma noteStarted_same now d data :
  Wide.noteStarted now (ofParser d) (W data) =
  (ofParser (fst (Daemon.noteStarted now d data)),
   map ofTransition (snd (Daemon.noteStarted now d data))).
Proof.
  unfold Wide.noteStarted, Daemon.noteStarted.
  change Wide.startedMarker with (W Daemon.startedMarker).
  rewrite includes_same.
  destruct (Js.includes data Daemon.startedMarker); reflexivity.
Qed.

(** On a string whose code units are below 256 the parser on all code
    units does what the parser of [Daemon] does. *)
Theorem handleOutput_same (now : N) (d : Daemon.t) (data : Js.text) :
  Wide.handleOutput now (ofParser d) (W data) =
  (ofParser (fst (Daemon.handleOutput now d data)),
   map ofTransition (snd (Daemon.handleOutput now d data))).
Proof.
  unfold Wide.handleOutput, Daemon.handleOutput.
  rewrite noteStarted_same.
  destruct (Daemon.noteStarted now d data) as [d0 w0]. cbn [fst snd].
  change (Wide.lineBuffer (ofParser d0)) with (W (Daemon.lineBuffer d0)).
  rewrite <- W_app, split_same. unfold Js.pop.
  rewrite last_map, removelast_map.
  set (tail := last (Js.split Daemon.LF (Daemon.lineBuffer d0 ++ data))).
  set (lines := removelast (Js.split Daemon.LF (Daemon.lineBuffer d0 ++ data))).
  assert (T : default [] (option_map W tail) = W (default [] tail))
    by (destruct tail; reflexivity).
  rewrite T.
  change {| Wide.lastCompleteState := Wide.lastCompleteState (ofParser d0);
            Wide.currentOutput := Wide.currentOutput (ofParser d0);
            Wide.lineBuffer := W (default [] tail) |}
    with (ofParser (Daemon.set_lineBuffer (default [] tail) d0)).
  rewrite handleLines_same.
  destruct (Daemon.handleLines now _ lines) as [d2 w2]. cbn [fst snd].
  rewrite map_app. reflexivity.
Qed.

End Latin1Facts.

(** ** The output parser and the chunks of bytes *)

Module ByteClaims.
Import Utf8 Wide DecodeFacts WideFacts.

(** C1 fails as worded.  A report names a file [cafe.svelte], spelt with
    U+00E9 for its last letter; the two bytes of this letter arrive in two
    chunks.  Each chunk is decoded on its own, each half of the character
    becomes U+FFFD, and the committed [output] has two U+FFFD where the
    report in one chunk has the character. *)
Lemma byte_cut_inside_a_character :
  let stream := ascii_bytes "/w/src/caf" ++ [Byte.xc3; Byte.xa9] ++
                ascii_bytes ".svelte:1:1" ++ [Byte.x0a] ++
                ascii_bytes "svelte-check found 1 error and 0 warnings" ++
                [Byte.x0a] in
  let chunks := [(1%N, ascii_bytes "/w/src/caf" ++ [Byte.xc3]);
                 (2%N, [Byte.xa9] ++ ascii_bytes ".svelte:1:1" ++ [Byte.x0a] ++
                       ascii_bytes "svelte-check found 1 error and 0 warnings" ++
                       [Byte.x0a])] in
  wellFormed stream /\
  concat (map snd chunks) = stream /\
  map output (finalized (snd (onData 3 (create 0) stream))) =
    [lit "/w/src/caf" ++ [233%N] ++ lit ".svelte:1:1" ++ [LF] ++
     lit "svelte-check found 1 error and 0 warnings"] /\
  map output (finalized (snd (feed (create 0) chunks))) =
    [lit "/w/src/caf" ++ [REPLACEMENT; REPLACEMENT] ++ lit ".svelte:1:1" ++
     [LF] ++ lit "svelte-check found 1 error and 0 warnings"] /\
  ~ chunking_never_matters.
Proof.
  cbv zeta.
  assert (W : wellFormed
                (ascii_bytes "/w/src/caf" ++ [Byte.xc3; Byte.xa9] ++
                 ascii_bytes ".svelte:1:1" ++ [Byte.x0a] ++
                 ascii_bytes "svelte-check found 1 error and 0 warnings" ++
                 [Byte.x0a])).
  { unfold wellFormed. intros Hin. apply list_elem_of_In in Hin.
    vm_compute in Hin. intuition discriminate. }
  split; [exact W|]. split; [reflexivity|].
  split; [vm_compute; reflexivity|]. split; [vm_compute; reflexivity|].
  intros H.
  specialize (H _ [(1%N, ascii_bytes "/w/src/caf" ++ [Byte.xc3]);
                   (2%N, [Byte.xa9] ++ ascii_bytes ".svelte:1:1" ++ [Byte.x0a] ++
                         ascii_bytes "svelte-check found 1 error and 0 warnings" ++
                         [Byte.x0a])] 3%N W eq_refl).
  vm_compute in H. discriminate.
Qed.

(** C1, amended.  However a stream of bytes is cut into chunks that end
    where a character ends (the last chunk may end anywhere), handing the
    chunks to the listener in order commits the same finalized snapshots, in
    the same order and with the same [output], [hasErrors], [hasWarnings]
    and [isComplete], as handing it the stream as one chunk.  The parser
    may be in any state whose line buffer holds no line feed, which is every
    state it reaches. *)
Theorem chunk_boundaries_between_characters (d : t)
    (chunks : list (N * bytes)) (now : N) :
  LF ∉ lineBuffer d ->
  Forall endsBetweenCharacters (removelast (map snd chunks)) ->
  map view (finalized (snd (feed d chunks))) =
  map view (finalized (snd (onData now d (concat (map snd chunks))))).
Proof.
  intros HLF Hb. unfold onData.
  rewrite <- (toString_concat _ Hb), map_map.
  exact (proj2 (wide_feed_joined d d chunks now HLF (conj eq_refl eq_refl))).
Qed.

Lemma chunk_boundaries_between_characters_witness :
  let chunks := [(1%N, ascii_bytes "/w/src/caf");
                 (2%N, [Byte.xc3; Byte.xa9]);
                 (3%N, ascii_bytes ".svelte:1:1" ++ [Byte.x0a] ++
                       ascii_bytes "svelte-check found 1 er");
                 (4%N, ascii_bytes "ror and 0 warnings" ++ [Byte.x0a])] in
  Forall endsBetweenCharacters (removelast (map snd chunks)) /\
  length (finalized (snd (feed (create 0) chunks))) = 1%nat /\
  map view (finalized (snd (feed (create 0) chunks))) =
  map view (finalized (snd (onData 9 (create 0) (concat (map snd chunks))))).
Proof.
  cbv zeta.
  assert (B : Forall endsBetweenCharacters
                (removelast
                   (map snd
                      [(1%N, ascii_bytes "/w/src/caf");
                       (2%N, [Byte.xc3; Byte.xa9]);
                       (3%N, ascii_bytes ".svelte:1:1" ++ [Byte.x0a] ++
                             ascii_bytes "svelte-check found 1 er");
                       (4%N, ascii_bytes "ror and 0 warnings" ++ [Byte.x0a])])))
    by (repeat constructor).
  split; [exact B|]. split; [vm_compute; reflexivity|].
  apply (chunk_boundaries_between_characters (create 0) _ 9
           (not_elem_of_nil _) B).
Defined.

End ByteClaims.

(** ** A query from end to end, and the text between finalizes *)

Module EndToEnd.
Import Js Re Daemon Client Spec SplitFacts ParserFacts MoreSpec DecodeFacts.

#[local] Arguments lit : simpl never.

Section Query.
Variable path_join : list text -> text.
Variable existsSync : text -> bool.
Variable JSON_parse : text -> option DaemonState.

Lemma run_append q evs evs' :
  run JSON_parse q (evs ++ evs') = run JSON_parse (run JSON_parse q evs) evs'.
Proof. apply fold_left_app. Qed.

Lemma run_data q chunks :
  socket q = SockOpen ->
  run JSON_parse q (map EvData chunks) =
  set_data (data q ++ concat chunks) q.
Proof.
  revert q. induction chunks as [|c chunks IH]; intros q H.
  - simpl. rewrite app_nil_r. destruct q; reflexivity.
  - change (run JSON_parse q (map EvData (c :: chunks)))
      with (run JSON_parse (dispatch JSON_parse q (EvData c)) (map EvData chunks)).
    assert (E : dispatch JSON_parse q (EvData c) = set_data (data q ++ c) q).
    { unfold dispatch. rewrite H. destruct (timer q); reflexivity. }
    rewrite E, IH by exact H. simpl. rewrite <- app_assoc. reflexivity.
Qed.

(** X19.  A query goes through from end to end: the request the client
    writes on connecting is one the server answers, with the serialized
    current snapshot and the end of the connection.  The client appends the
    string each chunk decodes to on its own: when the chunks end where a
    character ends (the last one may end anywhere) and the bytes of all of
    them are those of the answer, the client hands [JSON.parse] the whole
    answer and resolves with what [JSON.parse] makes of it. *)
Theorem status_query_end_to_end (workspace : text) (d : t)
    (buffers : list Utf8.bytes) (chunks : list text) :
  existsSync (getSocketPath path_join workspace) = true ->
  let q0 := getStatusFromDaemon path_join existsSync workspace in
  let q1 := dispatch JSON_parse q0 EvConnect in
  let payload := Json.stringify (toObject (getState d)) in
  exists request,
    calls q1 = calls q0 ++ [SocketSend request] /\
    onData d request = [SocketWrite payload; SocketEnd] /\
    (map Utf8.toString buffers = map Wide.ofText chunks ->
     Forall Utf8.endsBetweenCharacters (removelast buffers) ->
     Utf8.toString (concat buffers) = Wide.ofText payload ->
     concat chunks = payload /\
     settled (run JSON_parse q1 (map EvData chunks ++ [EvEnd])) =
       Some (JSON_parse payload)).
Proof.
  intros H. cbv zeta. set (payload := Json.stringify (toObject (getState d))).
  unfold getStatusFromDaemon. rewrite H.
  exists (lit "GET_STATUS"). split; [reflexivity|]. split; [reflexivity|].
  intros Dec Cut Whole.
  assert (C : concat chunks = payload).
  { apply ofText_inj.
    rewrite ofText_concat, <- Dec, <- Whole. apply toString_concat, Cut. }
  split; [exact C|].
  rewrite run_append, run_data by reflexivity.
  cbn [data app]. rewrite C. reflexivity.
Qed.

End Query.

Lemma status_query_end_to_end_witness :
  let st := {| output := lit "caf" ++ ["233"%char]; hasErrors := false;
               hasWarnings := false; isComplete := true; lastUpdate := 7 |} in
  let d := set_lastCompleteState st (create 7 (lit "/w") None) in
  let payload := Json.stringify (toObject (getState d)) in
  let parse := fun s => if bool_decide (s = payload) then Some st else None in
  let buffers := [map byte_of_ascii (take 14 payload) ++ [Byte.xc3; Byte.xa9];
                  map byte_of_ascii (take 20 (drop 15 payload));
                  map byte_of_ascii (drop 35 payload)] in
  let chunks := [take 15 payload; take 20 (drop 15 payload); drop 35 payload] in
  map Utf8.toString buffers = map Wide.ofText chunks /\
  settled (run parse
             (dispatch parse
                (getStatusFromDaemon join_slash (fun _ => true) (lit "/w"))
                EvConnect)
             (map EvData chunks ++ [EvEnd]))
  = Some (Some st).
Proof.
  cbv zeta.
  set (st := {| output := lit "caf" ++ ["233"%char]; hasErrors := false;
                hasWarnings := false; isComplete := true; lastUpdate := 7 |}).
  set (d := set_lastCompleteState st (create 7 (lit "/w") None)).
  set (payload := Json.stringify (toObject (getState d))).
  set (parse := fun s => if bool_decide (s = payload) then Some st else None).
  set (buffers := [map byte_of_ascii (take 14 payload) ++ [Byte.xc3; Byte.xa9];
                   map byte_of_ascii (take 20 (drop 15 payload));
                   map byte_of_ascii (drop 35 payload)]).
  set (chunks := [take 15 payload; take 20 (drop 15 payload); drop 35 payload]).
  assert (Dec : map Utf8.toString buffers = map Wide.ofText chunks)
    by (vm_compute; reflexivity).
  split; [exact Dec|].
  destruct (status_query_end_to_end join_slash (fun _ => true) parse
              (lit "/w") d buffers chunks eq_refl) as (request & _ & _ & S).
  destruct (S Dec) as [_ R].
  - repeat constructor.
  - vm_compute. reflexivity.
  - cbv zeta in R. rewrite R. unfold parse.
    rewrite bool_decide_eq_true_2 by reflexivity. reflexivity.
Defined.

(** *** The text between finalizes *)

Lemma cut_text s : s = unlines (fst (cut s)) ++ snd (cut s).
Proof.
  induction s as [|c s IH]; [reflexivity|].
  simpl. destruct (cut s) as [ls r]. simpl in IH.
  destruct (eqc c LF) eqn:E.
  - apply eqc_true in E. subst c. simpl. f_equal. exact IH.
  - destruct ls as [|l ls]; simpl in *; f_equal; exact IH.
Qed.

Lemma handleLine_keeps now d l :
  finalized (snd (handleLine now d l)) = [] ->
  currentOutput (fst (handleLine now d l)) = currentOutput d ++ l ++ [LF].
Proof.
  unfold handleLine.
  destruct (exec summaryRe l) as [[|e [|w [|? ?]]]|]; simpl;
    try reflexivity; discriminate.
Qed.

Lemma handleLines_keeps now d ls :
  finalized (snd (handleLines now d ls)) = [] ->
  currentOutput (fst (handleLines now d ls)) = currentOutput d ++ unlines ls.
Proof.
  revert d. induction ls as [|l ls IH]; intros d; simpl.
  - rewrite app_nil_r. reflexivity.
  - pose proof (handleLine_keeps now d l) as H1.
    destruct (handleLine now d l) as [d1 w1].
    specialize (IH d1). destruct (handleLines now d1 ls) as [d2 w2]. simpl in *.
    rewrite finalized_app. intros H. apply app_eq_nil in H as [E1 E2].
    rewrite (IH E2), (H1 E1), <- !app_assoc. reflexivity.
Qed.

(** X20.  While no summary line is finalized nothing of the stream is lost
    or doubled: after a chunk, the accumulated text followed by the line
    buffer is what it was before followed by the chunk, and the line buffer
    holds no line feed. *)
Theorem unfinished_text_is_kept (now : N) (d : t) (data : text) :
  finalized (snd (handleOutput now d data)) = [] ->
  let d' := fst (handleOutput now d data) in
  currentOutput d' ++ lineBuffer d' = currentOutput d ++ lineBuffer d ++ data /\
  (LF ∉ lineBuffer d').
Proof.
  intros Q. cbv zeta. rewrite handleOutput_lineBuffer.
  split; [|apply cut_tail_no_LF].
  rewrite handleOutput_cut in *. simpl in *.
  destruct (noteStarted_buffers now d data) as (C & B & _).
  rewrite finalized_app in Q. apply app_eq_nil in Q as [_ Q].
  rewrite B in *. rewrite (handleLines_keeps _ _ _ Q). simpl. rewrite C.
  rewrite <- app_assoc, <- cut_text. reflexivity.
Qed.

Lemma unfinished_text_is_kept_witness :
  let d := set_lineBuffer (lit "/w/src/a.sv")
             (set_currentOutput (line "Getting Svelte diagnostics...")
                (create 0 (lit "/w") None)) in
  let data := line "elte:1:1" ++ lit "Error: b" in
  let d' := fst (handleOutput 3 d data) in
  currentOutput d' ++ lineBuffer d' =
  line "Getting Svelte diagnostics..." ++ line "/w/src/a.svelte:1:1" ++ lit "Error: b".
Proof.
  cbv zeta.
  destruct (unfinished_text_is_kept 3
              (set_lineBuffer (lit "/w/src/a.sv")
                 (set_currentOutput (line "Getting Svelte diagnostics...")
                    (create 0 (lit "/w") None)))
              (line "elte:1:1" ++ lit "Error: b")) as [K _].
  - vm_compute. reflexivity.
  - rewrite K. vm_compute. reflexivity.
Defined.

End EndToEnd.
